(** * Conversation reconciliation of the Cursor chat browser

    A shallow embedding of the two routes that read a workspace's chat
    history: [fetchConversationsForWorkspace] (the export route) and [GET]
    (the tabs route).  Both share [safeParseTimestamp], [createBubble] and the
    three ingestion passes followed by the consolidation pass.  Around them
    stand the rest of the export route ([POST] with
    [convertConversationToMarkdown], [getTimestampString] and
    [sanitizeFilename]) and the two functions of the client's workspace list
    that talk to the routes ([fetchWorkspacesWithCounts] and
    [handleDownloadSelectedZip]).

    Conventions of the embedding
    - a JavaScript [number] is a binary64 float ([PrimFloat.float]);
    - a JavaScript string is a [string] whose characters stand for code units
      below 256;
    - a [Date] object is its time value, [None] for an invalid date;
    - [new Date()] reads a clock: the k-th reading of a run is [clock k];
    - an exception is the [Throw] outcome of the monad [M], with the value
      that is thrown; what a call of the platform throws outside the monad is
      the [Raised] case of [Outcome];
    - a stored text that [JSON.parse] takes is read at the TypeScript type
      the code declares for it: the record holds what the code reads of the
      parsed value, and a field the value has not is [None].  Values the
      declared type excludes (a field of another type) are not modelled. *)

From Stdlib Require Import ZArith String Ascii List Floats Lia Permutation.
From Stdlib Require DecimalString.
From stdpp Require Import base gmap sets list strings sorting.

Local Open Scope string_scope.
Local Open Scope Z_scope.
Local Open Scope list_scope.

(** ** JavaScript strings *)

Module JsString.

(** WhiteSpace and LineTerminator code points below 256:
    TAB, LF, VT, FF, CR, SP and NBSP. *)
Definition isWhiteSpace (c : ascii) : bool :=
  let n := N_of_ascii c in
  ((9 <=? n) && (n <=? 13) || (n =? 32) || (n =? 160))%N.

Fixpoint trimStart (s : string) : string :=
  match s with
  | String c r => if isWhiteSpace c then trimStart r else s
  | EmptyString => EmptyString
  end.

(** [trimEnd] drops a character when it is white and everything after it
    has been dropped. *)
Fixpoint trimEnd (s : string) : string :=
  match s with
  | String c r =>
      match trimEnd r with
      | EmptyString => if isWhiteSpace c then EmptyString else String c EmptyString
      | r' => String c r'
      end
  | EmptyString => EmptyString
  end.

(** [s.trim()] *)
Definition trim (s : string) : string := trimEnd (trimStart s).

(** Truthiness of a string: every string but the empty one. *)
Definition truthy (s : string) : bool :=
  match s with EmptyString => false | _ => true end.

(** [a || b] on two optional strings. *)
Definition or (a b : option string) : option string :=
  match a with
  | Some s => if truthy s then a else b
  | None => b
  end.

(** [s.slice(0, n)] *)
Fixpoint take (n : nat) (s : string) : string :=
  match n, s with
  | S n', String c r => String c (take n' r)
  | _, _ => EmptyString
  end.

(** [s.split(sep)] for a one-character separator: never empty. *)
Fixpoint split (sep : ascii) (s : string) : list string :=
  match s with
  | EmptyString => [EmptyString]
  | String c r =>
      if Ascii.eqb c sep then EmptyString :: split sep r
      else match split sep r with
           | h :: t => String c h :: t
           | [] => [String c EmptyString]
           end
  end.

Definition allWhite (s : string) : bool :=
  forallb isWhiteSpace (list_ascii_of_string s).

End JsString.

(** ** The Date object of the platform *)

Module JsDate.

Definition msPerDay : Z := 86400000.
Definition maxTime : Z := 8640000000000000.

(** A time value a Date object can hold. *)
Definition validTime (t : Z) : bool := (- maxTime <=? t) && (t <=? maxTime).

(** TimeClip on an integral number of milliseconds. *)
Definition clipZ (t : Z) : option Z := if validTime t then Some t else None.

(** TimeClip on a float: NaN and the infinities give an invalid date, and so
    does a magnitude above [maxTime]; the rest is truncated towards zero. *)
Definition TimeClip (x : float) : option Z :=
  match Prim2SF x with
  | S754_zero _ => Some 0
  | S754_infinity _ => None
  | S754_nan => None
  | S754_finite s m e =>
      let over :=
        if 0 <=? e then maxTime <? Z.pos m * 2 ^ e
        else maxTime * 2 ^ (- e) <? Z.pos m in
      let mag :=
        if 0 <=? e then Z.pos m * 2 ^ e else Z.pos m / 2 ^ (- e) in
      if over then None else Some (if s then - mag else mag)
  end.

(** Day number to proleptic Gregorian (year, month 1..12, day 1..31). *)
Definition civilOfDayOfEra (doe : Z) : Z * Z * Z :=
  let yoe := (doe - doe / 1460 + doe / 36524 - doe / 146096) / 365 in
  let doy := doe - (365 * yoe + yoe / 4 - yoe / 100) in
  let mp := (5 * doy + 2) / 153 in
  let d := doy - (153 * mp + 2) / 5 + 1 in
  let m := if mp <? 10 then mp + 3 else mp - 9 in
  (if m <=? 2 then yoe + 1 else yoe, m, d).

Definition civilFromDays (day : Z) : Z * Z * Z :=
  let z := day + 719468 in
  let era := z / 146097 in
  let '(y, m, d) := civilOfDayOfEra (z - era * 146097) in
  (y + era * 400, m, d).

(** MakeDay: the day number of a (year, month 1..12, day). *)
Definition daysFromCivil (y m d : Z) : Z :=
  let y' := if m <=? 2 then y - 1 else y in
  let era := y' / 400 in
  let yoe := y' - era * 400 in
  let doy := (153 * (if 2 <? m then m - 3 else m + 9) + 2) / 5 + d - 1 in
  let doe := yoe * 365 + yoe / 4 - yoe / 100 + doy in
  era * 146097 + doe - 719468.

Definition isLeap (y : Z) : bool :=
  (y mod 4 =? 0) && (negb (y mod 100 =? 0) || (y mod 400 =? 0)).

Definition daysInMonth (y m : Z) : Z :=
  if m =? 2 then (if isLeap y then 29 else 28)
  else if (m =? 4) || (m =? 6) || (m =? 9) || (m =? 11) then 30
  else 31.

Definition Day (t : Z) : Z := t / msPerDay.
Definition TimeWithinDay (t : Z) : Z := t mod msPerDay.
Definition YearFromTime (t : Z) : Z := fst (fst (civilFromDays (Day t))).
Definition MonthFromTime (t : Z) : Z := snd (fst (civilFromDays (Day t))).
Definition DateFromTime (t : Z) : Z := snd (civilFromDays (Day t)).
Definition HourFromTime (t : Z) : Z := TimeWithinDay t / 3600000.
Definition MinFromTime (t : Z) : Z := TimeWithinDay t / 60000 mod 60.
Definition SecFromTime (t : Z) : Z := TimeWithinDay t / 1000 mod 60.
Definition msFromTime (t : Z) : Z := TimeWithinDay t mod 1000.

Definition MakeDate (y mo d h mi s ms : Z) : Z :=
  daysFromCivil y mo d * msPerDay + (h * 3600000 + mi * 60000 + s * 1000 + ms).

(** *** Printing *)

Definition digitChar (d : Z) : ascii := ascii_of_N (48 + Z.to_N d).

(** [w] decimal digits of [n], most significant first, zero padded. *)
Fixpoint padDigits (w : nat) (n : Z) : string :=
  match w with
  | O => EmptyString
  | S w' => String (digitChar (n / 10 ^ Z.of_nat w' mod 10)) (padDigits w' n)
  end.

(** Four digits for the years 0..9999, a sign and six digits otherwise. *)
Definition yearString (y : Z) : string :=
  if (0 <=? y) && (y <=? 9999) then padDigits 4 y
  else (if y <? 0 then "-" else "+") +:+ padDigits 6 (Z.abs y).

(** The text [Date.prototype.toISOString] produces for a valid time value. *)
Definition isoFormat (t : Z) : string :=
  yearString (YearFromTime t) +:+ "-" +:+ padDigits 2 (MonthFromTime t) +:+ "-"
    +:+ padDigits 2 (DateFromTime t) +:+ "T" +:+ padDigits 2 (HourFromTime t)
    +:+ ":" +:+ padDigits 2 (MinFromTime t) +:+ ":" +:+ padDigits 2 (SecFromTime t)
    +:+ "." +:+ padDigits 3 (msFromTime t) +:+ "Z".

(** *** Parsing *)

Definition digitVal (c : ascii) : option Z :=
  let n := N_of_ascii c in
  if ((48 <=? n) && (n <=? 57))%N then Some (Z.of_N n - 48) else None.

Fixpoint readDigits (w : nat) (acc : Z) (s : string) : option (Z * string) :=
  match w with
  | O => Some (acc, s)
  | S w' =>
      match s with
      | String c r =>
          match digitVal c with
          | Some d => readDigits w' (10 * acc + d) r
          | None => None
          end
      | EmptyString => None
      end
  end.

Definition expect (c : ascii) (s : string) : option string :=
  match s with
  | String c' r => if Ascii.eqb c c' then Some r else None
  | EmptyString => None
  end.

Definition readYear (s : string) : option (Z * string) :=
  match s with
  | String "+" r => readDigits 6 0 r
  | String "-" r =>
      '(y, r') ← readDigits 6 0 r;
      if y =? 0 then None else Some (- y, r')
  | _ => readDigits 4 0 s
  end.

(** The complete UTC form of the Date Time String Format,
    [YYYY-MM-DDTHH:mm:ss.sssZ] with a four digit or an expanded year and
    every field in its legal range. *)
Definition parseISO (s : string) : option Z :=
  '(y, s) ← readYear s;
  s ← expect "-" s;
  '(mo, s) ← readDigits 2 0 s;
  s ← expect "-" s;
  '(d, s) ← readDigits 2 0 s;
  s ← expect "T" s;
  '(h, s) ← readDigits 2 0 s;
  s ← expect ":" s;
  '(mi, s) ← readDigits 2 0 s;
  s ← expect ":" s;
  '(sec, s) ← readDigits 2 0 s;
  s ← expect "." s;
  '(ms, s) ← readDigits 3 0 s;
  s ← expect "Z" s;
  match s with
  | EmptyString =>
      if (1 <=? mo) && (mo <=? 12) && (1 <=? d) && (d <=? daysInMonth y mo)
         && (h <=? 23) && (mi <=? 59) && (sec <=? 59)
      then Some (MakeDate y mo d h mi sec ms)
      else None
  | _ => None
  end.

(** A predicate checked on a whole interval by halving it. *)
Fixpoint checkRange (f : Z → bool) (lo : Z) (len : positive) : bool :=
  match len with
  | xH => f lo
  | xO p => checkRange f lo p && checkRange f (lo + Z.pos p) p
  | xI p => f lo && checkRange f (lo + 1) p && checkRange f (lo + 1 + Z.pos p) p
  end.

(** What is checked of the civil date of each day of one 400-year era. *)
Definition civilCheck (doe : Z) : bool :=
  let '(y, m, d) := civilOfDayOfEra doe in
  let y' := if m <=? 2 then y - 1 else y in
  (1 <=? m) && (m <=? 12) && (1 <=? d) && (d <=? daysInMonth y m)
  && (daysFromCivil y m d =? doe - 719468) && (0 <=? y') && (y' <? 400).

(** A well-formed instant: a text in the complete UTC form whose time value a
    Date object can hold. *)
Definition isInstant (s : string) : bool :=
  match parseISO s with
  | Some t => validTime t
  | None => false
  end.

End JsDate.


(** ** Generic array operations *)

Module JsArray.

Section Ops.
Context {A : Type}.

Fixpoint findIndexFrom (p : A → bool) (l : list A) (i : Z) : Z :=
  match l with
  | [] => -1
  | x :: r => if p x then i else findIndexFrom p r (i + 1)
  end.

(** [l.findIndex(p)]: the first index whose element satisfies [p], or -1. *)
Definition findIndex (p : A → bool) (l : list A) : Z := findIndexFrom p l 0.

Fixpoint filterFrom (p : A → Z → bool) (l : list A) (i : Z) : list A :=
  match l with
  | [] => []
  | x :: r => if p x i then x :: filterFrom p r (i + 1) else filterFrom p r (i + 1)
  end.

(** [l.filter((x, index) => p)] *)
Definition filterIndexed (p : A → Z → bool) (l : list A) : list A :=
  filterFrom p l 0.

(** The place of [x] in a list already in order: after every element it
    compares greater than, and before the first one it does not. *)
Fixpoint insertSorted (cmp : A → A → Z) (x : A) (l : list A) : list A :=
  match l with
  | [] => [x]
  | y :: r => if 0 <? cmp x y then y :: insertSorted cmp x r else x :: l
  end.

(** [l.sort(cmp)]: a stable sort. *)
Definition sort (cmp : A → A → Z) (l : list A) : list A :=
  foldr (insertSorted cmp) [] l.
End Ops.

End JsArray.

(** ** The data model *)

Inductive Role := user | assistant.

(** A raw type discriminator: [number | string]. *)
Inductive JsType :=
| TypeNum (x : float)
| TypeStr (s : string).

(** [number | string | Date | undefined | null] *)
Inductive Timestamp :=
| TsUndefined
| TsNull
| TsDate (tv : option Z)
| TsString (s : string)
| TsNumber (x : float).

Module ChatBubble.
Record t := createBubble {
  role : Role;
  content : string;
  id : option string;
  originalType : option JsType;
  originalSource : option string }.
End ChatBubble.
Abbreviation createBubble := ChatBubble.createBubble.

Module ResponseConversation.
Record t := mk {
  id : string;
  name : string;
  summary : option string;
  messages : list ChatBubble.t;
  createdAt : string;
  lastUpdatedAt : string }.
End ResponseConversation.

(** [TempConversation] of the export route, [ComposerConversation] of the
    tabs route: the same fields. *)
Module TempConversation.
Record t := mk {
  id : string;
  title : string;
  summary : option string;
  lastUpdatedAt : string;
  createdAt : string;
  bubbles : list ChatBubble.t }.
End TempConversation.

Module RawBubble.
Record t := mk {
  role : option string;
  type : option JsType;
  content : option string;
  text : option string;
  id : option string;
  bubbleId : option string }.
End RawBubble.

Module RawTab.
Record t := mk {
  tabId : string;
  chatTitle : option string;
  lastSendTime : Timestamp;
  bubbles : option (list RawBubble.t) }.
End RawTab.

Module ChatData.
Record t := mk { tabs : option (list RawTab.t) }.
End ChatData.

Module ComposerMessage.
Record t := mk {
  role : option string;
  type : option JsType;
  content : option string;
  text : option string;
  lastUpdatedAt : Timestamp;
  id : option string }.
End ComposerMessage.

Module Header.
Record t := mk {
  bubbleId : string;
  type : float;
  serverBubbleId : option string }.
End Header.

Module SummaryInner.
Record t := mk { summary : option string }.
End SummaryInner.

Module SummaryOuter.
Record t := mk { summary : option SummaryInner.t }.
End SummaryOuter.

Module ComposerInstance.
Record t := mk {
  composerId : string;
  name : option string;
  createdAt : Timestamp;
  lastUpdatedAt : Timestamp;
  messages : option (list ComposerMessage.t);
  conversation : option (list ComposerMessage.t);
  fullConversationHeadersOnly : option (list Header.t);
  latestConversationSummary : option SummaryOuter.t }.
End ComposerInstance.

(** An entry of [allComposers] in the workspace's composer metadata. *)
Module ComposerMeta.
Record t := mk {
  composerId : string;
  name : option string;
  createdAt : Timestamp;
  lastUpdatedAt : Timestamp }.
End ComposerMeta.

Module ComposerMetadata.
Record t := mk { allComposers : list ComposerMeta.t }.
End ComposerMetadata.

(** The parsed value of a [bubbleId:...] record of the global store. *)
Module BubbleData.
Record t := mk {
  type : option JsType;
  text : option string;
  richText : option string;
  bubbleId : option string }.
End BubbleData.

(** ** The stores *)

(** A thrown value as a catch clause sees it: an [Error] with its message,
    or a value that is no [Error]. *)
Inductive Thrown :=
| ErrorObject (message : string)
| OtherValue.

(** The text of a [value] column, seen through [JSON.parse]: a falsy value
    (NULL or the empty text), a text that is not JSON, on which [JSON.parse]
    throws a SyntaxError with the message [message], or a text that is JSON,
    with the value the code reads of it.  A text that is JSON is never
    [JsonMalformed], whatever its value: the text of an array, which has no
    [tabs], is the chat data without tabs. *)
Inductive Json (A : Type) :=
| JsonFalsy
| JsonMalformed (message : string)
| JsonValue (a : A).
Arguments JsonFalsy {A}.
Arguments JsonMalformed {A} message.
Arguments JsonValue {A} a.

Inductive Exc (A : Type) :=
| Ok (a : A)
| Throw (e : Thrown).
Arguments Ok {A} a.
Arguments Throw {A} e.

(** What one run meets on disk: whether the two files exist, and the outcome
    of each [open], of each query and of each [close]. *)
Module World.
Record t := mk {
  dbExists : bool;
  dbOpen : Exc unit;
  chatRow : Exc (option (Json ChatData.t));
  composerRow : Exc (option (Json ComposerMetadata.t));
  globalDbExists : bool;
  globalDbOpen : Exc unit;
  composerBodies : list string → Exc (list (Json ComposerInstance.t));
  globalBubbles : Exc (list (string * Json BubbleData.t));
  dbClose : Exc unit;
  globalDbClose : Exc unit }.
End World.

(** A [Map] read back in insertion order. *)
Module OrderedMap.
Section Ops.
Context {V : Type}.

Fixpoint get (k : string) (m : list (string * V)) : option V :=
  match m with
  | [] => None
  | (k', v) :: r => if String.eqb k' k then Some v else get k r
  end.

Definition has (k : string) (m : list (string * V)) : bool :=
  match get k m with Some _ => true | None => false end.

(** [m.set(k, v)]: an existing key keeps its place. *)
Fixpoint set (k : string) (v : V) (m : list (string * V)) : list (string * V) :=
  match m with
  | [] => [(k, v)]
  | (k', v') :: r => if String.eqb k' k then (k, v) :: r else (k', v') :: set k v r
  end.
End Ops.
End OrderedMap.

(** The mutable state of one run: the clock readings taken so far, the two
    database handles (set when the database is opened, cleared when it has
    been closed), and the four collections the passes fill. *)
Module Store.
Record t := mk {
  ticks : nat;
  db : bool;
  globalDb : bool;
  allConversationsMap : list (string * TempConversation.t);
  allBubblesMap : gmap string (list ChatBubble.t);
  headerOrderMap : gmap string (gmap string nat);
  workspaceComposerIds : gset string }.

Definition init : t := mk 0 false false [] ∅ ∅ ∅.

(** The four [new Map()] / [new Set()] declarations. *)
Definition newCollections (σ : t) : t := mk (ticks σ) (db σ) (globalDb σ) [] ∅ ∅ ∅.
(** [let db = null; let globalDb = null] *)
Definition nullHandles (σ : t) : t :=
  mk (ticks σ) false false (allConversationsMap σ)
     (allBubblesMap σ) (headerOrderMap σ) (workspaceComposerIds σ).

Definition tick (σ : t) : t :=
  mk (S (ticks σ)) (db σ) (globalDb σ) (allConversationsMap σ)
     (allBubblesMap σ) (headerOrderMap σ) (workspaceComposerIds σ).
Definition setDb (b : bool) (σ : t) : t :=
  mk (ticks σ) b (globalDb σ) (allConversationsMap σ)
     (allBubblesMap σ) (headerOrderMap σ) (workspaceComposerIds σ).
Definition setGlobalDb (b : bool) (σ : t) : t :=
  mk (ticks σ) (db σ) b (allConversationsMap σ)
     (allBubblesMap σ) (headerOrderMap σ) (workspaceComposerIds σ).
Definition setConversation (k : string) (c : TempConversation.t) (σ : t) : t :=
  mk (ticks σ) (db σ) (globalDb σ) (OrderedMap.set k c (allConversationsMap σ))
     (allBubblesMap σ) (headerOrderMap σ) (workspaceComposerIds σ).
Definition setBubbles (k : string) (l : list ChatBubble.t) (σ : t) : t :=
  mk (ticks σ) (db σ) (globalDb σ) (allConversationsMap σ)
     (<[k := l]> (allBubblesMap σ)) (headerOrderMap σ) (workspaceComposerIds σ).
Definition setHeaderOrder (k : string) (o : gmap string nat) (σ : t) : t :=
  mk (ticks σ) (db σ) (globalDb σ) (allConversationsMap σ)
     (allBubblesMap σ) (<[k := o]> (headerOrderMap σ)) (workspaceComposerIds σ).
Definition addComposerId (k : string) (σ : t) : t :=
  mk (ticks σ) (db σ) (globalDb σ) (allConversationsMap σ)
     (allBubblesMap σ) (headerOrderMap σ) ({[k]} ∪ workspaceComposerIds σ).
End Store.

(** ** The monad of a run: state and exceptions *)

Definition M (A : Type) : Type := Store.t → Exc A * Store.t.

Definition ret {A} (a : A) : M A := λ σ, (Ok a, σ).
Definition throw {A} (e : Thrown) : M A := λ σ, (Throw e, σ).
Definition bind {A B} (m : M A) (k : A → M B) : M B :=
  λ σ, match m σ with
       | (Ok a, σ') => k a σ'
       | (Throw e, σ') => (Throw e, σ')
       end.
Definition gets {A} (f : Store.t → A) : M A := λ σ, (Ok (f σ), σ).
Definition modify (f : Store.t → Store.t) : M unit := λ σ, (Ok tt, f σ).

(** [try { body } catch { handler }] with a handler that does not look at
    the thrown value. *)
Definition tryCatch {A} (body handler : M A) : M A :=
  λ σ, match body σ with
       | (Ok a, σ') => (Ok a, σ')
       | (Throw _, σ') => handler σ'
       end.

(** [try { body } catch (error) { handler }] *)
Definition catchValue {A} (body : M A) (handler : Thrown → M A) : M A :=
  λ σ, match body σ with
       | (Ok a, σ') => (Ok a, σ')
       | (Throw error, σ') => handler error σ'
       end.

(** [try { body } finally { cleanup }]: the cleanup runs whatever the body
    does; when it throws, that is what the statement throws, in place of
    what the body returned or threw. *)
Definition tryFinally {A} (body : M A) (cleanup : M unit) : M A :=
  λ σ, let '(r, σ') := body σ in
       match cleanup σ' with
       | (Ok _, σ'') => (r, σ'')
       | (Throw e, σ'') => (Throw e, σ'')
       end.

(** The outcome of an awaited call. *)
Definition await {A} (r : Exc A) : M A := λ σ, (r, σ).

(** [JSON.parse(value)], read at the declared type.  The empty text is not
    JSON either; the text NULL gives [null], of which the code cannot read
    the field it reads next.  No catch clause that can see these errors
    looks at them. *)
Definition JSON_parse {A} (j : Json A) : M A :=
  match j with
  | JsonValue a => ret a
  | JsonMalformed message => throw (ErrorObject message)
  | JsonFalsy => throw (ErrorObject "Unexpected end of JSON input")
  end.

Notation "'let*' x := m 'in' k" := (bind m (λ x, k))
  (at level 10, x name, m at level 100, k at level 200, only parsing).
Notation "'do' m 'then' k" := (bind m (λ _, k))
  (at level 10, m at level 100, k at level 200, only parsing).

Fixpoint forEach {A} (l : list A) (f : A → M unit) : M unit :=
  match l with
  | [] => ret tt
  | x :: r => do f x then forEach r f
  end.

(** ** The request of the export route *)

(** The body of the request: [{ workspaceId?, workspaceName?, workspaceIds? }]. *)
Module DownloadRequestBody.
Record t := mk {
  workspaceId : option string;
  workspaceName : option string;
  workspaceIds : option (list string) }.
End DownloadRequestBody.

(** An entry of [fs.readdir(path, { withFileTypes: true })]. *)
Module Dirent.
Record t := mk { name : string; isDirectory : bool }.
End Dirent.

(** What a call of the platform does: it returns, or it throws. *)
Inductive Outcome (A : Type) :=
| Returned (a : A)
| Raised (e : Thrown).
Arguments Returned {A} a.
Arguments Raised {A} e.

(** A JSZip archive: its entries by path, in the order they were added.  A
    folder is the entry of its name followed by a slash; a file of a folder
    has the path of the folder followed by its own name.  The names the
    export route uses hold no slash. *)
Inductive ZipEntry :=
| ZipFolder
| ZipFile (content : string).

Module JSZip.
Definition t : Type := list (string * ZipEntry).

(** The root of the object [zip.folder(name)] returns: for the empty name
    the archive itself, whose root is empty. *)
Definition root (name : string) : string :=
  match name with
  | EmptyString => EmptyString
  | _ => name +:+ "/"
  end.

(** [zip.folder(name)]: nothing is added for the empty name; otherwise the
    folder is added when it is not there yet. *)
Definition folder (name : string) (zip : t) : t :=
  match name with
  | EmptyString => zip
  | _ =>
      if OrderedMap.has (name +:+ "/") zip then zip
      else OrderedMap.set (name +:+ "/") ZipFolder zip
  end.

(** [zip.folder(name).file(filename, content)]: the file goes under the
    root of the folder, and a file of the same path is replaced. *)
Definition file (name filename content : string) (zip : t) : t :=
  OrderedMap.set (root name +:+ filename) (ZipFile content) zip.
End JSZip.

(** What the implementation chooses of the server's dates:
    [Date.prototype.toLocaleString], given the time value of the date or
    [None] for an invalid date, and the offset of local time at a UTC time
    value, in milliseconds. *)
Module Locale.
Record t := mk {
  toLocaleString : option Z → string;
  localTZA : Z → Z }.
End Locale.

(** What one request meets: the locale of the server, the environment
    variable, the parsed body or what [request.json()] throws, the workspace
    found on disk under each id, the outcome of reading the workspace
    directory, whether [zip.folder] returns a folder for a name, and what
    [zip.generateAsync] throws when it does. *)
Module ExportRequest.
Record t := mk {
  locale : Locale.t;
  WORKSPACE_PATH : option string;
  json : Outcome DownloadRequestBody.t;
  workspace : string → World.t;
  readdir : Outcome (list Dirent.t);
  folderCreated : string → bool;
  generateAsync : option Thrown }.
End ExportRequest.

(** The answers of the export route: [NextResponse.json({ error, details },
    { status })], or the archive with its status and two headers. *)
Inductive ExportResponse :=
| JsonAnswer (error : string) (details : option string) (status : Z)
| ZipAnswer (content : JSZip.t) (status : Z) (contentType contentDisposition : string).

(** ** The workspace list of the client *)

(** The fields of a [Workspace] the list uses. *)
Module Workspace.
Record t := mk {
  id : string;
  folder : option string;
  lastModified : string }.
End Workspace.

(** [{ ...workspace, conversationCount }] *)
Module WorkspaceWithCounts.
Record t := mk {
  workspace : Workspace.t;
  conversationCount : Z }.
Definition id (ws : t) : string := Workspace.id (workspace ws).
Definition folder (ws : t) : option string := Workspace.folder (workspace ws).
End WorkspaceWithCounts.

(** What [fetch] resolves to: the status with its text, and the outcome of
    reading the body as JSON; [ok] is a status from 200 to 299. *)
Module FetchResponse.
Record t (A : Type) := mk {
  status : Z;
  statusText : string;
  json : Outcome A }.
Arguments mk {A} status statusText json.
Arguments status {A} t.
Arguments statusText {A} t.
Arguments json {A} t.
Definition ok {A} (response : t A) : bool :=
  (200 <=? status response) && (status response <=? 299).
End FetchResponse.

(** ** Concrete platforms, worlds and stores *)

Module Sample.

(** A clock that advances one second per reading, a clock stopped at one
    instant, and a platform whose [Date.parse] knows the complete UTC form
    only. *)
Definition secondsClock (k : nat) : Z := 1700000000000 + 1000 * Z.of_nat k.
Definition frozenClock (k : nat) : Z := 1700000000000.
Definition isoOnly (s : string) : option Z := None.

Definition rawBubble (role content : string) : RawBubble.t :=
  RawBubble.mk (Some role) None (Some content) None None None.

Definition message (id content : string) : ComposerMessage.t :=
  ComposerMessage.mk (Some "assistant") None (Some content) None TsUndefined (Some id).

Definition bubbleRow (key : string) (type : float) (text : string)
  : string * Json BubbleData.t :=
  (key, JsonValue (BubbleData.mk (Some (TypeNum type)) (Some text) None None)).

Definition chatOf (tabs : list RawTab.t) : Exc (option (Json ChatData.t)) :=
  Ok (Some (JsonValue (ChatData.mk (Some tabs)))).

Definition metadataOf (allComposers : list ComposerMeta.t)
  : Exc (option (Json ComposerMetadata.t)) :=
  Ok (Some (JsonValue (ComposerMetadata.mk allComposers))).

(** Scenario 1: one chat tab, no composer metadata. *)
Definition tabHello : RawTab.t :=
  RawTab.mk "t1" (Some ("Hello" +:+ String "010" "world")) (TsNumber 1700000000000)
    (Some [rawBubble "user" "Hi"]).

Definition tabOnly : World.t :=
  World.mk true (Ok tt) (chatOf [tabHello]) (Ok None) true (Ok tt) (λ _, Ok []) (Ok [])
    (Ok tt) (Ok tt).

(** Scenario 2: composer c1 of the workspace, and a global store with two
    bubbles of c1, a white one of c1, and one of the unrelated c2. *)
Definition metaC1 : ComposerMeta.t :=
  ComposerMeta.mk "c1" (Some "First") (TsNumber 1700000000) TsUndefined.

Definition sharedStore : World.t :=
  World.mk true (Ok tt) (Ok None) (metadataOf [metaC1]) true (Ok tt) (λ _, Ok [])
    (Ok [bubbleRow "bubbleId:c1:b1" 1 "question";
         bubbleRow "bubbleId:c2:x1" 1 "foreign";
         bubbleRow "bubbleId:c1:b2" 0 "answer";
         bubbleRow "bubbleId:c1:b3" 0 "   "])
    (Ok tt) (Ok tt).

(** What the export route returns of it. *)
Definition answerC1 : ResponseConversation.t :=
  ResponseConversation.mk "c1" "First" None
    [createBubble user "question" (Some "b1") (Some (TypeNum 1)) (Some "globalBubble");
     createBubble assistant "answer" (Some "b2") (Some (TypeNum 0)) (Some "globalBubble")]
    "2023-11-14T22:13:20.000Z" "2023-11-14T22:13:20.000Z".

(** Scenario 3: the id t1 in both the chat-tab and the composer source. *)
Definition tabT1 : RawTab.t :=
  RawTab.mk "t1" (Some "Tab title") (TsNumber 1700000000000)
    (Some [rawBubble "user" "Hi"]).

Definition composerT1 : ComposerInstance.t :=
  ComposerInstance.mk "t1" (Some "Composer title") TsUndefined (TsNumber 1800000000)
    None None None None.

Definition bothSources : World.t :=
  World.mk true (Ok tt) (chatOf [tabT1])
    (metadataOf [ComposerMeta.mk "t1" (Some "Composer title") TsUndefined TsUndefined])
    true (Ok tt) (λ _, Ok [JsonValue composerT1]) (Ok []) (Ok tt) (Ok tt).

(** A store in the middle of scenario 3: the chat tab has been processed,
    the global store is open and the membership set is built. *)
Definition afterTabT1 : Store.t :=
  Store.mk 0 true true
    [("t1", TempConversation.mk "t1" "Tab title" None
              "2023-11-14T22:13:20.000Z" "2023-11-14T22:13:20.000Z" [])]
    {["t1" := [createBubble user "Hi" None None (Some "chatResult")]]} ∅ {["t1"]}.

(** Messages A, B, C staged in this order, with a header list naming B, C. *)
Definition composerABC : ComposerInstance.t :=
  ComposerInstance.mk "c1" (Some "Hinted") (TsNumber 1700000000) TsUndefined
    (Some [message "a" "A"; message "b" "B"; message "c" "C"]) None
    (Some [Header.mk "b" 2 None; Header.mk "c" 2 None]) None.

Definition hinted : World.t :=
  World.mk true (Ok tt) (Ok None) (metadataOf [metaC1]) true (Ok tt)
    (λ _, Ok [JsonValue composerABC]) (Ok []) (Ok tt) (Ok tt).

Definition bubbleA : ChatBubble.t :=
  createBubble assistant "A" (Some "a") None (Some "composerMessage").
Definition bubbleB : ChatBubble.t :=
  createBubble assistant "B" (Some "b") None (Some "composerMessage").
Definition bubbleC : ChatBubble.t :=
  createBubble assistant "C" (Some "c") None (Some "composerMessage").

Definition storeABC : Store.t :=
  Store.mk 0 true true [] {["c1" := [bubbleA; bubbleB; bubbleC]]}
    {["c1" := {["b" := 0%nat; "c" := 1%nat]}]} {["c1"]}.

(** A workspace with a chat tab and composer metadata whose global store
    cannot be opened. *)
Definition globalOpenFails : World.t :=
  World.mk true (Ok tt) (chatOf [tabHello]) (metadataOf [metaC1]) true
    (Throw (ErrorObject "SQLITE_CANTOPEN: unable to open database file"))
    (λ _, Ok []) (Ok []) (Ok tt) (Ok tt).

(** The same with a scan query that throws. *)
Definition scanThrows : World.t :=
  World.mk true (Ok tt) (chatOf [tabHello]) (metadataOf [metaC1]) true (Ok tt)
    (λ _, Ok []) (Throw (ErrorObject "SQLITE_ERROR: no such table: cursorDiskKV"))
    (Ok tt) (Ok tt).

(** The workspace of scenario 1 when its database cannot be closed. *)
Definition closeFails : World.t :=
  World.mk true (Ok tt) (chatOf [tabHello]) (Ok None) true (Ok tt) (λ _, Ok []) (Ok [])
    (Throw (ErrorObject "SQLITE_BUSY: unable to close due to unfinalized statements"))
    (Ok tt).

(** Two chat tabs, the second one sent later than the first. *)
Definition tabLater : RawTab.t :=
  RawTab.mk "t2" None (TsNumber 1800000000000)
    (Some [rawBubble "user" "Later"; rawBubble "assistant" "Indeed"]).

Definition twoTabs : World.t :=
  World.mk true (Ok tt) (chatOf [tabHello; tabLater]) (Ok None) true (Ok tt)
    (λ _, Ok []) (Ok []) (Ok tt) (Ok tt).

(** What the routes return of them. *)
Definition answerHello : ResponseConversation.t :=
  ResponseConversation.mk "t1" "Hello" None
    [createBubble user "Hi" None None (Some "chatResult")]
    "2023-11-14T22:13:20.000Z" "2023-11-14T22:13:20.000Z".

Definition answerLater : ResponseConversation.t :=
  ResponseConversation.mk "t2" "Chat t2" None
    [createBubble user "Later" None None (Some "chatResult");
     createBubble assistant "Indeed" None None (Some "chatResult")]
    "2027-01-15T08:00:00.000Z" "2027-01-15T08:00:00.000Z".

(** A server that keeps UTC and prints its dates in the ISO form. *)
Definition isoLocale : Locale.t :=
  Locale.mk
    (λ tv, match tv with Some t => JsDate.isoFormat t | None => "Invalid Date" end)
    (λ _, 0).

(** A workspace without a database file. *)
Definition noDatabase : World.t :=
  World.mk false (Ok tt) (Ok None) (Ok None) false (Ok tt) (λ _, Ok []) (Ok [])
    (Ok tt) (Ok tt).

(** The request for the workspace ws1, which holds the two chat tabs. *)
Definition exportOne : ExportRequest.t :=
  ExportRequest.mk isoLocale (Some "/workspaces")
    (Returned (DownloadRequestBody.mk (Some "ws1") (Some "project") None))
    (λ _, twoTabs) (Returned []) (λ _, true) None.

(** The same request when the archive takes no folder. *)
Definition exportNoFolder : ExportRequest.t :=
  ExportRequest.mk isoLocale (Some "/workspaces")
    (Returned (DownloadRequestBody.mk (Some "ws1") (Some "project") None))
    (λ _, twoTabs) (Returned []) (λ _, false) None.

(** A request for two selected workspaces that have no database. *)
Definition exportMissing : ExportRequest.t :=
  ExportRequest.mk isoLocale (Some "/workspaces")
    (Returned (DownloadRequestBody.mk None None (Some ["a"; "b"])))
    (λ _, noDatabase) (Returned []) (λ _, true) None.


(** A request to a server without [WORKSPACE_PATH]. *)
Definition unconfigured : ExportRequest.t :=
  ExportRequest.mk isoLocale None
    (Returned (DownloadRequestBody.mk (Some "ws1") None None))
    (λ _, twoTabs) (Returned []) (λ _, true) None.



(** The composer c1 with the messages A, B, A again and C, and no header
    list. *)
Definition composerRepeats : ComposerInstance.t :=
  ComposerInstance.mk "c1" (Some "Plain") (TsNumber 1700000000) TsUndefined
    (Some [message "a" "A"; message "b" "B"; message "a2" "A"; message "c" "C"]) None
    None None.

Definition bubbleA2 : ChatBubble.t :=
  createBubble assistant "A" (Some "a2") None (Some "composerMessage").

Definition unhinted : World.t :=
  World.mk true (Ok tt) (Ok None) (metadataOf [metaC1]) true (Ok tt)
    (λ _, Ok [JsonValue composerRepeats]) (Ok []) (Ok tt) (Ok tt).

(** The store the export route leaves of that workspace. *)
Definition afterRepeats : Store.t :=
  Store.mk 0 false false
    [("c1", TempConversation.mk "c1" "Plain" (Some "Plain")
              "2023-11-14T22:13:20.000Z" "2023-11-14T22:13:20.000Z" [])]
    {["c1" := [bubbleA; bubbleB; bubbleA2; bubbleC]]} ∅ {["c1"]}.

(** The workspace of scenario 1 with a composer row that is not JSON and no
    global database. *)
Definition garbledNoGlobal : World.t :=
  World.mk true (Ok tt) (chatOf [tabHello])
    (Ok (Some (JsonMalformed "Unexpected token o in JSON at position 1"))) false (Ok tt)
    (λ _, Ok []) (Ok []) (Ok tt) (Ok tt).

(** A request for the selected workspaces ws1 and the one of the empty id. *)
Definition exportRoot : ExportRequest.t :=
  ExportRequest.mk isoLocale (Some "/workspaces")
    (Returned (DownloadRequestBody.mk None None (Some ["ws1"; ""])))
    (λ id, match id with EmptyString => tabOnly | _ => twoTabs end)
    (Returned []) (λ _, true) None.

(** The request for the workspace ws1 when its database cannot be closed. *)
Definition exportCloseFails : ExportRequest.t :=
  ExportRequest.mk isoLocale (Some "/workspaces")
    (Returned (DownloadRequestBody.mk (Some "ws1") (Some "project") None))
    (λ _, closeFails) (Returned []) (λ _, true) None.

End Sample.

(** ** The routes *)

Section Routes.

(** The platform: the instants successive [new Date()] calls observe, and
    what [Date.parse] makes of a text that is not in the complete UTC form
    of the Date Time String Format (left to the implementation). *)
Variable clock : nat → Z.
Variable legacyDateParse : string → option Z.

(** [new Date()] *)
Definition newDate : M (option Z) :=
  λ σ, (Ok (JsDate.clipZ (clock (Store.ticks σ))), Store.tick σ).

(** [new Date(text)] *)
Definition dateOfString (s : string) : option Z :=
  match JsDate.parseISO s with
  | Some t => JsDate.clipZ t
  | None => legacyDateParse s ≫= JsDate.clipZ
  end.

(** [new Date(number)] *)
Definition dateOfNumber (x : float) : option Z := JsDate.TimeClip x.

(** [date.toISOString()]: a RangeError on an invalid date. *)
Definition toISOString (tv : option Z) : M string :=
  match tv ≫= JsDate.clipZ with
  | Some t => ret (JsDate.isoFormat t)
  | None => throw (ErrorObject "Invalid time value")
  end.

Definition nowISO : M string :=
  let* now := newDate in toISOString now.

Definition safeParseTimestamp (timestamp : Timestamp) : M string :=
  tryCatch
    match timestamp with
    | TsNull | TsUndefined => nowISO
    | TsDate tv => toISOString tv
    | TsString s =>
        match dateOfString s with
        | Some t => toISOString (Some t)
        | None => nowISO
        end
    | TsNumber x =>
        toISOString
          (dateOfNumber (if (100000000000 <? x)%float then x else (x * 1000)%float))
    end
    nowISO.

(** Truthiness of a value of type [Timestamp]. *)
Definition tsTruthy (t : Timestamp) : bool :=
  match t with
  | TsUndefined | TsNull => false
  | TsDate _ => true
  | TsString s => JsString.truthy s
  | TsNumber x => negb ((x =? 0)%float || PrimFloat.is_nan x)
  end.

(** [a || b] on timestamps. *)
Definition tsOr (a b : Timestamp) : Timestamp := if tsTruthy a then a else b.

(** [a || d] where [d] is a string. *)
Definition orElse (a : option string) (d : string) : string :=
  match a with
  | Some s => if JsString.truthy s then s else d
  | None => d
  end.

Definition isUserStr (r : option string) : bool :=
  match r with Some s => String.eqb s "user" | None => false end.

(** [type === "user"] *)
Definition typeIsUser (ty : option JsType) : bool :=
  match ty with Some (TypeStr s) => String.eqb s "user" | _ => false end.

(** [type === n] for a number [n] *)
Definition typeIsNum (ty : option JsType) (n : float) : bool :=
  match ty with Some (TypeNum x) => (x =? n)%float | _ => false end.

(** *** The three normalizers of one raw message *)

(** A bubble of a legacy chat tab. *)
Definition legacyBubble (b : RawBubble.t) : option ChatBubble.t :=
  let role :=
    if isUserStr (RawBubble.role b) || typeIsUser (RawBubble.type b)
    then user else assistant in
  let content := orElse (JsString.or (RawBubble.content b) (RawBubble.text b)) "" in
  if JsString.truthy (JsString.trim content)
  then Some (createBubble role content
               (JsString.or (RawBubble.id b) (RawBubble.bubbleId b))
               (RawBubble.type b) (Some "chatResult"))
  else None.

(** A message of a composer body. *)
Definition composerBubble (msg : ComposerMessage.t) : option ChatBubble.t :=
  let role :=
    if isUserStr (ComposerMessage.role msg) || typeIsNum (ComposerMessage.type msg) 1
    then user else assistant in
  let content :=
    orElse (JsString.or (ComposerMessage.content msg) (ComposerMessage.text msg)) "" in
  if JsString.truthy (JsString.trim content)
  then Some (createBubble role content (ComposerMessage.id msg)
               (ComposerMessage.type msg) (Some "composerMessage"))
  else None.

(** A record of the global bubble store; [keyId] is [keyParts[2]]. *)
Definition globalBubble (bubbleData : BubbleData.t) (keyId : option string)
  : option ChatBubble.t :=
  let role :=
    if typeIsNum (BubbleData.type bubbleData) 1 then user
    else if typeIsNum (BubbleData.type bubbleData) 0
            || typeIsNum (BubbleData.type bubbleData) 2
         then assistant
         else assistant in
  let textContent :=
    orElse (JsString.or (BubbleData.text bubbleData) (BubbleData.richText bubbleData)) "" in
  if JsString.truthy (JsString.trim textContent)
  then Some (createBubble role textContent
               (JsString.or (BubbleData.bubbleId bubbleData) keyId)
               (BubbleData.type bubbleData) (Some "globalBubble"))
  else None.

(** [`Chat ${id.slice(0, 8)}`] *)
Definition chatTitleOf (id : string) : string := "Chat " +:+ JsString.take 8 id.

(** *** Pass 1: the legacy chat tabs *)

Definition processTab (tab : RawTab.t) : M unit :=
  let processedBubbles := omap legacyBubble (default [] (RawTab.bubbles tab)) in
  do modify (Store.setBubbles (RawTab.tabId tab) processedBubbles) then
  let title :=
    orElse ((λ s, hd "" (JsString.split "010" s)) <$> RawTab.chatTitle tab)
           (chatTitleOf (RawTab.tabId tab)) in
  let* lastUpdatedAt := safeParseTimestamp (RawTab.lastSendTime tab) in
  let* createdAt := safeParseTimestamp (RawTab.lastSendTime tab) in
  modify (Store.setConversation (RawTab.tabId tab)
            (TempConversation.mk (RawTab.tabId tab) title None lastUpdatedAt createdAt [])).

Definition processChat (chatResult : option (Json ChatData.t)) : M unit :=
  match chatResult with
  | Some JsonFalsy | None => ret tt
  | Some value =>
      let* chatData := JSON_parse value in
      forEach (default [] (ChatData.tabs chatData)) processTab
  end.

(** *** Pass 2: the composers of the workspace *)

(** The order map of a non-empty header list: a later header of the same
    bubble id overwrites the earlier index. *)
Fixpoint orderMapFrom (headers : list Header.t) (index : nat) (orderMap : gmap string nat)
  : gmap string nat :=
  match headers with
  | [] => orderMap
  | header :: r => orderMapFrom r (S index) (<[Header.bubbleId header := index]> orderMap)
  end.

(** [composer.latestConversationSummary?.summary?.summary] *)
Definition composerSummary (composer : ComposerInstance.t) : option string :=
  match ComposerInstance.latestConversationSummary composer with
  | Some outer =>
      match SummaryOuter.summary outer with
      | Some inner => SummaryInner.summary inner
      | None => None
      end
  | None => None
  end.

Definition processComposer (composer : ComposerInstance.t) : M unit :=
  let composerId := ComposerInstance.composerId composer in
  let* existingBubbles := gets (λ σ, default [] (Store.allBubblesMap σ !! composerId)) in
  do match ComposerInstance.fullConversationHeadersOnly composer with
     | Some (header :: headers) =>
         modify (Store.setHeaderOrder composerId (orderMapFrom (header :: headers) 0 ∅))
     | _ => ret tt
     end then
  let messagesSource :=
    match ComposerInstance.messages composer with
    | Some l => Some l
    | None => ComposerInstance.conversation composer
    end in
  do modify (Store.setBubbles composerId
               (existingBubbles ++ omap composerBubble (default [] messagesSource))) then
  let* existing := gets (λ σ, OrderedMap.get composerId (Store.allConversationsMap σ)) in
  match existing with
  | Some existingConv =>
      let title :=
        orElse (ComposerInstance.name composer) (TempConversation.title existingConv) in
      let summary :=
        JsString.or (composerSummary composer) (TempConversation.summary existingConv) in
      let* lastUpdatedAt :=
        safeParseTimestamp
          (tsOr (tsOr (ComposerInstance.lastUpdatedAt composer)
                      (ComposerInstance.createdAt composer))
                (TsString (TempConversation.lastUpdatedAt existingConv))) in
      let* createdAt :=
        safeParseTimestamp
          (tsOr (ComposerInstance.createdAt composer)
                (TsString (TempConversation.createdAt existingConv))) in
      modify (Store.setConversation composerId
                (TempConversation.mk (TempConversation.id existingConv) title summary
                   lastUpdatedAt createdAt (TempConversation.bubbles existingConv)))
  | None =>
      let title := orElse (ComposerInstance.name composer) (chatTitleOf composerId) in
      let summary := JsString.or (composerSummary composer) (ComposerInstance.name composer) in
      let* lastUpdatedAt :=
        safeParseTimestamp
          (tsOr (ComposerInstance.lastUpdatedAt composer)
                (ComposerInstance.createdAt composer)) in
      let* createdAt :=
        safeParseTimestamp
          (tsOr (ComposerInstance.createdAt composer)
                (ComposerInstance.lastUpdatedAt composer)) in
      modify (Store.setConversation composerId
                (TempConversation.mk composerId title summary lastUpdatedAt createdAt []))
  end.

(** *** Pass 3: the scan of the global bubble store *)

Definition findComposerMeta (allComposers : list ComposerMeta.t) (composerId : string)
  : option ComposerMeta.t :=
  find (λ c, String.eqb (ComposerMeta.composerId c) composerId) allComposers.

Definition processGlobalBubble (allComposers : list ComposerMeta.t)
    (rawBubble : string * Json BubbleData.t) : M unit :=
  tryCatch
    (let* bubbleData := JSON_parse (snd rawBubble) in
     let keyParts := JsString.split ":" (fst rawBubble) in
     match keyParts !! 1%nat with
     | Some composerId =>
         let* known := gets (λ σ, bool_decide (composerId ∈ Store.workspaceComposerIds σ)) in
         if negb known then ret tt
         else
           match globalBubble bubbleData (keyParts !! 2%nat) with
           | Some bubble =>
               let* existingBubbles :=
                 gets (λ σ, default [] (Store.allBubblesMap σ !! composerId)) in
               do modify (Store.setBubbles composerId (existingBubbles ++ [bubble])) then
               let* existing :=
                 gets (λ σ, OrderedMap.get composerId (Store.allConversationsMap σ)) in
               let composerMeta := findComposerMeta allComposers composerId in
               match existing with
               | None =>
                   let title :=
                     orElse (from_option ComposerMeta.name None composerMeta)
                            (chatTitleOf composerId) in
                   let* lastUpdatedAt :=
                     safeParseTimestamp
                       (tsOr (from_option ComposerMeta.lastUpdatedAt TsUndefined composerMeta)
                             TsUndefined) in
                   let* createdAt :=
                     safeParseTimestamp
                       (tsOr (from_option ComposerMeta.createdAt TsUndefined composerMeta)
                             TsUndefined) in
                   modify (Store.setConversation composerId
                             (TempConversation.mk composerId title None
                                lastUpdatedAt createdAt []))
               | Some conv =>
                   let metaUpdated :=
                     from_option ComposerMeta.lastUpdatedAt TsUndefined composerMeta in
                   if tsTruthy metaUpdated then
                     let* lastUpdatedAt := safeParseTimestamp metaUpdated in
                     modify (Store.setConversation composerId
                               (TempConversation.mk (TempConversation.id conv)
                                  (TempConversation.title conv)
                                  (TempConversation.summary conv)
                                  lastUpdatedAt
                                  (TempConversation.createdAt conv)
                                  (TempConversation.bubbles conv)))
                   else ret tt
               end
           | None => ret tt
           end
     | None => ret tt
     end)
    (ret tt).

(** *** Consolidation: deduplication, ordering, the final list *)

Definition roleEqb (a b : Role) : bool :=
  match a, b with
  | user, user | assistant, assistant => true
  | _, _ => false
  end.

(** [b.content === bubble.content && b.role === bubble.role] *)
Definition sameBubble (bubble b : ChatBubble.t) : bool :=
  String.eqb (ChatBubble.content b) (ChatBubble.content bubble)
  && roleEqb (ChatBubble.role b) (ChatBubble.role bubble).

Definition uniqueBubbles (consolidatedBubbles : list ChatBubble.t) : list ChatBubble.t :=
  JsArray.filterIndexed
    (λ bubble index, index =? JsArray.findIndex (sameBubble bubble) consolidatedBubbles)
    consolidatedBubbles.

(** [headerMap.get(a.id || "")] *)
Definition headerIndex (headerMap : gmap string nat) (a : ChatBubble.t) : option nat :=
  headerMap !! orElse (ChatBubble.id a) "".

Definition compareByHeader (headerMap : gmap string nat) (a b : ChatBubble.t) : Z :=
  match headerIndex headerMap a, headerIndex headerMap b with
  | Some indexA, Some indexB => Z.of_nat indexA - Z.of_nat indexB
  | Some _, None => -1
  | None, Some _ => 1
  | None, None => 0
  end.

Definition orderBubbles (headerMap : option (gmap string nat))
    (unique : list ChatBubble.t) : list ChatBubble.t :=
  match headerMap with
  | Some headerMap =>
      if (0 <? size headerMap)%nat
      then JsArray.sort (compareByHeader headerMap) unique
      else unique
  | None => unique
  end.

(** The final messages of the conversation of id [id]. *)
Definition finalBubbles (σ : Store.t) (id : string) : list ChatBubble.t :=
  orderBubbles (Store.headerOrderMap σ !! id)
    (uniqueBubbles (default [] (Store.allBubblesMap σ !! id))).

(** [new Date(b.lastUpdatedAt).getTime() - new Date(a.lastUpdatedAt).getTime()],
    a NaN counting as 0. *)
Definition compareTimes (a b : string) : Z :=
  match dateOfString b, dateOfString a with
  | Some tb, Some ta => tb - ta
  | _, _ => 0
  end.

(** The export route's consolidation. *)
Definition consolidateExport (σ : Store.t) (tempConv : TempConversation.t)
  : option ResponseConversation.t :=
  let uniqueBubbles := finalBubbles σ (TempConversation.id tempConv) in
  if (0 <? length uniqueBubbles)%nat
  then Some (ResponseConversation.mk
               (TempConversation.id tempConv)
               (TempConversation.title tempConv)
               (TempConversation.summary tempConv)
               uniqueBubbles
               (TempConversation.createdAt tempConv)
               (TempConversation.lastUpdatedAt tempConv))
  else None.

Definition finalConversationsListExport (σ : Store.t) : list ResponseConversation.t :=
  JsArray.sort
    (λ a b, compareTimes (ResponseConversation.lastUpdatedAt a)
                         (ResponseConversation.lastUpdatedAt b))
    (omap (λ kv, consolidateExport σ (snd kv)) (Store.allConversationsMap σ)).

(** The tabs route's consolidation: the conversation takes the bubbles, is
    kept when it has any, and is turned into the response shape at the end. *)
Definition consolidateTabs (σ : Store.t) (conversation : TempConversation.t)
  : option TempConversation.t :=
  let uniqueBubbles := finalBubbles σ (TempConversation.id conversation) in
  let conversation :=
    TempConversation.mk
      (TempConversation.id conversation) (TempConversation.title conversation)
      (TempConversation.summary conversation) (TempConversation.lastUpdatedAt conversation)
      (TempConversation.createdAt conversation) uniqueBubbles in
  if (0 <? length (TempConversation.bubbles conversation))%nat
  then Some conversation else None.

Definition finalConversationsListTabs (σ : Store.t) : list TempConversation.t :=
  JsArray.sort
    (λ a b, compareTimes (TempConversation.lastUpdatedAt a)
                         (TempConversation.lastUpdatedAt b))
    (omap (λ kv, consolidateTabs σ (snd kv)) (Store.allConversationsMap σ)).

Definition toResponse (conv : TempConversation.t) : ResponseConversation.t :=
  ResponseConversation.mk
    (TempConversation.id conv) (TempConversation.title conv)
    (TempConversation.summary conv) (TempConversation.bubbles conv)
    (TempConversation.createdAt conv) (TempConversation.lastUpdatedAt conv).

(** *** The two routes *)

Fixpoint mapM {A B} (f : A → M B) (l : list A) : M (list B) :=
  match l with
  | [] => ret []
  | x :: r => let* y := f x in let* ys := mapM f r in ret (y :: ys)
  end.

(** The body of [if (composerMetadataResult && composerMetadataResult.value)],
    after the attempt to open the global store. *)
Definition processComposerData (w : World.t)
    (value : Json ComposerMetadata.t) : M unit :=
  let* globalDb := gets Store.globalDb in
  if globalDb then
    let* composerMetadataForGlobal := JSON_parse value in
    let allComposers := ComposerMetadata.allComposers composerMetadataForGlobal in
    do forEach allComposers
         (λ it, modify (Store.addComposerId (ComposerMeta.composerId it))) then
    let keys := map (λ it, "composerData:" +:+ ComposerMeta.composerId it) allComposers in
    do (if (0 <? length keys)%nat then
          let* composersBodyResult := await (World.composerBodies w keys) in
          let* parsedComposers := mapM JSON_parse composersBodyResult in
          forEach parsedComposers processComposer
        else ret tt) then
    let* globalRawBubbles := await (World.globalBubbles w) in
    forEach globalRawBubbles (processGlobalBubble allComposers)
  else ret tt.

(** [try { globalDb = await open(...) } catch (e) { console.warn(...) }] *)
Definition openGlobalDb (w : World.t) : M unit :=
  tryCatch
    (do await (World.globalDbOpen w) then modify (Store.setGlobalDb true))
    (ret tt).

(** [if (db) await db.close(); if (globalDb) await globalDb.close();] *)
Definition closeHandles (w : World.t) : M unit :=
  let* db := gets Store.db in
  do (if db then do await (World.dbClose w) then modify (Store.setDb false)
      else ret tt) then
  let* globalDb := gets Store.globalDb in
  if globalDb then do await (World.globalDbClose w) then modify (Store.setGlobalDb false)
  else ret tt.

(** The export route's per-workspace fetch. *)
Definition fetchConversationsForWorkspace (w : World.t)
  : M (list ResponseConversation.t) :=
  do modify Store.nullHandles then
  tryFinally
    (tryCatch
       (if negb (World.dbExists w) then ret []
        else
          do await (World.dbOpen w) then
          do modify (Store.setDb true) then
          let* chatResult := await (World.chatRow w) in
          let* composerMetadataResult := await (World.composerRow w) in
          do modify Store.newCollections then
          do processChat chatResult then
          do match composerMetadataResult with
             | Some JsonFalsy | None => ret tt
             | Some value =>
                 do (if World.globalDbExists w then openGlobalDb w else ret tt) then
                 processComposerData w value
             end then
          gets finalConversationsListExport)
       (ret []))
    (closeHandles w).

(** The tabs route. *)
Inductive ResponseBody :=
| Conversations (conversations : list ResponseConversation.t)
| ErrorBody (error : string).

Inductive Response := NextResponse_json (body : ResponseBody) (status : Z).

Definition isRow {A} (row : option A) : bool :=
  match row with Some _ => true | None => false end.

Definition GET (w : World.t) : M Response :=
  do modify Store.nullHandles then
  tryFinally
    (tryCatch
       (do await (World.dbOpen w) then
        do modify (Store.setDb true) then
        let* chatResult := await (World.chatRow w) in
        let* composerMetadataResult := await (World.composerRow w) in
        do modify Store.newCollections then
        do processChat chatResult then
        do match composerMetadataResult with
           | Some JsonFalsy | None => ret tt
           | Some value =>
               do openGlobalDb w then
               processComposerData w value
           end then
        let* finalConversationsList := gets finalConversationsListTabs in
        if (length finalConversationsList =? 0)%nat
           && negb (isRow composerMetadataResult) && negb (isRow chatResult)
        then ret (NextResponse_json
                    (ErrorBody "No chat data found in workspace or global storage") 404)
        else ret (NextResponse_json
                    (Conversations (map toResponse finalConversationsList)) 200))
       (ret (NextResponse_json (ErrorBody "Failed to get workspace data") 500)))
    (closeHandles w).

(** What the caller of a route receives. *)
Definition run {A} (m : M A) : Exc A := fst (m Store.init).

(** *** Vocabulary of the statements *)

(** The instant a raw timestamp denotes, when it denotes one; otherwise
    [safeParseTimestamp] ends on the current time. *)
Definition timeValueOf (timestamp : Timestamp) : option Z :=
  match timestamp with
  | TsNull | TsUndefined => None
  | TsDate tv => tv ≫= JsDate.clipZ
  | TsString s => dateOfString s
  | TsNumber x => dateOfNumber (if (100000000000 <? x)%float then x else (x * 1000)%float)
  end.


(** [a] may stand before [b] in an array sorted with [cmp]. *)
Definition notAfter {A} (cmp : A → A → Z) (a b : A) : Prop := cmp a b <= 0.

(** The identity of a message for deduplication. *)
Definition bubbleKey (b : ChatBubble.t) : Role * string :=
  (ChatBubble.role b, ChatBubble.content b).

#[global] Instance Role_eq_dec : EqDecision Role.
Proof. solve_decision. Defined.

(** The messages staged for a conversation id, in staging order. *)
Definition staged (σ : Store.t) (id : string) : list ChatBubble.t :=
  default [] (Store.allBubblesMap σ !! id).

(** Deduplication as the specification words it: a message is kept when no
    earlier message has its (role, content) pair. *)
Fixpoint firstOccurrences (seen : list (Role * string)) (l : list ChatBubble.t)
  : list ChatBubble.t :=
  match l with
  | [] => []
  | b :: r =>
      if bool_decide (bubbleKey b ∈ seen) then firstOccurrences seen r
      else b :: firstOccurrences (seen ++ [bubbleKey b]) r
  end.

(** The resolved content of a raw message of each source. *)
Definition legacyContent (b : RawBubble.t) : string :=
  orElse (JsString.or (RawBubble.content b) (RawBubble.text b)) "".
Definition composerContent (msg : ComposerMessage.t) : string :=
  orElse (JsString.or (ComposerMessage.content msg) (ComposerMessage.text msg)) "".
Definition globalContent (bubbleData : BubbleData.t) : string :=
  orElse (JsString.or (BubbleData.text bubbleData) (BubbleData.richText bubbleData)) "".

(** Hoare triples of the monad: from a state in [P], the computation ends in
    [Q] with its value, or throws in a state in [E]. *)
Definition hoare {A} (P : Store.t → Prop) (m : M A)
    (Q : A → Store.t → Prop) (E : Store.t → Prop) : Prop :=
  ∀ σ, P σ → match m σ with
              | (Ok a, σ') => Q a σ'
              | (Throw _, σ') => E σ'
              end.

(** The same with a condition on what is thrown. *)
Definition hoareThrown {A} (P : Store.t → Prop) (m : M A)
    (Q : A → Store.t → Prop) (E : Thrown → Prop) : Prop :=
  ∀ σ, P σ → match m σ with
              | (Ok a, σ') => Q a σ'
              | (Throw e, _) => E e
              end.

(** The computation keeps the invariant [I] of the state, also when it
    throws, and its value satisfies [Qv]. *)
Definition keeps {A} (I : Store.t → Prop) (m : M A) (Qv : A → Prop) : Prop :=
  hoare I m (λ a σ, I σ ∧ Qv a) I.

(** An invariant that does not look at the clock. *)
Definition tickInvariant (I : Store.t → Prop) : Prop := ∀ σ, I σ → I (Store.tick σ).

(** Every reading of the clock is a time value a Date can hold. *)
Definition clockValid : Prop := ∀ k, JsDate.validTime (clock k) = true.

(** What [safeParseTimestamp] returns when the clock reads valid times and has
    been read [k] times: the denoted instant, or else the next reading. *)
Definition normalizeAt (k : nat) (timestamp : Timestamp) : string :=
  match timeValueOf timestamp with
  | Some t => JsDate.isoFormat t
  | None => JsDate.isoFormat (clock k)
  end.

(** The number of clock readings it takes. *)
Definition readings (timestamp : Timestamp) : nat :=
  match timeValueOf timestamp with
  | Some _ => 0
  | None => 1
  end.

(** Timestamps as the normalizer writes them. *)
Definition isoStamped (c : TempConversation.t) : Prop :=
  (∃ t, JsDate.validTime t = true ∧ TempConversation.lastUpdatedAt c = JsDate.isoFormat t)
  ∧ (∃ t, JsDate.validTime t = true ∧ TempConversation.createdAt c = JsDate.isoFormat t).

(** The membership set of the store is [X]. *)
Definition membershipIs (X : gset string) (σ : Store.t) : Prop :=
  Store.workspaceComposerIds σ = X.

(** Every conversation of the store has well-formed timestamps. *)
Definition allWellTimed (wt : TempConversation.t → Prop) (σ : Store.t) : Prop :=
  Forall (λ kv, wt (snd kv)) (Store.allConversationsMap σ).

(** Both timestamps of a conversation are well-formed instants. *)
Definition wellTimed (c : TempConversation.t) : Prop :=
  JsDate.isInstant (TempConversation.lastUpdatedAt c) = true
  ∧ JsDate.isInstant (TempConversation.createdAt c) = true.

Definition wellTimedResponse (c : ResponseConversation.t) : Prop :=
  JsDate.isInstant (ResponseConversation.lastUpdatedAt c) = true
  ∧ JsDate.isInstant (ResponseConversation.createdAt c) = true.

(** The workspace-membership set of a composer metadata blob. *)
Definition membership (allComposers : list ComposerMeta.t) : gset string :=
  list_to_set (ComposerMeta.composerId <$> allComposers).

Definition membershipOf (w : World.t) : gset string :=
  match World.composerRow w with
  | Ok (Some (JsonValue composerMetadata)) =>
      membership (ComposerMetadata.allComposers composerMetadata)
  | _ => ∅
  end.

(** The composer id embedded in the key of a global-store record. *)
Definition keyComposerId (key : string) : option string :=
  JsString.split ":" key !! 1%nat.

(** A record of the global store that names a composer outside [ids]. *)
Definition foreign (ids : gset string) (rawBubble : string * Json BubbleData.t) : bool :=
  match keyComposerId (fst rawBubble) with
  | Some composerId => negb (bool_decide (composerId ∈ ids))
  | None => false
  end.

(** The world without the foreign records of its global store. *)
Definition dropForeign (w : World.t) : World.t :=
  World.mk (World.dbExists w) (World.dbOpen w) (World.chatRow w) (World.composerRow w)
    (World.globalDbExists w) (World.globalDbOpen w) (World.composerBodies w)
    match World.globalBubbles w with
    | Ok rows => Ok (filter (λ r, negb (foreign (membershipOf w) r)) rows)
    | Throw e => Throw e
    end
    (World.dbClose w) (World.globalDbClose w).

(** The world in which the composer metadata row is not there. *)
Definition withoutComposerRow (w : World.t) : World.t :=
  World.mk (World.dbExists w) (World.dbOpen w) (World.chatRow w) (Ok None)
    (World.globalDbExists w) (World.globalDbOpen w) (World.composerBodies w)
    (World.globalBubbles w) (World.dbClose w) (World.globalDbClose w).

(** The world in which the [close] of the global database does [r]. *)
Definition withGlobalClose (r : Exc unit) (w : World.t) : World.t :=
  World.mk (World.dbExists w) (World.dbOpen w) (World.chatRow w) (World.composerRow w)
    (World.globalDbExists w) (World.globalDbOpen w) (World.composerBodies w)
    (World.globalBubbles w) (World.dbClose w) r.

(** *** The export route: file names *)

(** The character class of the first [replace]: the control characters
    0x00..0x1F, and < > : / \ | ? * and the double quote. *)
Definition isUnsafeChar (c : ascii) : bool :=
  (N_of_ascii c <=? 31)%N
  || existsb (Ascii.eqb c) ["<"; ">"; ":"; "034"; "/"; "092"; "|"; "?"; "*"]%char.

(** The first [replace]: every character of the class becomes [_]. *)
Fixpoint replaceUnsafe (name : string) : string :=
  match name with
  | String c r => String (if isUnsafeChar c then "_"%char else c) (replaceUnsafe r)
  | EmptyString => EmptyString
  end.

(** The second [replace], of [/\.$/]: a dot that ends the text becomes [_]. *)
Fixpoint replaceFinalDot (s : string) : string :=
  match s with
  | String c EmptyString => String (if Ascii.eqb c "." then "_"%char else c) EmptyString
  | String c r => String c (replaceFinalDot r)
  | EmptyString => EmptyString
  end.

Definition sanitizeFilename (name : string) : string :=
  replaceFinalDot (replaceUnsafe name).

(** A name the file system takes as it is. *)
Definition safeChars (s : string) : Prop :=
  Forall (λ c, isUnsafeChar c = false) (list_ascii_of_string s).

Definition endsWithDot (s : string) : Prop := ∃ r, s = r +:+ ".".

(** *** What the passes keep *)

(** A conversation filed under its own id, with a title. *)
Definition filed (kv : string * TempConversation.t) : Prop :=
  TempConversation.id (snd kv) = fst kv ∧ TempConversation.title (snd kv) ≠ "".

(** Every conversation of the store is filed, and no key is there twice. *)
Definition wellFiled (σ : Store.t) : Prop :=
  Forall filed (Store.allConversationsMap σ) ∧ NoDup (Store.allConversationsMap σ).*1.

(** A message as one of the three normalizers builds it. *)
Definition canonical (b : ChatBubble.t) : Prop :=
  JsString.allWhite (ChatBubble.content b) = false
  ∧ ChatBubble.originalSource b
      ∈ [Some "chatResult"; Some "composerMessage"; Some "globalBubble"].

(** Every staged message satisfies [P]. *)
Definition allStaged (P : ChatBubble.t → Prop) (σ : Store.t) : Prop :=
  map_Forall (λ _ l, Forall P l) (Store.allBubblesMap σ).

(** The three invariants of the store together. *)
Definition consistent (σ : Store.t) : Prop :=
  allWellTimed wellTimed σ ∧ wellFiled σ ∧ allStaged canonical σ.

(** The instant of the [lastUpdatedAt] of a returned conversation. *)
Definition updatedTime (c : ResponseConversation.t) : option Z :=
  dateOfString (ResponseConversation.lastUpdatedAt c).

(** The error a route throws: what a [close] of its finally clause throws. *)
Definition closeError (w : World.t) (e : Thrown) : Prop :=
  World.dbClose w = Throw e ∨ World.globalDbClose w = Throw e.

(** Both databases of the world can be closed. *)
Definition closes (w : World.t) : Prop :=
  World.dbClose w = Ok tt ∧ World.globalDbClose w = Ok tt.

(** The answers of the tabs route that carry no conversations. *)
Definition notFound : Response :=
  NextResponse_json (ErrorBody "No chat data found in workspace or global storage") 404.
Definition serverError : Response :=
  NextResponse_json (ErrorBody "Failed to get workspace data") 500.

(** The tabs route's answer says what the export route's fetch returns: the
    same list with status 200, or an error where the fetch returns nothing. *)
Definition sameAnswer (l : list ResponseConversation.t) (r : Response) : Prop :=
  r = NextResponse_json (Conversations l) 200
  ∨ l = [] ∧ (r = notFound ∨ r = serverError).

(** The outcomes of the two route bodies, run from the same state. *)
Definition sameBody (x : Exc (list ResponseConversation.t) * Store.t)
    (y : Exc Response * Store.t) : Prop :=
  snd x = snd y
  ∧ match fst x, fst y with
    | Ok l, Ok r => sameAnswer l r
    | Throw e, Throw e' => e = e'
    | _, _ => False
    end.

(** A record of the global store the scan can make nothing of, whatever the
    state: a value that does not parse, a key without a second part, a text
    that is empty or all white. *)
Definition inert (rawBubble : string * Json BubbleData.t) : bool :=
  match snd rawBubble with
  | JsonValue bubbleData =>
      JsString.allWhite (globalContent bubbleData)
      || negb (isRow (keyComposerId (fst rawBubble)))
  | _ => true
  end.

(** The world without the inert records of its global store. *)
Definition dropInert (w : World.t) : World.t :=
  World.mk (World.dbExists w) (World.dbOpen w) (World.chatRow w) (World.composerRow w)
    (World.globalDbExists w) (World.globalDbOpen w) (World.composerBodies w)
    match World.globalBubbles w with
    | Ok rows => Ok (filter (λ r, negb (inert r)) rows)
    | Throw e => Throw e
    end
    (World.dbClose w) (World.globalDbClose w).

(** [composer.messages || composer.conversation || []] *)
Definition messagesOf (composer : ComposerInstance.t) : list ComposerMessage.t :=
  default []
    match ComposerInstance.messages composer with
    | Some l => Some l
    | None => ComposerInstance.conversation composer
    end.

(** The staging of every conversation but [id] is the same in both states. *)
Definition stagedElsewhere (id : string) (σ σ' : Store.t) : Prop :=
  ∀ j, j ≠ id → staged σ' j = staged σ j.

(** *** The export route: Markdown *)

Definition nl : string := String "010" "".

Definition roleText (role : Role) : string :=
  match role with
  | user => "user"
  | assistant => "assistant"
  end.

(** [c.toUpperCase()] on the letters a..z, the only ones a role begins with. *)
Definition toUpperCase (c : ascii) : ascii :=
  let n := N_of_ascii c in
  if ((97 <=? n) && (n <=? 122))%N then ascii_of_N (n - 32) else c.

(** [s.charAt(0).toUpperCase() + s.slice(1)] *)
Definition capitalized (s : string) : string :=
  match s with
  | String c r => String (toUpperCase c) r
  | EmptyString => EmptyString
  end.

(** The body of [conversation.messages.forEach]. *)
Definition bubbleMarkdown (markdown : string) (bubble : ChatBubble.t) : string :=
  let markdown :=
    markdown +:+ "### " +:+ capitalized (roleText (ChatBubble.role bubble)) +:+ nl +:+ nl in
  let markdown :=
    if JsString.truthy (ChatBubble.content bubble)
    then markdown +:+ ChatBubble.content bubble +:+ nl +:+ nl
    else if roleEqb (ChatBubble.role bubble) assistant
         then markdown +:+ "_[No text content available]_" +:+ nl +:+ nl
         else markdown in
  markdown +:+ "---" +:+ nl +:+ nl.

Definition convertConversationToMarkdown (locale : Locale.t)
    (conversation : ResponseConversation.t) : string :=
  let markdown := "# " +:+ ResponseConversation.name conversation +:+ nl +:+ nl in
  let markdown :=
    markdown +:+ "_Created: "
      +:+ Locale.toLocaleString locale
            (dateOfString (ResponseConversation.createdAt conversation))
      +:+ "_" +:+ nl in
  let markdown :=
    markdown +:+ "_Last Updated: "
      +:+ Locale.toLocaleString locale
            (dateOfString (ResponseConversation.lastUpdatedAt conversation))
      +:+ "_" +:+ nl +:+ nl +:+ "---" +:+ nl +:+ nl in
  let markdown :=
    match ResponseConversation.summary conversation with
    | Some summary =>
        if JsString.truthy summary
        then markdown +:+ "**Summary:** " +:+ summary +:+ nl +:+ nl
        else markdown
    | None => markdown
    end in
  fold_left bubbleMarkdown (ResponseConversation.messages conversation) markdown.

(** *** The export route: the timestamp of the archive name *)

Definition LocalTime (locale : Locale.t) (t : Z) : Z := t + Locale.localTZA locale t.

(** The local-time getters of a Date; NaN, here [None], on an invalid date. *)
Definition getFullYear (locale : Locale.t) (date : option Z) : option Z :=
  (λ t, JsDate.YearFromTime (LocalTime locale t)) <$> date.
Definition getMonth (locale : Locale.t) (date : option Z) : option Z :=
  (λ t, JsDate.MonthFromTime (LocalTime locale t) - 1) <$> date.
Definition getDate (locale : Locale.t) (date : option Z) : option Z :=
  (λ t, JsDate.DateFromTime (LocalTime locale t)) <$> date.
Definition getHours (locale : Locale.t) (date : option Z) : option Z :=
  (λ t, JsDate.HourFromTime (LocalTime locale t)) <$> date.
Definition getMinutes (locale : Locale.t) (date : option Z) : option Z :=
  (λ t, JsDate.MinFromTime (LocalTime locale t)) <$> date.
Definition getSeconds (locale : Locale.t) (date : option Z) : option Z :=
  (λ t, JsDate.SecFromTime (LocalTime locale t)) <$> date.

(** The text of an integral number, or of NaN. *)
Definition numberToString (x : option Z) : string :=
  match x with
  | Some n => DecimalString.NilZero.string_of_int (Z.to_int n)
  | None => "NaN"
  end.

(** [s.padStart(n, "0")] *)
Definition padStart (n : nat) (s : string) : string :=
  Nat.iter (n - String.length s) (String "0") s.

Definition getTimestampString (locale : Locale.t) : M string :=
  let* now := newDate in
  let year := getFullYear locale now in
  let month := padStart 2 (numberToString ((λ m, m + 1) <$> getMonth locale now)) in
  let day := padStart 2 (numberToString (getDate locale now)) in
  let hours := padStart 2 (numberToString (getHours locale now)) in
  let minutes := padStart 2 (numberToString (getMinutes locale now)) in
  let seconds := padStart 2 (numberToString (getSeconds locale now)) in
  ret (numberToString year +:+ month +:+ day +:+ hours +:+ minutes +:+ seconds).

(** *** The export route: the archive *)

(** [a || b] on two strings. *)
Definition orString (a b : string) : string := if JsString.truthy a then a else b.

(** The body of [conversations.forEach] for the folder of name [name]. *)
Definition addConversation (locale : Locale.t) (name : string) (zip : JSZip.t)
    (conv : ResponseConversation.t) : JSZip.t :=
  let markdownContent := convertConversationToMarkdown locale conv in
  let filename :=
    sanitizeFilename (orString (ResponseConversation.name conv) (ResponseConversation.id conv))
      +:+ ".md" in
  JSZip.file name filename markdownContent zip.

Definition addConversations (locale : Locale.t) (name : string)
    (conversations : list ResponseConversation.t) (zip : JSZip.t) : JSZip.t :=
  fold_left (addConversation locale name) conversations zip.

(** [error instanceof Error ? error.message : "Unknown error"] *)
Definition errorMessage (error : Thrown) : string :=
  match error with
  | ErrorObject message => message
  | OtherValue => "Unknown error"
  end.

(** [zip.generateAsync] and the answer that carries the archive. *)
Definition zipAnswer (rq : ExportRequest.t) (zip : JSZip.t) (zipFileName : string)
  : Outcome ExportResponse :=
  match ExportRequest.generateAsync rq with
  | Some error => Raised error
  | None =>
      Returned (ZipAnswer zip 200 "application/zip"
                  ("attachment; filename=" +:+ String "034" (zipFileName +:+ String "034" "")))
  end.

(** The loop over the selected workspaces. *)
Fixpoint exportSelected (rq : ExportRequest.t) (workspaceIds : list string)
    (foundAnyConversationsForSelected : bool) (zip : JSZip.t) : M (bool * JSZip.t) :=
  match workspaceIds with
  | [] => ret (foundAnyConversationsForSelected, zip)
  | id :: rest =>
      let currentWorkspaceId := sanitizeFilename id in
      let* conversations :=
        fetchConversationsForWorkspace (ExportRequest.workspace rq id) in
      if (0 <? length conversations)%nat then
        if negb (ExportRequest.folderCreated rq currentWorkspaceId)
        then exportSelected rq rest true zip
        else exportSelected rq rest true
               (addConversations (ExportRequest.locale rq) currentWorkspaceId conversations
                  (JSZip.folder currentWorkspaceId zip))
      else exportSelected rq rest foundAnyConversationsForSelected zip
  end.

(** The loop over the entries of the workspace directory. *)
Fixpoint exportAll (rq : ExportRequest.t) (entries : list Dirent.t)
    (foundAnyConversations : bool) (zip : JSZip.t) : M (Outcome (bool * JSZip.t)) :=
  match entries with
  | [] => ret (Returned (foundAnyConversations, zip))
  | entry :: rest =>
      if Dirent.isDirectory entry then
        let workspaceIdForFolder := Dirent.name entry in
        let* conversations :=
          fetchConversationsForWorkspace (ExportRequest.workspace rq workspaceIdForFolder) in
        if (0 <? length conversations)%nat then
          let folderName := sanitizeFilename workspaceIdForFolder in
          if negb (ExportRequest.folderCreated rq folderName)
          then ret (Raised (ErrorObject
                              ("Could not create folder '" +:+ folderName +:+ "' in zip")))
          else exportAll rq rest true
                 (addConversations (ExportRequest.locale rq) folderName conversations
                    (JSZip.folder folderName zip))
        else exportAll rq rest foundAnyConversations zip
      else exportAll rq rest foundAnyConversations zip
  end.

(** The export route.  Inside its [try], what a call of the platform or the
    route itself throws is a [Raised] value, and what a fetch throws is an
    exception of [M]: the catch clause takes both. *)
Definition POST (rq : ExportRequest.t) : M ExportResponse :=
  let zip : JSZip.t := [] in
  let workspacePathBase := orElse (ExportRequest.WORKSPACE_PATH rq) "" in
  if negb (JsString.truthy workspacePathBase)
  then ret (JsonAnswer "WORKSPACE_PATH environment variable is not set." None 500)
  else
    let* outcome :=
      catchValue
        match ExportRequest.json rq with
        | Raised error => ret (Raised error)
        | Returned body =>
            let providedWorkspaceName := DownloadRequestBody.workspaceName body in
            let* timestamp := getTimestampString (ExportRequest.locale rq) in
            match DownloadRequestBody.workspaceIds body,
                  DownloadRequestBody.workspaceId body with
            | Some (id :: ids), _ =>
                let* selected := exportSelected rq (id :: ids) false zip in
                let foundAnyConversationsForSelected := fst selected in
                let zip := snd selected in
                if negb foundAnyConversationsForSelected
                then ret (Returned
                            (JsonAnswer "No conversations found for the selected workspaces."
                               None 404))
                else
                  let zipFileName := "cursor_chat_history_" +:+ timestamp +:+ ".zip" in
                  ret (zipAnswer rq zip zipFileName)
            | _, Some (String c r as workspaceId) =>
                let* conversations :=
                  fetchConversationsForWorkspace (ExportRequest.workspace rq workspaceId) in
                if (length conversations =? 0)%nat
                then ret (Returned
                            (JsonAnswer
                               ("No conversations found for workspace " +:+ workspaceId
                                  +:+ " - " +:+ orElse providedWorkspaceName "")
                               None 404))
                else
                  let folderNameInZip := sanitizeFilename workspaceId in
                  if negb (ExportRequest.folderCreated rq folderNameInZip)
                  then ret (Raised (ErrorObject
                                      ("Could not create folder '" +:+ folderNameInZip
                                         +:+ "' in zip")))
                  else
                    let zip :=
                      addConversations (ExportRequest.locale rq) folderNameInZip conversations
                        (JSZip.folder folderNameInZip zip) in
                    let zipFileName :=
                      "cursor_chat_history_" +:+ timestamp +:+ "_"
                        +:+ sanitizeFilename workspaceId +:+ ".zip" in
                    ret (zipAnswer rq zip zipFileName)
            | _, _ =>
                match ExportRequest.readdir rq with
                | Raised error => ret (Raised error)
                | Returned entries =>
                    let* walked := exportAll rq entries false zip in
                    match walked with
                    | Raised error => ret (Raised error)
                    | Returned (foundAnyConversations, zip) =>
                        if negb foundAnyConversations
                        then ret (Returned
                                    (JsonAnswer "No conversations found in any workspace."
                                       None 404))
                        else
                          let zipFileName :=
                            "cursor_chat_history_" +:+ timestamp +:+ ".zip" in
                          ret (zipAnswer rq zip zipFileName)
                    end
                end
            end
        end
        (λ error, ret (Raised error)) in
    match outcome with
    | Returned response => ret response
    | Raised error =>
        ret (JsonAnswer "Failed to generate zip file" (Some (errorMessage error)) 500)
    end.

(** *** Vocabulary of the export route *)

(** The section of a message that has content. *)
Definition messageSection (bubble : ChatBubble.t) : string :=
  "### " +:+ capitalized (roleText (ChatBubble.role bubble)) +:+ nl +:+ nl
    +:+ ChatBubble.content bubble +:+ nl +:+ nl +:+ "---" +:+ nl +:+ nl.

(** The head of the document of a conversation whose two dates have the
    time values [created] and [updated]. *)
Definition documentHead (locale : Locale.t) (conversation : ResponseConversation.t)
    (created updated : Z) : string :=
  "# " +:+ ResponseConversation.name conversation +:+ nl +:+ nl
    +:+ "_Created: " +:+ Locale.toLocaleString locale (Some created) +:+ "_" +:+ nl
    +:+ "_Last Updated: " +:+ Locale.toLocaleString locale (Some updated) +:+ "_"
    +:+ nl +:+ nl +:+ "---" +:+ nl +:+ nl
    +:+ match ResponseConversation.summary conversation with
        | Some summary =>
            if JsString.truthy summary
            then "**Summary:** " +:+ summary +:+ nl +:+ nl
            else ""
        | None => ""
        end.

(** The name of the file of a conversation in its folder. *)
Definition filenameOf (conv : ResponseConversation.t) : string :=
  sanitizeFilename (orString (ResponseConversation.name conv) (ResponseConversation.id conv))
    +:+ ".md".

(** The workspaces a request asks for: the selected ones, the single one, or
    the directories of the workspace directory. *)
Definition requestedIds (rq : ExportRequest.t) : list string :=
  match ExportRequest.json rq with
  | Returned body =>
      match DownloadRequestBody.workspaceIds body, DownloadRequestBody.workspaceId body with
      | Some (id :: ids), _ => id :: ids
      | _, Some (String c r) => [String c r]
      | _, _ =>
          match ExportRequest.readdir rq with
          | Returned entries =>
              Dirent.name <$> filter (λ e, Dirent.isDirectory e = true) entries
          | Raised _ => []
          end
      end
  | Raised _ => []
  end.

(** A path of the archive of the workspaces [ids]: the folder of one of
    them, or a Markdown file right inside such a folder. *)
Definition pathOf (ids : list string) (path : string) : Prop :=
  ∃ id, id ∈ ids
        ∧ (path = sanitizeFilename id +:+ "/"
           ∨ ∃ name, path = sanitizeFilename id +:+ "/" +:+ sanitizeFilename name +:+ ".md").

(** The answers of the export route by status. *)
Definition statusOf (r : ExportResponse) : Z :=
  match r with
  | JsonAnswer _ _ status => status
  | ZipAnswer _ status _ _ => status
  end.

(** What the export route can meet that makes it answer 500 from its catch
    clause: the body of the request or the workspace directory cannot be
    read, a folder of the archive cannot be made, the archive cannot be
    generated, a database of a requested workspace cannot be closed. *)
Definition failureOf (rq : ExportRequest.t) (error : Thrown) : Prop :=
  ExportRequest.json rq = Raised error
  ∨ ExportRequest.readdir rq = Raised error
  ∨ ExportRequest.generateAsync rq = Some error
  ∨ (∃ id, id ∈ requestedIds rq
           ∧ ExportRequest.folderCreated rq (sanitizeFilename id) = false
           ∧ error = ErrorObject ("Could not create folder '" +:+ sanitizeFilename id
                                     +:+ "' in zip"))
  ∨ ∃ id, id ∈ requestedIds rq ∧ closeError (ExportRequest.workspace rq id) error.

(** An archive of the workspaces [ids]: every path is one of theirs, and no
    path is there twice. *)
Definition archiveOf (ids : list string) (zip : JSZip.t) : Prop :=
  Forall (pathOf ids) zip.*1 ∧ NoDup zip.*1.

(** A path of the archive of the workspaces [ids] when an id may be empty:
    the folder of one of them that has a name, or a Markdown file under the
    root of one of them, which for the empty id is the root of the archive. *)
Definition placeOf (ids : list string) (path : string) : Prop :=
  ∃ id, id ∈ ids
        ∧ (id ≠ "" ∧ path = sanitizeFilename id +:+ "/"
           ∨ ∃ name, path = JSZip.root (sanitizeFilename id)
                              +:+ sanitizeFilename name +:+ ".md").

Definition archiveAt (ids : list string) (zip : JSZip.t) : Prop :=
  Forall (placeOf ids) zip.*1 ∧ NoDup zip.*1.

(** *** The client: the workspace list and its downloads *)

(** [tabsData.conversations?.length || 0] *)
Definition conversationsLength (tabsData : ResponseBody) : Z :=
  match tabsData with
  | Conversations conversations => Z.of_nat (length conversations)
  | ErrorBody _ => 0
  end.

(** The count of one workspace: the body of [data.map], with what the
    request for its tabs resolves to or [Throw] when it is rejected. *)
Definition countConversations (workspace : Workspace.t)
    (tabsRes : Exc (FetchResponse.t ResponseBody)) : WorkspaceWithCounts.t :=
  match tabsRes with
  | Ok tabsRes =>
      if negb (FetchResponse.ok tabsRes) then WorkspaceWithCounts.mk workspace 0
      else
        match FetchResponse.json tabsRes with
        | Returned tabsData =>
            WorkspaceWithCounts.mk workspace (conversationsLength tabsData)
        | Raised _ => WorkspaceWithCounts.mk workspace 0
        end
  | Throw _ => WorkspaceWithCounts.mk workspace 0
  end.

(** [fetchWorkspacesWithCounts], given what the request for the workspaces
    and the request for the tabs of each workspace id resolve to. *)
Definition fetchWorkspacesWithCounts
    (response : Outcome (FetchResponse.t (list Workspace.t)))
    (tabs : string → Exc (FetchResponse.t ResponseBody))
  : Outcome (list WorkspaceWithCounts.t) :=
  match response with
  | Raised error => Raised error
  | Returned response =>
      if negb (FetchResponse.ok response)
      then Raised (ErrorObject
                     ("Failed to fetch workspaces: " +:+ FetchResponse.statusText response))
      else
        match FetchResponse.json response with
        | Raised error => Raised error
        | Returned data =>
            let workspacesWithCounts :=
              map (λ workspace, countConversations workspace (tabs (Workspace.id workspace)))
                  data in
            Returned (filter (λ ws, (0 <? WorkspaceWithCounts.conversationCount ws) = true)
                        workspacesWithCounts)
        end
  end.


(** The answer of the tabs route as the client's [fetch] sees it. *)
Definition served (answer : Exc Response) : Exc (FetchResponse.t ResponseBody) :=
  match answer with
  | Ok (NextResponse_json body status) => Ok (FetchResponse.mk status "" (Returned body))
  | Throw e => Throw e
  end.

(** What the list shows of a workspace whose tabs request got [answer]. *)
Definition listed (workspace : Workspace.t) (answer : Exc Response)
  : option WorkspaceWithCounts.t :=
  match answer with
  | Ok (NextResponse_json (Conversations (conv :: conversations)) _) =>
      Some (WorkspaceWithCounts.mk workspace (Z.of_nat (length (conv :: conversations))))
  | _ => None
  end.

(** * Properties *)

(** ** The Date object: printing and parsing agree *)

Import JsDate.

Lemma digit_cases (d : Z) :
  0 <= d <= 9 →
  d = 0 ∨ d = 1 ∨ d = 2 ∨ d = 3 ∨ d = 4 ∨ d = 5 ∨ d = 6 ∨ d = 7 ∨ d = 8 ∨ d = 9.
Proof. lia. Qed.

Lemma digitVal_digitChar (d : Z) : 0 <= d <= 9 → digitVal (digitChar d) = Some d.
Proof.
  intros H. destruct (digit_cases d H) as [->|[->|[->|[->|[->|[->|[->|[->|[->| ->]]]]]]]]];
    reflexivity.
Qed.

Lemma append_cons (c : ascii) (s r : string) : String c s +:+ r = String c (s +:+ r).
Proof. reflexivity. Qed.

Lemma readDigits_padDigits (w : nat) (n acc : Z) (rest : string) :
  0 <= n →
  readDigits w acc (padDigits w n +:+ rest)
  = Some (acc * 10 ^ Z.of_nat w + n mod 10 ^ Z.of_nat w, rest).
Proof.
  intros Hn. revert acc. induction w as [|w IH]; intros acc.
  - cbn [readDigits padDigits String.append]. rewrite Z.mod_1_r. do 2 f_equal. simpl. lia.
  - cbn [readDigits padDigits]. rewrite append_cons.
    rewrite digitVal_digitChar
      by (pose proof (Z.mod_pos_bound (n / 10 ^ Z.of_nat w) 10); lia).
    rewrite IH. do 2 f_equal.
    rewrite Nat2Z.inj_succ, Z.pow_succ_r by lia.
    rewrite (Z.mul_comm 10 (10 ^ Z.of_nat w)).
    rewrite (Z.rem_mul_r n (10 ^ Z.of_nat w) 10) by lia.
    ring.
Qed.

Lemma readDigits_pad_small (w : nat) (n : Z) (rest : string) :
  0 <= n < 10 ^ Z.of_nat w →
  readDigits w 0 (padDigits w n +:+ rest) = Some (n, rest).
Proof.
  intros H. rewrite readDigits_padDigits by lia.
  rewrite Z.mod_small by lia. reflexivity.
Qed.

Lemma checkRange_spec (f : Z → bool) (len : positive) : ∀ lo i,
  checkRange f lo len = true → lo <= i < lo + Z.pos len → f i = true.
Proof.
  induction len as [p IH|p IH|]; intros lo i H Hi; cbn [checkRange] in H.
  - apply andb_prop in H as [H H3]. apply andb_prop in H as [H1 H2].
    destruct (Z.eq_dec i lo) as [->|]; [done|].
    destruct (Z_lt_ge_dec i (lo + 1 + Z.pos p)).
    + apply (IH (lo + 1)); [done|lia].
    + apply (IH (lo + 1 + Z.pos p)); [done|lia].
  - apply andb_prop in H as [H1 H2].
    destruct (Z_lt_ge_dec i (lo + Z.pos p)).
    + apply (IH lo); [done|lia].
    + apply (IH (lo + Z.pos p)); [done|lia].
  - assert (i = lo) as -> by lia. done.
Qed.

Lemma civilCheck_era : checkRange civilCheck 0 146097 = true.
Proof. vm_cast_no_check (eq_refl true). Qed.

Lemma civilCheck_ok (doe : Z) : 0 <= doe < 146097 → civilCheck doe = true.
Proof. intros H. apply (checkRange_spec _ _ _ _ civilCheck_era). lia. Qed.

Lemma isLeap_shift (y e : Z) : isLeap (y + e * 400) = isLeap y.
Proof.
  unfold isLeap.
  replace (y + e * 400) with (y + (e * 100) * 4) at 1 by ring.
  replace (y + e * 400) with (y + (e * 4) * 100) at 1 by ring.
  rewrite !Z.mod_add by lia. reflexivity.
Qed.

Lemma daysInMonth_shift (y e m : Z) : daysInMonth (y + e * 400) m = daysInMonth y m.
Proof. unfold daysInMonth. rewrite isLeap_shift. reflexivity. Qed.

Lemma daysFromCivil_shift (y e m d : Z) :
  daysFromCivil (y + e * 400) m d = daysFromCivil y m d + e * 146097.
Proof.
  unfold daysFromCivil.
  replace (if m <=? 2 then y + e * 400 - 1 else y + e * 400)
    with ((if m <=? 2 then y - 1 else y) + e * 400) by (destruct (m <=? 2); ring).
  set (y' := if m <=? 2 then y - 1 else y).
  rewrite Z.div_add by lia.
  replace (y' + e * 400 - (y' / 400 + e) * 400) with (y' - y' / 400 * 400) by ring.
  ring.
Qed.

Lemma civilFromDays_spec (day : Z) :
  let '(y, m, d) := civilFromDays day in
  1 <= m <= 12 ∧ 1 <= d <= daysInMonth y m ∧ daysFromCivil y m d = day
  ∧ (day + 719468) / 146097 * 400 <= y <= (day + 719468) / 146097 * 400 + 400.
Proof.
  unfold civilFromDays.
  set (z := day + 719468). set (era := z / 146097).
  assert (Hdoe : 0 <= z - era * 146097 < 146097).
  { subst era. pose proof (Z.div_mod z 146097). pose proof (Z.mod_pos_bound z 146097). lia. }
  pose proof (civilCheck_ok _ Hdoe) as C. unfold civilCheck in C.
  destruct (civilOfDayOfEra (z - era * 146097)) as [[y m] d].
  rewrite daysInMonth_shift, daysFromCivil_shift.
  repeat (apply andb_prop in C; destruct C as [C ?]).
  destruct (m <=? 2); lia.
Qed.

Lemma digitChar_not_sign (d : Z) (r : string) :
  0 <= d <= 9 → readYear (String (digitChar d) r) = readDigits 4 0 (String (digitChar d) r).
Proof.
  intros H. destruct (digit_cases d H) as [->|[->|[->|[->|[->|[->|[->|[->|[->| ->]]]]]]]]];
    reflexivity.
Qed.

Lemma readYear_yearString (y : Z) (rest : string) :
  -999999 <= y <= 999999 → readYear (yearString y +:+ rest) = Some (y, rest).
Proof.
  intros Hy. unfold yearString.
  destruct ((0 <=? y) && (y <=? 9999)) eqn:E.
  - apply andb_prop in E as [E1 E2].
    rewrite <- (readDigits_pad_small 4 y rest) by lia.
    cbn [padDigits]. rewrite append_cons. apply digitChar_not_sign.
    pose proof (Z.mod_pos_bound (y / 10 ^ Z.of_nat 3) 10). lia.
  - destruct (y <? 0) eqn:N.
    + change (("-" +:+ padDigits 6 (Z.abs y)) +:+ rest)
        with (String "-" (padDigits 6 (Z.abs y) +:+ rest)).
      cbn [readYear]. rewrite readDigits_pad_small by lia. cbn.
      destruct (Z.abs y =? 0) eqn:Z0; [lia|]. f_equal. f_equal. lia.
    + change (("+" +:+ padDigits 6 (Z.abs y)) +:+ rest)
        with (String "+" (padDigits 6 (Z.abs y) +:+ rest)).
      cbn [readYear]. rewrite readDigits_pad_small by lia. f_equal. f_equal. lia.
Qed.

Lemma expect_lit (c : ascii) (r : string) : expect c (String c EmptyString +:+ r) = Some r.
Proof.
  change (String c EmptyString +:+ r) with (String c r).
  unfold expect. rewrite Ascii.eqb_refl. reflexivity.
Qed.

Lemma read2 (n : Z) (rest : string) :
  0 <= n < 100 → readDigits 2 0 (padDigits 2 n +:+ rest) = Some (n, rest).
Proof. intros H. apply readDigits_pad_small. simpl. lia. Qed.

Lemma read3 (n : Z) (rest : string) :
  0 <= n < 1000 → readDigits 3 0 (padDigits 3 n +:+ rest) = Some (n, rest).
Proof. intros H. apply readDigits_pad_small. simpl. lia. Qed.

(** [Date.parse] gives back the time value [toISOString] printed. *)
Lemma parseISO_isoFormat (t : Z) : validTime t = true → parseISO (isoFormat t) = Some t.
Proof.
  intros V. unfold validTime, maxTime in V. apply andb_prop in V as [V1 V2].
  unfold isoFormat, YearFromTime, MonthFromTime, DateFromTime,
    HourFromTime, MinFromTime, SecFromTime, msFromTime, TimeWithinDay.
  pose proof (civilFromDays_spec (Day t)) as C.
  destruct (civilFromDays (Day t)) as [[y m] d]. cbn [fst snd].
  destruct C as (Hm & Hd & Hday & Hy).
  assert (Hdm : daysInMonth y m <= 31).
  { unfold daysInMonth. repeat case_match; lia. }
  assert (HD : -100000000 <= Day t <= 100000000).
  { unfold Day, msPerDay. split.
    - apply Z.div_le_lower_bound; lia.
    - apply Z.div_le_upper_bound; lia. }
  assert (Hera : -700 <= (Day t + 719468) / 146097 <= 700).
  { split.
    - apply Z.div_le_lower_bound; lia.
    - apply Z.div_le_upper_bound; lia. }
  pose proof (Z.mod_pos_bound t msPerDay eq_refl) as Htod.
  set (tod := t mod msPerDay) in *. unfold msPerDay in Htod.
  assert (Hh : 0 <= tod / 3600000 <= 23).
  { split; [apply Z.div_pos; lia |].
    assert (tod / 3600000 < 24) by (apply Z.div_lt_upper_bound; lia). lia. }
  pose proof (Z.mod_pos_bound (tod / 60000) 60 eq_refl) as Hmi.
  pose proof (Z.mod_pos_bound (tod / 1000) 60 eq_refl) as Hs.
  pose proof (Z.mod_pos_bound tod 1000 eq_refl) as Hms.
  unfold parseISO.
  rewrite readYear_yearString by lia. cbn [mbind option_bind].
  rewrite expect_lit. cbn [mbind option_bind].
  rewrite read2 by lia. cbn [mbind option_bind].
  rewrite expect_lit. cbn [mbind option_bind].
  rewrite read2 by lia. cbn [mbind option_bind].
  rewrite expect_lit. cbn [mbind option_bind].
  rewrite read2 by lia. cbn [mbind option_bind].
  rewrite expect_lit. cbn [mbind option_bind].
  rewrite read2 by lia. cbn [mbind option_bind].
  rewrite expect_lit. cbn [mbind option_bind].
  rewrite read2 by lia. cbn [mbind option_bind].
  rewrite expect_lit. cbn [mbind option_bind].
  rewrite read3 by lia. cbn [mbind option_bind].
  change (expect "Z" "Z") with (Some EmptyString). cbn [mbind option_bind].
  replace ((1 <=? m) && (m <=? 12) && (1 <=? d) && (d <=? daysInMonth y m)
           && (tod / 3600000 <=? 23) && ((tod / 60000) mod 60 <=? 59)
           && ((tod / 1000) mod 60 <=? 59)) with true
    by (symmetry; repeat (apply andb_true_intro; split); apply Z.leb_le; lia).
  f_equal. unfold MakeDate. rewrite Hday. unfold Day.
  pose proof (Z.div_mod t msPerDay) as Ht. fold tod in Ht. unfold msPerDay in *.
  pose proof (Z.div_mod tod 3600000). pose proof (Z.div_mod tod 60000).
  pose proof (Z.div_mod (tod / 60000) 60). pose proof (Z.div_mod tod 1000).
  pose proof (Z.div_mod (tod / 1000) 60).
  assert (tod / 60000 / 60 = tod / 3600000) by (rewrite Z.div_div by lia; reflexivity).
  assert (tod / 1000 / 60 = tod / 60000) by (rewrite Z.div_div by lia; reflexivity).
  lia.
Qed.

(** ** The timestamp normalizer *)

Lemma clipZ_Some (t u : Z) : JsDate.clipZ t = Some u → u = t ∧ JsDate.validTime t = true.
Proof. unfold JsDate.clipZ. destruct (JsDate.validTime t); [|done]. by intros [= ->]. Qed.

Lemma clipZ_valid (t : Z) : JsDate.validTime t = true → JsDate.clipZ t = Some t.
Proof. unfold JsDate.clipZ. by intros ->. Qed.

Lemma TimeClip_valid (x : float) (t : Z) :
  JsDate.TimeClip x = Some t → JsDate.validTime t = true.
Proof.
  unfold JsDate.TimeClip, JsDate.validTime, JsDate.maxTime.
  destruct (Prim2SF x) as [s|s| |s m e]; try done.
  - intros [= <-]. done.
  - destruct (0 <=? e) eqn:E.
    + destruct (_ <? _) eqn:O; [done|]. intros [= <-].
      apply Z.ltb_ge in O. destruct s; apply andb_true_intro; split; apply Z.leb_le; lia.
    + destruct (_ <? _) eqn:O; [done|]. intros [= <-].
      apply Z.ltb_ge in O. apply Z.leb_gt in E.
      assert (P : 0 < 2 ^ (- e)) by (apply Z.pow_pos_nonneg; lia).
      assert (0 <= Z.pos m / 2 ^ (- e) <= 8640000000000000).
      { split; [apply Z.div_pos; lia|]. apply Z.div_le_upper_bound; lia. }
      destruct s; apply andb_true_intro; split; apply Z.leb_le; lia.
Qed.

Lemma dateOfString_valid (s : string) (t : Z) :
  dateOfString s = Some t → JsDate.validTime t = true.
Proof.
  unfold dateOfString. destruct (JsDate.parseISO s) as [u|].
  - intros H. by apply clipZ_Some in H as [-> ?].
  - destruct (legacyDateParse s) as [u|]; [|done]. cbn.
    intros H. by apply clipZ_Some in H as [-> ?].
Qed.

Lemma timeValueOf_valid (ts : Timestamp) (t : Z) :
  timeValueOf ts = Some t → JsDate.validTime t = true.
Proof.
  destruct ts as [| |[tv|]|s|x]; cbn; try done.
  - intros H. by apply clipZ_Some in H as [-> ?].
  - apply dateOfString_valid.
  - apply TimeClip_valid.
Qed.

Lemma toISOString_valid (t : Z) (σ : Store.t) :
  JsDate.validTime t = true → toISOString (Some t) σ = (Ok (JsDate.isoFormat t), σ).
Proof. intros V. unfold toISOString. cbn. by rewrite clipZ_valid. Qed.

(** What the normalizer does on a value that denotes an instant: no clock
    reading, the ISO text of that instant. *)
Lemma safeParseTimestamp_denoted (ts : Timestamp) (t : Z) (σ : Store.t) :
  timeValueOf ts = Some t →
  safeParseTimestamp ts σ = (Ok (JsDate.isoFormat t), σ).
Proof.
  intros H. pose proof (timeValueOf_valid _ _ H) as V.
  unfold safeParseTimestamp, tryCatch.
  destruct ts as [| |tv|s|x]; cbn in H; try done.
  - destruct tv as [u|]; [|done]. cbn in H. apply clipZ_Some in H as [-> _].
    by rewrite toISOString_valid.
  - rewrite H. by rewrite toISOString_valid.
  - unfold dateOfNumber in *. rewrite H. by rewrite toISOString_valid.
Qed.

(** What it does on any other value when the clock reads a valid time: one
    clock reading, the ISO text of that reading. *)
Lemma safeParseTimestamp_fallback (ts : Timestamp) (σ : Store.t) :
  timeValueOf ts = None →
  JsDate.validTime (clock (Store.ticks σ)) = true →
  safeParseTimestamp ts σ
  = (Ok (JsDate.isoFormat (clock (Store.ticks σ))), Store.tick σ).
Proof.
  intros H V.
  assert (N : nowISO σ = (Ok (JsDate.isoFormat (clock (Store.ticks σ))), Store.tick σ)).
  { unfold nowISO, bind, newDate. rewrite clipZ_valid by done.
    by rewrite toISOString_valid. }
  unfold safeParseTimestamp, tryCatch.
  destruct ts as [| |tv|s|x]; cbn in H.
  - by rewrite N.
  - by rewrite N.
  - unfold toISOString. rewrite H. cbn. exact N.
  - rewrite H. by rewrite N.
  - unfold dateOfNumber in *. rewrite H. cbn. exact N.
Qed.


(** C2 (as the code has it).  The boundary of the magnitude test is strict:
    100,000,000,001 is the first whole number read as milliseconds, while
    100,000,000,000 itself and 99,999,999,999 are read as seconds and are
    multiplied by 1000.  The first lands in 1973, the other two in 5138. *)
Theorem timestamp_boundary (σ : Store.t) :
  safeParseTimestamp (TsNumber 100000000001) σ
    = (Ok (JsDate.isoFormat 100000000001), σ)
  ∧ safeParseTimestamp (TsNumber 100000000000) σ
    = (Ok (JsDate.isoFormat (100000000000 * 1000)), σ)
  ∧ safeParseTimestamp (TsNumber 99999999999) σ
    = (Ok (JsDate.isoFormat (99999999999 * 1000)), σ)
  ∧ JsDate.YearFromTime 100000000001 = 1973
  ∧ JsDate.YearFromTime (100000000000 * 1000) = 5138
  ∧ JsDate.YearFromTime (99999999999 * 1000) = 5138.
Proof.
  split; [|split; [|split]].
  - by apply safeParseTimestamp_denoted.
  - by apply safeParseTimestamp_denoted.
  - by apply safeParseTimestamp_denoted.
  - by vm_compute.
Qed.

(** ** Reasoning in the monad *)

Section Hoare.
Context {A B : Type}.
Implicit Types (P E : Store.t → Prop).

Lemma hoare_ret (a : A) P (Q : A → Store.t → Prop) E :
  (∀ σ, P σ → Q a σ) → hoare P (ret a) Q E.
Proof. intros H σ Hσ. by apply H. Qed.

Lemma hoare_throw (e : Thrown) P (Q : A → Store.t → Prop) E :
  (∀ σ, P σ → E σ) → hoare P (throw (A:=A) e) Q E.
Proof. intros H σ Hσ. by apply H. Qed.

Lemma hoare_gets (f : Store.t → A) P (Q : A → Store.t → Prop) E :
  (∀ σ, P σ → Q (f σ) σ) → hoare P (gets f) Q E.
Proof. intros H σ Hσ. by apply H. Qed.

Lemma hoare_await (r : Exc A) P (Q : A → Store.t → Prop) E :
  (∀ a σ, P σ → r = Ok a → Q a σ) → (∀ e σ, P σ → r = Throw e → E σ) →
  hoare P (await r) Q E.
Proof. intros H1 H2 σ Hσ. unfold await. destruct r; eauto. Qed.

Lemma hoare_JSON_parse (j : Json A) P (Q : A → Store.t → Prop) E :
  (∀ a σ, P σ → j = JsonValue a → Q a σ) → (∀ σ, P σ → E σ) →
  hoare P (JSON_parse j) Q E.
Proof. intros H1 H2 σ Hσ. destruct j; cbn; auto. Qed.

Lemma hoare_bind (m : M A) (k : A → M B) P
    (Q1 : A → Store.t → Prop) (Q2 : B → Store.t → Prop) E :
  hoare P m Q1 E → (∀ a, hoare (Q1 a) (k a) Q2 E) → hoare P (bind m k) Q2 E.
Proof.
  intros Hm Hk σ H. unfold bind. specialize (Hm σ H).
  destruct (m σ) as [[a|] σ']; [|done]. by apply Hk.
Qed.

Lemma hoare_conseq (m : M A) P P'
    (Q Q' : A → Store.t → Prop) E E' :
  hoare P' m Q' E' → (∀ σ, P σ → P' σ) → (∀ a σ, Q' a σ → Q a σ) → (∀ σ, E' σ → E σ) →
  hoare P m Q E.
Proof.
  intros Hm HP HQ HE σ H. specialize (Hm σ (HP σ H)).
  destruct (m σ) as [[a|] σ']; auto.
Qed.

Lemma hoare_tryCatch (body handler : M A) P
    (Q : A → Store.t → Prop) E1 E :
  hoare P body Q E1 → hoare E1 handler Q E → hoare P (tryCatch body handler) Q E.
Proof.
  intros Hb Hh σ H. unfold tryCatch. specialize (Hb σ H).
  destruct (body σ) as [[a|] σ']; [done|]. by apply Hh.
Qed.

Lemma hoare_catchValue (body : M A) (handler : Thrown → M A) P
    (Q : A → Store.t → Prop) E1 E :
  hoare P body Q E1 → (∀ e, hoare E1 (handler e) Q E) →
  hoare P (catchValue body handler) Q E.
Proof.
  intros Hb Hh σ H. unfold catchValue. specialize (Hb σ H).
  destruct (body σ) as [[a|e] σ']; [done|]. by apply Hh.
Qed.

Lemma hoare_tryFinally (body : M A) (cleanup : M unit) P
    (Q' Q : A → Store.t → Prop) E' E :
  hoare P body Q' E' →
  (∀ a, hoare (Q' a) cleanup (λ _, Q a) E) →
  hoare E' cleanup (λ _, E) E →
  hoare P (tryFinally body cleanup) Q E.
Proof.
  intros Hb Hc He σ H. unfold tryFinally. specialize (Hb σ H).
  destruct (body σ) as [[a|e] σ'].
  - specialize (Hc a σ' Hb). by destruct (cleanup σ') as [[u|e'] σ''].
  - specialize (He σ' Hb). by destruct (cleanup σ') as [[u|e'] σ''].
Qed.
End Hoare.

Lemma hoare_modify (f : Store.t → Store.t) (P : Store.t → Prop)
    (Q : unit → Store.t → Prop) (E : Store.t → Prop) :
  (∀ σ, P σ → Q tt (f σ)) → hoare P (modify f) Q E.
Proof. intros H σ Hσ. by apply H. Qed.

Lemma hoare_forEach {A} (l : list A) (f : A → M unit) (I E : Store.t → Prop) :
  (∀ x, x ∈ l → hoare I (f x) (λ _, I) E) → hoare I (forEach l f) (λ _, I) E.
Proof.
  induction l as [|x l IH]; intros Hf.
  - by apply hoare_ret.
  - cbn [forEach]. eapply hoare_bind.
    + apply Hf. left.
    + intros u. apply IH. intros y Hy. apply Hf. by right.
Qed.

Lemma hoare_mapM {A B} (l : list A) (f : A → M B) (I E : Store.t → Prop) :
  (∀ x, x ∈ l → hoare I (f x) (λ _, I) E) → hoare I (mapM f l) (λ _, I) E.
Proof.
  induction l as [|x l IH]; intros Hf.
  - by apply hoare_ret.
  - cbn [mapM]. eapply hoare_bind; [apply Hf; left|].
    intros b. eapply hoare_bind.
    + apply IH. intros y Hy. apply Hf. by right.
    + intros bs. by apply hoare_ret.
Qed.

(** A triple read at one run. *)
Lemma hoare_run {A} (m : M A) (P : Store.t → Prop) (Q : A → Store.t → Prop)
    (E : Store.t → Prop) (σ σ' : Store.t) (a : A) :
  hoare P m Q E → P σ → m σ = (Ok a, σ') → Q a σ'.
Proof. intros H Hσ Hm. specialize (H σ Hσ). by rewrite Hm in H. Qed.

Section Keeps.
Context {A B : Type}.
Implicit Types (I : Store.t → Prop).

Lemma keeps_ret (a : A) I (Qv : A → Prop) : Qv a → keeps I (ret a) Qv.
Proof. intros H. by apply hoare_ret. Qed.

Lemma keeps_throw (e : Thrown) I (Qv : A → Prop) : keeps I (throw (A:=A) e) Qv.
Proof. by apply hoare_throw. Qed.

Lemma keeps_gets (f : Store.t → A) I (Qv : A → Prop) :
  (∀ σ, I σ → Qv (f σ)) → keeps I (gets f) Qv.
Proof. intros H. apply hoare_gets. auto. Qed.

Lemma keeps_await (r : Exc A) I (Qv : A → Prop) :
  (∀ a, r = Ok a → Qv a) → keeps I (await r) Qv.
Proof. intros H. apply hoare_await; auto. Qed.

Lemma keeps_JSON_parse (j : Json A) I (Qv : A → Prop) :
  (∀ a, j = JsonValue a → Qv a) → keeps I (JSON_parse j) Qv.
Proof. intros H. apply hoare_JSON_parse; auto. Qed.

Lemma keeps_bind (m : M A) (k : A → M B) I (Q1 : A → Prop) (Q2 : B → Prop) :
  keeps I m Q1 → (∀ a, Q1 a → keeps I (k a) Q2) → keeps I (bind m k) Q2.
Proof.
  intros Hm Hk. eapply hoare_bind; [exact Hm|].
  intros a σ [Hσ Ha]. by apply Hk.
Qed.

Lemma keeps_weaken (m : M A) I (Q Q' : A → Prop) :
  keeps I m Q → (∀ a, Q a → Q' a) → keeps I m Q'.
Proof.
  intros Hm HQ. eapply hoare_conseq; [exact Hm| | |]; auto.
  intros a σ [? ?]. auto.
Qed.

Lemma keeps_tryCatch (body handler : M A) I (Qv : A → Prop) :
  keeps I body Qv → keeps I handler Qv → keeps I (tryCatch body handler) Qv.
Proof. intros Hb Hh. by eapply hoare_tryCatch. Qed.
End Keeps.

Lemma keeps_modify (f : Store.t → Store.t) (I : Store.t → Prop) (Qv : unit → Prop) :
  (∀ σ, I σ → I (f σ)) → Qv tt → keeps I (modify f) Qv.
Proof. intros H1 H2. apply hoare_modify. auto. Qed.

Lemma keeps_forEach {A} (l : list A) (f : A → M unit) (I : Store.t → Prop) :
  (∀ x, x ∈ l → keeps I (f x) (λ _, True)) → keeps I (forEach l f) (λ _, True).
Proof.
  induction l as [|x l IH]; intros Hf.
  - by apply keeps_ret.
  - cbn [forEach]. eapply keeps_bind; [apply Hf; left|].
    intros u _. apply IH. intros y Hy. apply Hf. by right.
Qed.

Lemma keeps_mapM {A B} (l : list A) (f : A → M B) (I : Store.t → Prop) :
  (∀ x, x ∈ l → keeps I (f x) (λ _, True)) → keeps I (mapM f l) (λ _, True).
Proof.
  induction l as [|x l IH]; intros Hf.
  - by apply keeps_ret.
  - cbn [mapM]. eapply keeps_bind; [apply Hf; left|].
    intros b _. eapply keeps_bind.
    + apply IH. intros y Hy. apply Hf. by right.
    + intros bs _. by apply keeps_ret.
Qed.

(** The normalizer touches nothing but the clock. *)
Lemma isInstant_isoFormat (t : Z) :
  JsDate.validTime t = true → JsDate.isInstant (JsDate.isoFormat t) = true.
Proof. intros V. unfold JsDate.isInstant. by rewrite parseISO_isoFormat. Qed.

Lemma keeps_toISOString (tv : option Z) (I : Store.t → Prop) :
  keeps I (toISOString tv) (λ s, ∃ t, JsDate.validTime t = true ∧ s = JsDate.isoFormat t).
Proof.
  unfold toISOString. destruct (tv ≫= clipZ) as [t|] eqn:E.
  - apply keeps_ret. destruct tv as [u|]; [|done]. cbn in E.
    apply clipZ_Some in E as [-> V]. eauto.
  - apply keeps_throw.
Qed.

Lemma keeps_newDate (I : Store.t → Prop) :
  tickInvariant I → keeps I newDate (λ _, True).
Proof. intros T σ H. cbn. split; [by apply T|done]. Qed.

Lemma keeps_nowISO (I : Store.t → Prop) :
  tickInvariant I →
  keeps I nowISO (λ s, ∃ t, JsDate.validTime t = true ∧ s = JsDate.isoFormat t).
Proof.
  intros T. unfold nowISO. eapply keeps_bind; [by apply keeps_newDate|].
  intros now _. apply keeps_toISOString.
Qed.

(** Whatever the normalizer returns is the ISO text of a valid time value. *)
Lemma keeps_safeParseTimestamp_iso (ts : Timestamp) (I : Store.t → Prop) :
  tickInvariant I →
  keeps I (safeParseTimestamp ts)
    (λ s, ∃ t, JsDate.validTime t = true ∧ s = JsDate.isoFormat t).
Proof.
  intros T. unfold safeParseTimestamp. apply keeps_tryCatch; [|by apply keeps_nowISO].
  destruct ts as [| |tv|s|x].
  - by apply keeps_nowISO.
  - by apply keeps_nowISO.
  - apply keeps_toISOString.
  - destruct (dateOfString s); [apply keeps_toISOString|by apply keeps_nowISO].
  - apply keeps_toISOString.
Qed.

Lemma keeps_safeParseTimestamp (ts : Timestamp) (I : Store.t → Prop) :
  tickInvariant I →
  keeps I (safeParseTimestamp ts) (λ s, JsDate.isInstant s = true).
Proof.
  intros T. eapply keeps_weaken; [by apply keeps_safeParseTimestamp_iso|].
  intros s (t & V & ->). by apply isInstant_isoFormat.
Qed.

(** With a valid clock it does not throw. *)
Lemma safeParseTimestamp_total (ts : Timestamp) (σ : Store.t) :
  clockValid →
  ∃ s σ', safeParseTimestamp ts σ = (Ok s, σ') ∧ JsDate.isInstant s = true.
Proof.
  intros V. destruct (timeValueOf ts) as [t|] eqn:E.
  - exists (isoFormat t), σ. split; [by apply safeParseTimestamp_denoted|].
    apply isInstant_isoFormat. by eapply timeValueOf_valid.
  - exists (isoFormat (clock (Store.ticks σ))), (Store.tick σ).
    split; [by apply safeParseTimestamp_fallback|]. by apply isInstant_isoFormat.
Qed.

Lemma keeps_gets_sp {A} (f : Store.t → A) (I : Store.t → Prop) :
  keeps I (gets f) (λ a, ∃ σ, I σ ∧ a = f σ).
Proof. apply keeps_gets. eauto. Qed.

Lemma keeps_await_sp {A} (r : Exc A) (I : Store.t → Prop) :
  keeps I (await r) (λ a, r = Ok a).
Proof. by apply keeps_await. Qed.

Lemma keeps_JSON_parse_sp {A} (j : Json A) (I : Store.t → Prop) :
  keeps I (JSON_parse j) (λ a, j = JsonValue a).
Proof. by apply keeps_JSON_parse. Qed.

Lemma keeps_modify_sp (f : Store.t → Store.t) (I : Store.t → Prop) :
  (∀ σ, I σ → I (f σ)) → keeps I (modify f) (λ _, True).
Proof. intros H. by apply keeps_modify. Qed.

Lemma keeps_true {A} (m : M A) (I : Store.t → Prop) (Q : A → Prop) :
  keeps I m Q → keeps I m (λ _, True).
Proof. intros H. by eapply keeps_weaken. Qed.

(** One step of a proof that a computation keeps an invariant. *)
Ltac keeps_step :=
  lazymatch goal with
  | |- keeps _ (bind (safeParseTimestamp _) _) _ =>
      eapply keeps_bind; [apply keeps_safeParseTimestamp|intros ? ?]
  | |- keeps _ (bind (gets _) _) _ =>
      eapply keeps_bind; [apply keeps_gets_sp|intros ? (? & ? & ?)]
  | |- keeps _ (bind (modify _) _) _ =>
      eapply keeps_bind; [apply keeps_modify_sp|intros ? _]
  | |- keeps _ (bind (await _) _) _ =>
      eapply keeps_bind; [apply keeps_await_sp|intros ? ?]
  | |- keeps _ (bind (JSON_parse _) _) _ =>
      eapply keeps_bind; [apply keeps_JSON_parse_sp|intros ? ?]
  | |- keeps _ (bind _ _) _ =>
      eapply (keeps_bind _ _ _ (λ _, True)); [|intros ? _]
  | |- keeps _ (ret _) _ => apply keeps_ret
  | |- keeps _ (throw _) _ => apply keeps_throw
  | |- keeps _ (modify _) _ => apply keeps_modify
  | |- keeps _ (JSON_parse _) _ => apply keeps_JSON_parse; intros ? ?
  | |- keeps _ (await _) _ => apply keeps_await; intros ? ?
  | |- keeps _ (gets _) _ => apply keeps_gets; intros ? ?
  | |- keeps _ (safeParseTimestamp _) (λ _, True) =>
      eapply keeps_true; apply keeps_safeParseTimestamp
  | |- keeps _ (tryCatch _ _) _ => apply keeps_tryCatch
  | |- keeps _ (forEach _ _) _ => apply keeps_forEach; intros ? ?
  | |- keeps _ (mapM _ _) _ => apply keeps_mapM; intros ? ?
  | |- keeps _ (match ?x with _ => _ end) _ => destruct x
  | |- keeps _ (if ?x then _ else _) _ => destruct x
  end.

(** *** The passes keep the timestamps well-formed *)

Lemma OrderedMap_set_Forall {V} (P : string * V → Prop) (k : string) (v : V)
    (m : list (string * V)) :
  Forall P m → P (k, v) → Forall P (OrderedMap.set k v m).
Proof.
  intros Hm Hv. induction Hm as [|[k' v'] m Hx Hm IH]; cbn.
  - by constructor.
  - destruct (String.eqb k' k); by constructor.
Qed.

Lemma OrderedMap_get_Forall {V} (P : string * V → Prop) (k : string) (v : V)
    (m : list (string * V)) :
  Forall P m → OrderedMap.get k m = Some v → P (k, v).
Proof.
  intros Hm. induction Hm as [|[k' v'] m Hx Hm IH]; cbn; [done|].
  destruct (String.eqb k' k) eqn:E; [|done].
  apply String.eqb_eq in E as ->. by intros [= ->].
Qed.

Section WellTimedPasses.
Let I := allWellTimed wellTimed.

Lemma wellTimed_tick : tickInvariant I.
Proof. by intros σ H. Qed.

Lemma wellTimed_set (k : string) (c : TempConversation.t) (σ : Store.t) :
  wellTimed c → I σ → I (Store.setConversation k c σ).
Proof. intros Hc H. by apply OrderedMap_set_Forall. Qed.

Lemma wellTimed_get (k : string) (c : TempConversation.t) (σ : Store.t) :
  I σ → OrderedMap.get k (Store.allConversationsMap σ) = Some c → wellTimed c.
Proof.
  intros H G. by apply (OrderedMap_get_Forall (λ kv, wellTimed (snd kv)) k c _ H).
Qed.

Lemma processTab_wellTimed (tab : RawTab.t) : keeps I (processTab tab) (λ _, True).
Proof.
  unfold processTab. repeat keeps_step; try done; try apply wellTimed_tick.
  intros σ Hσ. by apply wellTimed_set.
Qed.

Lemma processChat_wellTimed (chatResult : option (Json ChatData.t)) :
  keeps I (processChat chatResult) (λ _, True).
Proof.
  unfold processChat. repeat keeps_step; try done; apply processTab_wellTimed.
Qed.

Lemma processComposer_wellTimed (composer : ComposerInstance.t) :
  keeps I (processComposer composer) (λ _, True).
Proof.
  unfold processComposer. repeat keeps_step; try done; try apply wellTimed_tick;
    intros σ Hσ; by apply wellTimed_set.
Qed.

Lemma processGlobalBubble_wellTimed (allComposers : list ComposerMeta.t)
    (rawBubble : string * Json BubbleData.t) :
  keeps I (processGlobalBubble allComposers rawBubble) (λ _, True).
Proof.
  unfold processGlobalBubble. repeat keeps_step; try done; try apply wellTimed_tick.
  all: intros σ Hσ; apply wellTimed_set; [|done].
  all: split; cbn; try done.
  match goal with
  | G : I ?x, L : Some ?c = OrderedMap.get _ _ |- _ =>
      symmetry in L; apply (wellTimed_get _ _ _ G L)
  end.
Qed.
End WellTimedPasses.

(** *** The finally clause of the routes *)

Lemma bind_modify {A} (f : Store.t → Store.t) (k : unit → M A) (σ : Store.t) :
  bind (modify f) k σ = k tt (f σ).
Proof. reflexivity. Qed.

(** What the finally clause throws is what a [close] throws. *)
Lemma closeHandles_throws (w : World.t) (σ σ' : Store.t) (e : Thrown) :
  closeHandles w σ = (Throw e, σ') → closeError w e.
Proof.
  unfold closeHandles, bind, gets, await, modify, closeError, ret.
  destruct (Store.db σ); [destruct (World.dbClose w) as [[]|e1]|]; cbn.
  2: { intros [= <- _]. by left. }
  all: destruct (Store.globalDb σ); [destruct (World.globalDbClose w) as [[]|e2]|]; cbn.
  all: intros H; inversion H; subst; auto.
Qed.

(** It throws only when a [close] does. *)
Lemma closeHandles_hoare (w : World.t) :
  hoare (λ _, True) (closeHandles w) (λ _ _, True) (λ _, ¬ closes w).
Proof.
  intros σ _. destruct (closeHandles w σ) as [[u|e] σ'] eqn:E; [done|].
  apply closeHandles_throws in E as [E|E]; intros [H1 H2]; congruence.
Qed.

(** A workspace database that is open and cannot be closed: the second
    [close] is not reached. *)
Lemma closeHandles_db_throws (w : World.t) (σ : Store.t) (e : Thrown) :
  Store.db σ = true → World.dbClose w = Throw e → closeHandles w σ = (Throw e, σ).
Proof. intros H1 H2. unfold closeHandles, bind, gets, await. by rewrite H1, H2. Qed.

(** It closes nothing when no database has been opened. *)
Lemma closeHandles_null (w : World.t) (σ : Store.t) :
  Store.db σ = false → Store.globalDb σ = false → closeHandles w σ = (Ok tt, σ).
Proof.
  intros H1 H2. unfold closeHandles, bind, gets. rewrite H1. cbn. by rewrite H2.
Qed.

(** The routes: a body that does not throw, then the finally clause. *)
Lemma hoare_finally_close {A} (w : World.t) (body : M A) (P : Store.t → Prop)
    (Q : A → Prop) :
  hoare P body (λ a _, Q a) (λ _, False) →
  hoare P (tryFinally body (closeHandles w)) (λ a _, Q a) (λ _, ¬ closes w).
Proof.
  intros Hb. eapply hoare_tryFinally; [exact Hb| |by intros σ []].
  intros a σ Ha. pose proof (closeHandles_hoare w σ I) as H.
  by destruct (closeHandles w σ) as [[u|e] σ'].
Qed.

Lemma hoare_finally_closes {A} (w : World.t) (body : M A) (P : Store.t → Prop)
    (Q : A → Prop) :
  closes w →
  hoare P body (λ a _, Q a) (λ _, False) →
  hoare P (tryFinally body (closeHandles w)) (λ a _, Q a) (λ _, False).
Proof.
  intros Hc Hb. eapply hoare_conseq; [by apply hoare_finally_close| | |]; auto.
Qed.

Lemma hoare_finally_null {A} (w : World.t) (body : M A) (P : Store.t → Prop)
    (Q : A → Prop) :
  hoare P body (λ a σ, Q a ∧ Store.db σ = false ∧ Store.globalDb σ = false) (λ _, False) →
  hoare P (tryFinally body (closeHandles w)) (λ a _, Q a) (λ _, False).
Proof.
  intros Hb. eapply hoare_tryFinally; [exact Hb| |by intros σ []].
  intros a σ (Ha & H1 & H2). by rewrite closeHandles_null.
Qed.

(** What a route throws is what a [close] of its finally clause throws. *)
Lemma tryFinally_throws {A} (body : M A) (a0 : A) (w : World.t) (σ σ' : Store.t)
    (e : Thrown) :
  tryFinally (tryCatch body (ret a0)) (closeHandles w) σ = (Throw e, σ') → closeError w e.
Proof.
  unfold tryFinally, tryCatch, ret.
  destruct (body σ) as [[a|e0] σ0];
    destruct (closeHandles w σ0) as [[u|e1] σ1] eqn:E; intros H; inversion H; subst;
    by eapply closeHandles_throws.
Qed.

Lemma fetch_throws (w : World.t) (σ σ' : Store.t) (e : Thrown) :
  fetchConversationsForWorkspace w σ = (Throw e, σ') → closeError w e.
Proof. unfold fetchConversationsForWorkspace, bind, modify. apply tryFinally_throws. Qed.

Lemma GET_throws (w : World.t) (σ σ' : Store.t) (e : Thrown) :
  GET w σ = (Throw e, σ') → closeError w e.
Proof. unfold GET, bind, modify. apply tryFinally_throws. Qed.

(** *** The shape of what a route returns *)

Section RouteInvariant.
Variable I : Store.t → Prop.
Hypothesis I_new : ∀ σ, I (Store.newCollections σ).
Hypothesis I_globalDb : ∀ b σ, I σ → I (Store.setGlobalDb b σ).
Hypothesis I_addId : ∀ k σ, I σ → I (Store.addComposerId k σ).
Hypothesis I_chat : ∀ r, keeps I (processChat r) (λ _, True).
Hypothesis I_composer : ∀ c, keeps I (processComposer c) (λ _, True).
Hypothesis I_bubble : ∀ l r, keeps I (processGlobalBubble l r) (λ _, True).

Lemma processComposerData_keeps (w : World.t) (value : Json ComposerMetadata.t) :
  keeps I (processComposerData w value) (λ _, True).
Proof.
  unfold processComposerData. repeat keeps_step; auto.
Qed.

Lemma openGlobalDb_keeps (w : World.t) : keeps I (openGlobalDb w) (λ _, True).
Proof. unfold openGlobalDb. repeat keeps_step; auto. Qed.

Lemma keeps_hoare {A} (m : M A) (Q : A → Store.t → Prop) (E : Store.t → Prop) :
  keeps I m (λ _, True) → (∀ a σ, I σ → Q a σ) → (∀ σ, I σ → E σ) → hoare I m Q E.
Proof.
  intros Hm HQ HE. eapply hoare_conseq; [exact Hm| | |]; auto.
  intros a σ [H _]. auto.
Qed.

(** The export route throws only when a [close] does; it returns the empty
    list or the consolidation of a store that satisfies the invariant. *)
Lemma fetchConversationsForWorkspace_returns (w : World.t) :
  hoare (λ _, True) (fetchConversationsForWorkspace w)
    (λ l _, l = [] ∨ ∃ σ, I σ ∧ l = finalConversationsListExport σ)
    (λ _, ¬ closes w).
Proof.
  unfold fetchConversationsForWorkspace.
  eapply hoare_bind; [apply (hoare_modify _ _ (λ _ _, True)); done|]. intros ?.
  apply (hoare_finally_close w _ _
           (λ l, l = [] ∨ ∃ σ, I σ ∧ l = finalConversationsListExport σ)).
  eapply (hoare_tryCatch _ _ _ _ (λ _, True)).
  2: { apply hoare_ret. intros; by left. }
  destruct (negb (World.dbExists w)).
  { apply hoare_ret. intros; by left. }
  eapply (hoare_bind _ _ _ (λ _ _, True)); [by apply hoare_await|]. intros ?.
  eapply (hoare_bind _ _ _ (λ _ _, True)); [by apply hoare_modify|]. intros ?.
  eapply (hoare_bind _ _ _ (λ _ _, True)); [by apply hoare_await|]. intros chatResult.
  eapply (hoare_bind _ _ _ (λ _ _, True)); [by apply hoare_await|].
  intros composerMetadataResult.
  eapply (hoare_bind _ _ _ (λ _, I)); [apply hoare_modify; auto|]. intros ?.
  eapply (hoare_bind _ _ _ (λ _, I)); [apply keeps_hoare; auto|]. intros ?.
  eapply (hoare_bind _ _ _ (λ _, I)).
  - apply keeps_hoare; auto.
    destruct composerMetadataResult as [[| |meta]|]; try by apply keeps_ret.
    + eapply (keeps_bind _ _ _ (λ _, True)).
      * destruct (World.globalDbExists w); [apply openGlobalDb_keeps|by apply keeps_ret].
      * intros _ _. apply processComposerData_keeps.
    + eapply (keeps_bind _ _ _ (λ _, True)).
      * destruct (World.globalDbExists w); [apply openGlobalDb_keeps|by apply keeps_ret].
      * intros _ _. apply processComposerData_keeps.
  - intros ?. apply hoare_gets. intros σ H. right. eauto.
Qed.

(** The tabs route throws only when a [close] does; it answers 500, 404, or
    200 with the consolidation of a store that satisfies the invariant. *)
Lemma GET_returns (w : World.t) :
  hoare (λ _, True) (GET w)
    (λ r _, r = NextResponse_json (ErrorBody "Failed to get workspace data") 500
            ∨ r = NextResponse_json
                    (ErrorBody "No chat data found in workspace or global storage") 404
            ∨ ∃ σ, I σ ∧ r = NextResponse_json
                    (Conversations (map toResponse (finalConversationsListTabs σ))) 200)
    (λ _, ¬ closes w).
Proof.
  unfold GET.
  eapply hoare_bind; [apply (hoare_modify _ _ (λ _ _, True)); done|]. intros ?.
  apply (hoare_finally_close w _ _
           (λ r, r = NextResponse_json (ErrorBody "Failed to get workspace data") 500
            ∨ r = NextResponse_json
                    (ErrorBody "No chat data found in workspace or global storage") 404
            ∨ ∃ σ, I σ ∧ r = NextResponse_json
                    (Conversations (map toResponse (finalConversationsListTabs σ))) 200)).
  eapply (hoare_tryCatch _ _ _ _ (λ _, True)).
  2: { apply hoare_ret. intros; by left. }
  eapply (hoare_bind _ _ _ (λ _ _, True)); [by apply hoare_await|]. intros ?.
  eapply (hoare_bind _ _ _ (λ _ _, True)); [by apply hoare_modify|]. intros ?.
  eapply (hoare_bind _ _ _ (λ _ _, True)); [by apply hoare_await|]. intros chatResult.
  eapply (hoare_bind _ _ _ (λ _ _, True)); [by apply hoare_await|].
  intros composerMetadataResult.
  eapply (hoare_bind _ _ _ (λ _, I)); [apply hoare_modify; auto|]. intros ?.
  eapply (hoare_bind _ _ _ (λ _, I)); [apply keeps_hoare; auto|]. intros ?.
  eapply (hoare_bind _ _ _ (λ _, I)).
  - apply keeps_hoare; auto.
    destruct composerMetadataResult as [[| |meta]|]; try by apply keeps_ret.
    + eapply (keeps_bind _ _ _ (λ _, True)); [apply openGlobalDb_keeps|].
      intros _ _. apply processComposerData_keeps.
    + eapply (keeps_bind _ _ _ (λ _, True)); [apply openGlobalDb_keeps|].
      intros _ _. apply processComposerData_keeps.
  - intros ?.
    eapply (hoare_bind _ _ _ (λ l σ, I σ ∧ l = finalConversationsListTabs σ)).
    + apply hoare_gets. auto.
    + intros l. destruct (_ && _).
      * apply hoare_ret. intros; right; by left.
      * apply hoare_ret. intros σ [H ->]. right; right. eauto.
Qed.
End RouteInvariant.

(** ** Arrays: the stable sort *)

Lemma insertSorted_perm {A} (cmp : A → A → Z) (x : A) (l : list A) :
  JsArray.insertSorted cmp x l ≡ₚ x :: l.
Proof.
  induction l as [|y l IH]; cbn; [done|].
  destruct (0 <? cmp x y); [|done].
  rewrite IH. apply Permutation_swap.
Qed.

Lemma sort_perm {A} (cmp : A → A → Z) (l : list A) : JsArray.sort cmp l ≡ₚ l.
Proof.
  induction l as [|x l IH]; cbn; [done|].
  rewrite insertSorted_perm. by constructor.
Qed.

Lemma insertSorted_map {A B} (f : A → B) (cmpA : A → A → Z) (cmpB : B → B → Z)
    (x : A) (l : list A) :
  (∀ a b, cmpB (f a) (f b) = cmpA a b) →
  map f (JsArray.insertSorted cmpA x l) = JsArray.insertSorted cmpB (f x) (map f l).
Proof.
  intros H. induction l as [|y l IH]; cbn; [done|].
  rewrite H. destruct (0 <? cmpA x y); cbn; [by rewrite IH|done].
Qed.

Lemma sort_map {A B} (f : A → B) (cmpA : A → A → Z) (cmpB : B → B → Z) (l : list A) :
  (∀ a b, cmpB (f a) (f b) = cmpA a b) →
  map f (JsArray.sort cmpA l) = JsArray.sort cmpB (map f l).
Proof.
  intros H. induction l as [|x l IH]; cbn; [done|].
  unfold JsArray.sort in IH. by rewrite (insertSorted_map f cmpA cmpB), IH.
Qed.

(** ** Consolidation *)

Lemma consolidateExport_Tabs (σ : Store.t) (c : TempConversation.t) :
  consolidateExport σ c = toResponse <$> consolidateTabs σ c.
Proof.
  unfold consolidateExport, consolidateTabs.
  cbn [TempConversation.bubbles TempConversation.id].
  by destruct (0 <? length (finalBubbles σ (TempConversation.id c)))%nat.
Qed.

(** The two routes consolidate alike. *)
Lemma consolidate_agree (σ : Store.t) :
  map toResponse (finalConversationsListTabs σ) = finalConversationsListExport σ.
Proof.
  unfold finalConversationsListTabs, finalConversationsListExport.
  rewrite (sort_map toResponse _
    (λ a b, compareTimes (ResponseConversation.lastUpdatedAt a)
                         (ResponseConversation.lastUpdatedAt b))) by done.
  f_equal. induction (Store.allConversationsMap σ) as [|[k c] m IH]; [done|].
  cbn [omap list_omap snd]. rewrite <- IH, consolidateExport_Tabs.
  by destruct (consolidateTabs σ c).
Qed.

(** Every conversation of the final list comes from a conversation of the
    store, with the final bubbles of its id, of which there is at least one. *)
Lemma finalConversationsListExport_elem (σ : Store.t) (c : ResponseConversation.t) :
  c ∈ finalConversationsListExport σ →
  ∃ k tempConv,
    (k, tempConv) ∈ Store.allConversationsMap σ
    ∧ ResponseConversation.id c = TempConversation.id tempConv
    ∧ ResponseConversation.name c = TempConversation.title tempConv
    ∧ ResponseConversation.summary c = TempConversation.summary tempConv
    ∧ ResponseConversation.createdAt c = TempConversation.createdAt tempConv
    ∧ ResponseConversation.lastUpdatedAt c = TempConversation.lastUpdatedAt tempConv
    ∧ ResponseConversation.messages c = finalBubbles σ (TempConversation.id tempConv)
    ∧ ResponseConversation.messages c ≠ [].
Proof.
  unfold finalConversationsListExport. rewrite sort_perm.
  rewrite list_elem_of_omap. intros ([k tc] & Hin & Hc).
  exists k, tc. split; [done|].
  unfold consolidateExport in Hc. cbn [snd] in Hc.
  destruct (0 <? length (finalBubbles σ (TempConversation.id tc)))%nat eqn:E; [|done].
  injection Hc as <-. cbn. repeat split.
  intros Hnil. rewrite Hnil in E. done.
Qed.

(** ** C8 and C9: the normalizer is total, and repeatable where it can be *)

Lemma wellTimed_final (σ : Store.t) :
  allWellTimed wellTimed σ → Forall wellTimedResponse (finalConversationsListExport σ).
Proof.
  intros H. apply Forall_forall. intros c Hc.
  apply finalConversationsListExport_elem in Hc
    as (k & tc & Hin & _ & _ & _ & Hcr & Hlu & _).
  unfold allWellTimed in H. rewrite Forall_forall in H.
  destruct (H _ Hin) as [H1 H2]. split; cbn in *; congruence.
Qed.

(** C8.  When the clock reads valid times, the timestamp normalizer returns on
    every input (absent, Date, string or number, out-of-range numbers
    included) and never throws, what it returns is a well-formed ISO-8601
    instant, and so are the [createdAt] and [lastUpdatedAt] of every
    conversation either route returns.  A route returns unless a [close] of
    its finally clause throws. *)
Theorem timestamps_always_well_formed :
  clockValid →
  (∀ ts σ, ∃ s σ', safeParseTimestamp ts σ = (Ok s, σ') ∧ JsDate.isInstant s = true)
  ∧ (∀ w σ, (∃ l σ', fetchConversationsForWorkspace w σ = (Ok l, σ')
                     ∧ Forall wellTimedResponse l)
            ∨ ∃ e σ', fetchConversationsForWorkspace w σ = (Throw e, σ') ∧ closeError w e)
  ∧ (∀ w σ, (∃ r σ', GET w σ = (Ok r, σ')
                     ∧ ∀ l status, r = NextResponse_json (Conversations l) status →
                                   Forall wellTimedResponse l)
            ∨ ∃ e σ', GET w σ = (Throw e, σ') ∧ closeError w e).
Proof.
  intros V. split; [|split].
  - intros ts σ. by apply safeParseTimestamp_total.
  - intros w σ.
    pose proof (fetchConversationsForWorkspace_returns (allWellTimed wellTimed)) as R.
    specialize (R (λ _, Forall_nil_2 _) (λ _ _ H, H) (λ _ _ H, H)
                  processChat_wellTimed processComposer_wellTimed
                  processGlobalBubble_wellTimed w σ I).
    destruct (fetchConversationsForWorkspace w σ) as [[l|e] σ'] eqn:E.
    + left. exists l, σ'. split; [done|].
      destruct R as [->|(σ'' & H & ->)]; [constructor|by apply wellTimed_final].
    + right. exists e, σ'. split; [done|]. by eapply fetch_throws.
  - intros w σ.
    pose proof (GET_returns (allWellTimed wellTimed)) as R.
    specialize (R (λ _, Forall_nil_2 _) (λ _ _ H, H) (λ _ _ H, H)
                  processChat_wellTimed processComposer_wellTimed
                  processGlobalBubble_wellTimed w σ I).
    destruct (GET w σ) as [[r|e] σ'] eqn:E.
    + left. exists r, σ'. split; [done|]. intros l status ->.
      destruct R as [R|[R|(σ'' & H & R)]]; try done.
      injection R as -> _. rewrite consolidate_agree. by apply wellTimed_final.
    + right. exists e, σ'. split; [done|]. by eapply GET_throws.
Qed.

(** C9 (as the code has it).  A raw timestamp that denotes an instant is
    normalized to the ISO text of that instant without reading the clock, so
    any two applications agree; and the normalizer gives every one of its
    outputs back unchanged. *)
Theorem normalization_repeatable :
  (∀ ts t σ1 σ2, timeValueOf ts = Some t →
     safeParseTimestamp ts σ1 = (Ok (JsDate.isoFormat t), σ1)
     ∧ safeParseTimestamp ts σ2 = (Ok (JsDate.isoFormat t), σ2))
  ∧ (∀ ts σ s σ', safeParseTimestamp ts σ = (Ok s, σ') →
       ∀ σ2, safeParseTimestamp (TsString s) σ2 = (Ok s, σ2)).
Proof.
  split.
  - intros ts t σ1 σ2 H. split; by apply safeParseTimestamp_denoted.
  - intros ts σ s σ' H σ2.
    pose proof (keeps_safeParseTimestamp_iso ts (λ _, True) (λ _ _, I) σ I) as K.
    rewrite H in K. destruct K as (_ & t & V & ->).
    apply safeParseTimestamp_denoted. cbn. unfold dateOfString.
    rewrite parseISO_isoFormat by done. by apply clipZ_valid.
Qed.

(** ** C7: empty content is dropped *)

Lemma trimStart_allWhite (s : string) :
  JsString.allWhite s = true → JsString.trimStart s = "".
Proof.
  unfold JsString.allWhite. induction s as [|c s IH]; cbn; [done|].
  destruct (JsString.isWhiteSpace c); cbn; [exact IH|done].
Qed.

Lemma trimEnd_head (c : ascii) (s : string) :
  JsString.isWhiteSpace c = false → JsString.trimEnd (String c s) ≠ "".
Proof. intros H. cbn. rewrite H. by destruct (JsString.trimEnd s). Qed.

Lemma trimStart_not_allWhite (s : string) :
  JsString.allWhite s = false →
  ∃ c r, JsString.trimStart s = String c r ∧ JsString.isWhiteSpace c = false.
Proof.
  unfold JsString.allWhite. induction s as [|c s IH]; cbn; [done|].
  destruct (JsString.isWhiteSpace c) eqn:E; cbn; [exact IH|]. eauto.
Qed.

(** [content.trim()] is truthy exactly when the content is not all white. *)
Lemma trim_truthy (s : string) :
  JsString.truthy (JsString.trim s) = negb (JsString.allWhite s).
Proof.
  unfold JsString.trim. destruct (JsString.allWhite s) eqn:E.
  - by rewrite trimStart_allWhite.
  - destruct (trimStart_not_allWhite s E) as (c & r & -> & Hc).
    pose proof (trimEnd_head c r Hc). by destruct (JsString.trimEnd (String c r)).
Qed.

(** Whatever a route returns is the consolidation of some store. *)
Lemma route_messages (w : World.t) (σ0 σ' : Store.t) :
  (∀ l, fetchConversationsForWorkspace w σ0 = (Ok l, σ') →
     ∀ c, c ∈ l → ∃ σ, c ∈ finalConversationsListExport σ)
  ∧ (∀ l status, GET w σ0 = (Ok (NextResponse_json (Conversations l) status), σ') →
     ∀ c, c ∈ l → ∃ σ, c ∈ finalConversationsListExport σ).
Proof.
  split.
  - intros l H c Hc.
    pose proof (fetchConversationsForWorkspace_returns (λ _, True)
      (λ _, I) (λ _ _ _, I) (λ _ _ _, I)) as R.
    assert (T : ∀ A (m : M A), keeps (λ _, True) m (λ _, True)).
    { intros A m σ _. by destruct (m σ) as [[a|] σ1]. }
    specialize (R (λ _, T _ _) (λ _, T _ _) (λ _ _, T _ _) w σ0 I).
    rewrite H in R. destruct R as [->|(σ & _ & ->)]; [by apply elem_of_nil in Hc|eauto].
  - intros l status H c Hc.
    pose proof (GET_returns (λ _, True)
      (λ _, I) (λ _ _ _, I) (λ _ _ _, I)) as R.
    assert (T : ∀ A (m : M A), keeps (λ _, True) m (λ _, True)).
    { intros A m σ _. by destruct (m σ) as [[a|] σ1]. }
    specialize (R (λ _, T _ _) (λ _, T _ _) (λ _ _, T _ _) w σ0 I).
    rewrite H in R. destruct R as [R|[R|(σ & _ & R)]]; try done.
    injection R as -> _. rewrite consolidate_agree in Hc. eauto.
Qed.

(** C7.  A raw message of any of the three sources whose resolved content is
    empty or all white space yields no canonical message, and every
    conversation either route returns has at least one message. *)
Theorem empty_content_dropped :
  (∀ b, JsString.allWhite (legacyContent b) = true → legacyBubble b = None)
  ∧ (∀ msg, JsString.allWhite (composerContent msg) = true → composerBubble msg = None)
  ∧ (∀ bubbleData keyId, JsString.allWhite (globalContent bubbleData) = true →
       globalBubble bubbleData keyId = None)
  ∧ (∀ w σ l σ', fetchConversationsForWorkspace w σ = (Ok l, σ') →
       ∀ c, c ∈ l → ResponseConversation.messages c ≠ [])
  ∧ (∀ w σ l status σ', GET w σ = (Ok (NextResponse_json (Conversations l) status), σ') →
       ∀ c, c ∈ l → ResponseConversation.messages c ≠ []).
Proof.
  repeat split.
  - intros b H. unfold legacyBubble. fold (legacyContent b).
    by rewrite trim_truthy, H.
  - intros msg H. unfold composerBubble. fold (composerContent msg).
    by rewrite trim_truthy, H.
  - intros bubbleData keyId H. unfold globalBubble. fold (globalContent bubbleData).
    by rewrite trim_truthy, H.
  - intros w σ l σ' H c Hc.
    destruct (proj1 (route_messages w σ σ') l H c Hc) as [σ1 H1].
    by apply finalConversationsListExport_elem in H1 as (? & ? & ? & ? & ? & ? & ? & ? & ? & ?).
  - intros w σ l status σ' H c Hc.
    destruct (proj2 (route_messages w σ σ') l status H c Hc) as [σ1 H1].
    by apply finalConversationsListExport_elem in H1 as (? & ? & ? & ? & ? & ? & ? & ? & ? & ?).
Qed.

(** ** C5: deduplication *)

Lemma roleEqb_eq (a b : Role) : roleEqb a b = true ↔ a = b.
Proof. by destruct a, b. Qed.

Lemma sameBubble_key (bubble b : ChatBubble.t) :
  sameBubble bubble b = true ↔ bubbleKey b = bubbleKey bubble.
Proof.
  unfold sameBubble, bubbleKey. rewrite andb_true_iff, String.eqb_eq, roleEqb_eq.
  split; [by intros [-> ->]|by intros [= -> ->]].
Qed.

Lemma sameBubble_false (bubble b : ChatBubble.t) :
  sameBubble bubble b = false ↔ bubbleKey b ≠ bubbleKey bubble.
Proof.
  rewrite <- sameBubble_key. by destruct (sameBubble bubble b).
Qed.

(** [findIndex] stops at the first element that satisfies the predicate. *)
Lemma findIndexFrom_first {A} (p : A → bool) (pre : list A) (x : A) (r : list A) (i : Z) :
  Forall (λ y, p y = false) pre → p x = true →
  JsArray.findIndexFrom p (pre ++ x :: r) i = i + Z.of_nat (length pre).
Proof.
  intros Hpre Hx. revert i. induction Hpre as [|y pre Hy Hpre IH]; intros i; cbn.
  - rewrite Hx. lia.
  - rewrite Hy, IH. lia.
Qed.

Lemma findIndexFrom_earlier {A} (p : A → bool) (pre rest : list A) (i : Z) :
  Exists (λ y, p y = true) pre →
  i <= JsArray.findIndexFrom p (pre ++ rest) i < i + Z.of_nat (length pre).
Proof.
  intros Hpre. revert i. induction pre as [|y pre IH]; intros i.
  - by apply Exists_nil in Hpre.
  - cbn. destruct (p y) eqn:Hy; [lia|].
    apply Exists_cons in Hpre as [Hp|Hp]; [congruence|].
    specialize (IH Hp (i + 1)). lia.
Qed.

Lemma findIndex_self (pre : list ChatBubble.t) (x : ChatBubble.t) (r : list ChatBubble.t) :
  (Z.of_nat (length pre) =? JsArray.findIndex (sameBubble x) (pre ++ x :: r))
  = negb (bool_decide (bubbleKey x ∈ bubbleKey <$> pre)).
Proof.
  unfold JsArray.findIndex. case_bool_decide as Hin; cbn.
  - apply Z.eqb_neq.
    assert (Exists (λ y, sameBubble x y = true) pre) as Hex.
    { apply list_elem_of_fmap in Hin as (y & Hk & Hy).
      apply Exists_exists. exists y. split; [done|]. by apply sameBubble_key. }
    pose proof (findIndexFrom_earlier _ pre (x :: r) 0 Hex). lia.
  - apply Z.eqb_eq. rewrite findIndexFrom_first; [lia| |by apply sameBubble_key].
    apply Forall_forall. intros y Hy. apply sameBubble_false.
    intros Hk. apply Hin. apply list_elem_of_fmap. eauto.
Qed.

Lemma firstOccurrences_ext (seen seen' : list (Role * string)) (l : list ChatBubble.t) :
  (∀ k, k ∈ seen ↔ k ∈ seen') → firstOccurrences seen l = firstOccurrences seen' l.
Proof.
  revert seen seen'. induction l as [|x l IH]; intros seen seen' H; cbn; [done|].
  rewrite (bool_decide_ext _ _ (H (bubbleKey x))).
  case_bool_decide; [by apply IH|]. f_equal. apply IH.
  intros k. rewrite !elem_of_app. by rewrite H.
Qed.

Lemma filterFrom_firstOccurrences (pre l : list ChatBubble.t) :
  JsArray.filterFrom
    (λ bubble index, index =? JsArray.findIndex (sameBubble bubble) (pre ++ l))
    l (Z.of_nat (length pre))
  = firstOccurrences (bubbleKey <$> pre) l.
Proof.
  revert pre. induction l as [|x l IH]; intros pre; [done|].
  cbn [JsArray.filterFrom firstOccurrences].
  rewrite findIndex_self.
  specialize (IH (pre ++ [x])).
  rewrite <- app_assoc, length_app, fmap_app in IH. cbn in IH.
  replace (Z.of_nat (length pre + 1)) with (Z.of_nat (length pre) + 1) in IH by lia.
  rewrite IH. case_bool_decide as Hx; cbn; [|done].
  apply firstOccurrences_ext. intros k.
  rewrite elem_of_app, list_elem_of_singleton. split; [|tauto].
  by intros [?| ->].
Qed.

(** The filter of the code is deduplication by first occurrence. *)
Lemma uniqueBubbles_firstOccurrences (l : list ChatBubble.t) :
  uniqueBubbles l = firstOccurrences [] l.
Proof. apply (filterFrom_firstOccurrences [] l). Qed.

Lemma firstOccurrences_elem (seen : list (Role * string)) (l : list ChatBubble.t)
    (m : ChatBubble.t) :
  m ∈ firstOccurrences seen l ↔
  (bubbleKey m ∉ seen)
  ∧ ∃ before after, l = before ++ m :: after ∧ bubbleKey m ∉ bubbleKey <$> before.
Proof.
  revert seen. induction l as [|x l IH]; intros seen; cbn.
  - split; [by intros ?%elem_of_nil|]. intros (_ & before & after & H & _).
    by destruct before.
  - case_bool_decide as Hx.
    + rewrite IH. split.
      * intros (Hm & before & after & -> & Hb). split; [done|].
        exists (x :: before), after. split; [done|]. cbn.
        rewrite elem_of_cons. intros [E|?]; [|done]. congruence.
      * intros (Hm & before & after & E & Hb). split; [done|].
        destruct before as [|y before]; cbn in E.
        -- injection E as -> ->. done.
        -- injection E as -> ->. exists before, after. split; [done|].
           cbn in Hb. rewrite elem_of_cons in Hb. tauto.
    + rewrite elem_of_cons, IH. split.
      * intros [->|(Hm & before & after & -> & Hb)].
        -- split; [done|]. exists [], l. split; [done|]. cbn. apply not_elem_of_nil.
        -- rewrite elem_of_app, list_elem_of_singleton in Hm. split; [tauto|].
           exists (x :: before), after. split; [done|]. cbn.
           rewrite elem_of_cons. intros [E|?]; [|done]. tauto.
      * intros (Hm & before & after & E & Hb).
        destruct before as [|y before]; cbn in E.
        -- injection E as -> ->. by left.
        -- injection E as -> ->. right. cbn in Hb. rewrite elem_of_cons in Hb.
           split; [rewrite elem_of_app, list_elem_of_singleton; tauto|].
           exists before, after. split; [done|]. tauto.
Qed.

Lemma firstOccurrences_NoDup (seen : list (Role * string)) (l : list ChatBubble.t) :
  NoDup (bubbleKey <$> firstOccurrences seen l).
Proof.
  revert seen. induction l as [|x l IH]; intros seen; cbn; [constructor|].
  case_bool_decide as Hx; [apply IH|].
  cbn. constructor; [|apply IH].
  intros Hin. apply list_elem_of_fmap in Hin as (y & Hk & Hy).
  apply firstOccurrences_elem in Hy as [Hy _].
  apply Hy. rewrite elem_of_app, list_elem_of_singleton. by right.
Qed.

Lemma orderBubbles_perm (headerMap : option (gmap string nat)) (l : list ChatBubble.t) :
  orderBubbles headerMap l ≡ₚ l.
Proof.
  unfold orderBubbles. destruct headerMap as [hm|]; [|done].
  destruct (0 <? size hm)%nat; [apply sort_perm|done].
Qed.

Lemma finalBubbles_perm (σ : Store.t) (id : string) :
  finalBubbles σ id ≡ₚ firstOccurrences [] (staged σ id).
Proof.
  unfold finalBubbles. rewrite orderBubbles_perm.
  by rewrite uniqueBubbles_firstOccurrences.
Qed.

(** The messages of a returned conversation are the final bubbles of its id
    in some store. *)
Lemma route_final_bubbles (w : World.t) (σ0 σ' : Store.t) :
  (∀ l, fetchConversationsForWorkspace w σ0 = (Ok l, σ') →
     ∀ c, c ∈ l →
       ∃ σ, ResponseConversation.messages c = finalBubbles σ (ResponseConversation.id c))
  ∧ (∀ l status, GET w σ0 = (Ok (NextResponse_json (Conversations l) status), σ') →
     ∀ c, c ∈ l →
       ∃ σ, ResponseConversation.messages c = finalBubbles σ (ResponseConversation.id c)).
Proof.
  split.
  - intros l H c Hc.
    destruct (proj1 (route_messages w σ0 σ') l H c Hc) as [σ1 H1].
    apply finalConversationsListExport_elem in H1
      as (k & tc & _ & Hid & _ & _ & _ & _ & Hm & _).
    exists σ1. by rewrite Hid.
  - intros l status H c Hc.
    destruct (proj2 (route_messages w σ0 σ') l status H c Hc) as [σ1 H1].
    apply finalConversationsListExport_elem in H1
      as (k & tc & _ & Hid & _ & _ & _ & _ & Hm & _).
    exists σ1. by rewrite Hid.
Qed.

(** C5.  The final messages of a conversation never repeat a (role, content)
    pair, and they are exactly the first staged occurrences of their pairs;
    the messages of every conversation either route returns are such final
    messages. *)
Theorem dedup_invariant :
  (∀ σ id, NoDup (bubbleKey <$> finalBubbles σ id))
  ∧ (∀ σ id m,
       m ∈ finalBubbles σ id ↔
       ∃ before after, staged σ id = before ++ m :: after
                       ∧ bubbleKey m ∉ bubbleKey <$> before)
  ∧ (∀ w σ0 l σ', fetchConversationsForWorkspace w σ0 = (Ok l, σ') →
       ∀ c, c ∈ l →
         ∃ σ, ResponseConversation.messages c = finalBubbles σ (ResponseConversation.id c))
  ∧ (∀ w σ0 l status σ',
       GET w σ0 = (Ok (NextResponse_json (Conversations l) status), σ') →
       ∀ c, c ∈ l →
         ∃ σ, ResponseConversation.messages c = finalBubbles σ (ResponseConversation.id c)).
Proof.
  split; [|split; [|split]].
  - intros σ id. rewrite (finalBubbles_perm σ id). apply firstOccurrences_NoDup.
  - intros σ id m. rewrite (finalBubbles_perm σ id), firstOccurrences_elem.
    split; [by intros [_ H]|]. intros H. split; [apply not_elem_of_nil|done].
  - intros w σ0 l σ'. apply route_final_bubbles.
  - intros w σ0 l status σ'. apply route_final_bubbles.
Qed.

(** ** C4: ordering with hints *)

Section SortFacts.
Context {A : Type} (cmp : A → A → Z).
Hypothesis cmp_total : ∀ a b, 0 < cmp a b → cmp b a <= 0.
Hypothesis cmp_trans : ∀ a b c, cmp a b <= 0 → cmp b c <= 0 → cmp a c <= 0.

Lemma insertSorted_sorted (x : A) (l : list A) :
  StronglySorted (notAfter cmp) l →
  StronglySorted (notAfter cmp) (JsArray.insertSorted cmp x l).
Proof.
  induction l as [|y l IH]; intros Hl; cbn.
  - repeat constructor.
  - apply StronglySorted_cons in Hl as [Hy Hl].
    destruct (0 <? cmp x y) eqn:E.
    + apply Z.ltb_lt in E. apply StronglySorted_cons. split; [|by apply IH].
      rewrite (insertSorted_perm cmp x l). constructor; [|done].
      by apply cmp_total.
    + apply Z.ltb_ge in E. apply StronglySorted_cons. split.
      * constructor; [done|]. eapply Forall_impl; [exact Hy|].
        intros z Hz. by eapply cmp_trans.
      * by apply StronglySorted_cons.
Qed.

Lemma sort_sorted (l : list A) : StronglySorted (notAfter cmp) (JsArray.sort cmp l).
Proof.
  induction l as [|x l IH]; cbn; [constructor|]. by apply insertSorted_sorted.
Qed.
End SortFacts.

(** The sort is stable: the elements of a class no member of which compares
    greater than another keep their order. *)
Lemma insertSorted_stable {A} (cmp : A → A → Z) (P : A → Prop) `{!∀ a, Decision (P a)}
    (x : A) (l : list A) :
  (∀ a b, P a → P b → cmp a b <= 0) →
  filter P (JsArray.insertSorted cmp x l) = filter P (x :: l).
Proof.
  intros HP. induction l as [|y l IH]; cbn; [done|].
  destruct (0 <? cmp x y) eqn:E; [|done].
  apply Z.ltb_lt in E.
  rewrite (filter_cons _ y), IH, !filter_cons.
  destruct (decide (P x)) as [Hx|Hx], (decide (P y)) as [Hy|Hy]; try done.
  specialize (HP x y Hx Hy). lia.
Qed.

Lemma sort_stable {A} (cmp : A → A → Z) (P : A → Prop) `{!∀ a, Decision (P a)}
    (l : list A) :
  (∀ a b, P a → P b → cmp a b <= 0) →
  filter P (JsArray.sort cmp l) = filter P l.
Proof.
  intros HP. induction l as [|x l IH]; cbn; [done|].
  unfold JsArray.sort in IH.
  rewrite insertSorted_stable by done. by rewrite !filter_cons, IH.
Qed.

Lemma compareByHeader_total (headerMap : gmap string nat) (a b : ChatBubble.t) :
  0 < compareByHeader headerMap a b → compareByHeader headerMap b a <= 0.
Proof.
  unfold compareByHeader.
  destruct (headerIndex headerMap a), (headerIndex headerMap b); lia.
Qed.

Lemma compareByHeader_trans (headerMap : gmap string nat) (a b c : ChatBubble.t) :
  compareByHeader headerMap a b <= 0 → compareByHeader headerMap b c <= 0 →
  compareByHeader headerMap a c <= 0.
Proof.
  unfold compareByHeader.
  destruct (headerIndex headerMap a), (headerIndex headerMap b),
    (headerIndex headerMap c); lia.
Qed.

(** What the comparator says of two messages in sorted order. *)
Lemma notAfter_hints (headerMap : gmap string nat) (a b : ChatBubble.t) :
  notAfter (compareByHeader headerMap) a b →
  (is_Some (headerIndex headerMap b) → is_Some (headerIndex headerMap a))
  ∧ (∀ i j, headerIndex headerMap a = Some i → headerIndex headerMap b = Some j →
            (i ≤ j)%nat).
Proof.
  unfold notAfter, compareByHeader.
  destruct (headerIndex headerMap a) as [i|], (headerIndex headerMap b) as [j|];
    intros H; split; try done; try lia.
  all: try (intros i' j' [= <-] [= <-]; lia).
  all: try (by intros [? ?]).
  all: try (intros _; by eexists).
Qed.

(** C4.  For a conversation that has a non-empty Order Hint Map, the final
    messages are the deduplicated staged ones rearranged so that a message
    with a hint never follows one without, two hinted messages stand in
    non-decreasing hint order, and the messages without a hint keep their
    deduplicated staging order; staged as [A; B; C] with hints none, 0, 1 the
    final order is [B; C; A].  The messages of every conversation either
    route returns are such final messages. *)
Theorem ordering_with_hints :
  (∀ σ id headerMap,
     Store.headerOrderMap σ !! id = Some headerMap → (0 < size headerMap)%nat →
     finalBubbles σ id ≡ₚ uniqueBubbles (staged σ id)
     ∧ (∀ before a mid b after,
          finalBubbles σ id = before ++ a :: mid ++ b :: after →
          (is_Some (headerIndex headerMap b) → is_Some (headerIndex headerMap a))
          ∧ (∀ i j, headerIndex headerMap a = Some i →
                    headerIndex headerMap b = Some j → (i ≤ j)%nat))
     ∧ filter (λ m, headerIndex headerMap m = None) (finalBubbles σ id)
       = filter (λ m, headerIndex headerMap m = None) (uniqueBubbles (staged σ id)))
  ∧ (∀ σ id headerMap A B C,
       Store.headerOrderMap σ !! id = Some headerMap →
       staged σ id = [A; B; C] →
       NoDup [bubbleKey A; bubbleKey B; bubbleKey C] →
       headerIndex headerMap A = None →
       headerIndex headerMap B = Some 0%nat →
       headerIndex headerMap C = Some 1%nat →
       finalBubbles σ id = [B; C; A])
  ∧ (∀ w σ0 l σ', fetchConversationsForWorkspace w σ0 = (Ok l, σ') →
       ∀ c, c ∈ l →
         ∃ σ, ResponseConversation.messages c = finalBubbles σ (ResponseConversation.id c))
  ∧ (∀ w σ0 l status σ',
       GET w σ0 = (Ok (NextResponse_json (Conversations l) status), σ') →
       ∀ c, c ∈ l →
         ∃ σ, ResponseConversation.messages c = finalBubbles σ (ResponseConversation.id c)).
Proof.
  split; [|split; [|split]].
  - intros σ id headerMap Hh Hs.
    assert (E : finalBubbles σ id
                = JsArray.sort (compareByHeader headerMap) (uniqueBubbles (staged σ id))).
    { unfold finalBubbles, orderBubbles. rewrite Hh.
      apply Nat.ltb_lt in Hs. by rewrite Hs. }
    rewrite E. split; [apply sort_perm|]. split.
    + intros before a mid b after Hsplit.
      apply notAfter_hints.
      pose proof (sort_sorted (compareByHeader headerMap)
                    (compareByHeader_total headerMap) (compareByHeader_trans headerMap)
                    (uniqueBubbles (staged σ id))) as S.
      rewrite Hsplit in S. apply StronglySorted_app_1_r in S.
      apply StronglySorted_cons in S as [S _].
      rewrite Forall_forall in S. apply S.
      rewrite elem_of_app, elem_of_cons. right. by left.
    + apply sort_stable. intros a b Ha Hb.
      unfold compareByHeader. by rewrite Ha, Hb.
  - intros σ id headerMap A B C Hh Hst Hnd HA HB HC.
    unfold finalBubbles, orderBubbles. rewrite Hh. fold (staged σ id). rewrite Hst.
    assert (size headerMap ≠ 0%nat) as Hs.
    { unfold headerIndex in HB. apply (map_size_ne_0_lookup_2 _ _ (mk_is_Some _ _ HB)). }
    destruct (0 <? size headerMap)%nat eqn:E; [|apply Nat.ltb_ge in E; lia].
    rewrite uniqueBubbles_firstOccurrences.
    apply NoDup_cons in Hnd as [H1 Hnd]. apply NoDup_cons in Hnd as [H2 _].
    rewrite !elem_of_cons in H1. rewrite list_elem_of_singleton in H2.
    cbn [firstOccurrences app].
    rewrite bool_decide_eq_false_2 by apply not_elem_of_nil.
    rewrite bool_decide_eq_false_2
      by (rewrite list_elem_of_singleton; intuition congruence).
    rewrite bool_decide_eq_false_2
      by (rewrite !elem_of_cons, elem_of_nil; intuition congruence).
    assert (compareByHeader headerMap B C = -1) as HBC
      by (unfold compareByHeader; by rewrite HB, HC).
    assert (compareByHeader headerMap A B = 1) as HAB
      by (unfold compareByHeader; by rewrite HA, HB).
    assert (compareByHeader headerMap A C = 1) as HAC
      by (unfold compareByHeader; by rewrite HA, HC).
    unfold JsArray.sort. cbn [foldr JsArray.insertSorted].
    rewrite HBC. change (0 <? -1) with false. cbn [JsArray.insertSorted].
    rewrite HAB. change (0 <? 1) with true. cbn [JsArray.insertSorted].
    rewrite HAC. reflexivity.
  - intros w σ0 l σ'. apply route_final_bubbles.
  - intros w σ0 l status σ'. apply route_final_bubbles.
Qed.

(** ** C1 and C10: what the global scan leaves alone *)

Lemma globalBubble_white (bubbleData : BubbleData.t) (keyId : option string) :
  JsString.allWhite (globalContent bubbleData) = true →
  globalBubble bubbleData keyId = None.
Proof.
  intros H. unfold globalBubble. fold (globalContent bubbleData).
  by rewrite trim_truthy, H.
Qed.

Lemma globalBubble_not_white (bubbleData : BubbleData.t) (keyId : option string) :
  JsString.allWhite (globalContent bubbleData) = false →
  is_Some (globalBubble bubbleData keyId).
Proof.
  intros H. unfold globalBubble. fold (globalContent bubbleData).
  rewrite trim_truthy, H. by eexists.
Qed.

(** A record that is malformed, has no composer id in its key, names a
    composer outside the membership set, or has all-white content, leaves the
    state as it is. *)
Lemma processGlobalBubble_skip (allComposers : list ComposerMeta.t)
    (rawBubble : string * Json BubbleData.t) (σ : Store.t) :
  (∀ bubbleData composerId,
     snd rawBubble = JsonValue bubbleData →
     keyComposerId (fst rawBubble) = Some composerId →
     composerId ∈ Store.workspaceComposerIds σ →
     JsString.allWhite (globalContent bubbleData) = true) →
  processGlobalBubble allComposers rawBubble σ = (Ok tt, σ).
Proof.
  intros H. unfold processGlobalBubble, tryCatch, bind, gets, ret.
  destruct (snd rawBubble) as [| |bubbleData] eqn:Ev; cbn; try done.
  unfold keyComposerId in H.
  destruct (JsString.split ":" rawBubble.1 !! 1%nat) as [composerId|] eqn:Ek; [|done].
  case_bool_decide as Hin; cbn; [|done].
  by rewrite globalBubble_white by eauto.
Qed.

(** C10.  An admitted record of the global store whose text resolves to the
    empty or an all-white string leaves the whole state unchanged: nothing is
    staged, no conversation is created, no [lastUpdatedAt] is refreshed, the
    clock is not read.  The scan of a record changes the state only for an
    admitted record with content that is not all white. *)
Theorem global_scan_frame :
  (∀ allComposers key bubbleData composerId σ,
     keyComposerId key = Some composerId →
     composerId ∈ Store.workspaceComposerIds σ →
     JsString.allWhite (globalContent bubbleData) = true →
     processGlobalBubble allComposers (key, JsonValue bubbleData) σ = (Ok tt, σ))
  ∧ (∀ allComposers rawBubble σ r σ',
       processGlobalBubble allComposers rawBubble σ = (r, σ') → σ' ≠ σ →
       ∃ bubbleData composerId,
         snd rawBubble = JsonValue bubbleData
         ∧ keyComposerId (fst rawBubble) = Some composerId
         ∧ composerId ∈ Store.workspaceComposerIds σ
         ∧ JsString.allWhite (globalContent bubbleData) = false).
Proof.
  split.
  - intros allComposers key bubbleData composerId σ Hk Hin Hw.
    apply processGlobalBubble_skip. cbn. intros bd cid [= <-] Hk' _. done.
  - intros allComposers rawBubble σ r σ' Hrun Hne.
    destruct (snd rawBubble) as [| |bubbleData] eqn:Ev.
    1,2: rewrite processGlobalBubble_skip in Hrun by (intros ? ? ?; congruence);
         by injection Hrun as _ <-.
    destruct (keyComposerId (fst rawBubble)) as [composerId|] eqn:Ek.
    2: { rewrite processGlobalBubble_skip in Hrun by (intros ? ? ?; congruence).
         by injection Hrun as _ <-. }
    destruct (decide (composerId ∈ Store.workspaceComposerIds σ)) as [Hin|Hin].
    2: { rewrite processGlobalBubble_skip in Hrun
           by (intros; exfalso; apply Hin; congruence).
         by injection Hrun as _ <-. }
    destruct (JsString.allWhite (globalContent bubbleData)) eqn:Hw.
    { rewrite processGlobalBubble_skip in Hrun by (intros; congruence).
      by injection Hrun as _ <-. }
    eauto 10.
Qed.

(** *** The passes do not touch the membership set *)

Lemma membershipIs_tick (X : gset string) : tickInvariant (membershipIs X).
Proof. by intros σ H. Qed.

Lemma processChat_membership (X : gset string) (r : option (Json ChatData.t)) :
  keeps (membershipIs X) (processChat r) (λ _, True).
Proof.
  unfold processChat, processTab.
  repeat keeps_step; try done; apply membershipIs_tick.
Qed.

Lemma processComposer_membership (X : gset string) (c : ComposerInstance.t) :
  keeps (membershipIs X) (processComposer c) (λ _, True).
Proof.
  unfold processComposer. repeat keeps_step; try done; apply membershipIs_tick.
Qed.

Lemma processGlobalBubble_membership (X : gset string) (l : list ComposerMeta.t)
    (r : string * Json BubbleData.t) :
  keeps (membershipIs X) (processGlobalBubble l r) (λ _, True).
Proof.
  unfold processGlobalBubble. repeat keeps_step; try done; apply membershipIs_tick.
Qed.

Lemma openGlobalDb_membership (X : gset string) (w : World.t) :
  keeps (membershipIs X) (openGlobalDb w) (λ _, True).
Proof. unfold openGlobalDb. repeat keeps_step; done. Qed.

(** The loop over [allComposers] builds the membership set. *)
Lemma addComposerIds_membership (X : gset string) (allComposers : list ComposerMeta.t)
    (E : Store.t → Prop) :
  hoare (membershipIs X)
    (forEach allComposers (λ it, modify (Store.addComposerId (ComposerMeta.composerId it))))
    (λ _, membershipIs (membership allComposers ∪ X)) E.
Proof.
  revert X. induction allComposers as [|it l IH]; intros X.
  - apply hoare_ret. intros σ Hσ. unfold membershipIs, membership in *. cbn.
    by rewrite Hσ, (left_id_L ∅ (∪)).
  - cbn [forEach]. eapply hoare_bind.
    + apply (hoare_modify _ _ (λ _, membershipIs ({[ComposerMeta.composerId it]} ∪ X))).
      intros σ Hσ. unfold membershipIs in *. cbn. by rewrite Hσ.
    + intros u. eapply hoare_conseq; [apply IH|done| |done].
      intros ? σ Hσ. unfold membershipIs, membership in *. cbn.
      rewrite Hσ, (assoc_L (∪)). f_equal. apply (comm_L (∪)).
Qed.

(** *** Programs that agree on the states an invariant allows *)

Lemma bind_ext_hoare {A B} (m : M A) (k k' : A → M B)
    (P : Store.t → Prop) (Q : A → Store.t → Prop) (E : Store.t → Prop) (σ : Store.t) :
  hoare P m Q E → P σ → (∀ a σ', Q a σ' → k a σ' = k' a σ') →
  bind m k σ = bind m k' σ.
Proof.
  intros Hm Hσ Hk. unfold bind. specialize (Hm σ Hσ).
  destruct (m σ) as [[a|] σ']; [by apply Hk|done].
Qed.

Lemma bind_ext_keeps {A B} (m : M A) (k k' : A → M B)
    (I : Store.t → Prop) (Qv : A → Prop) (σ : Store.t) :
  keeps I m Qv → I σ → (∀ a σ', I σ' → Qv a → k a σ' = k' a σ') →
  bind m k σ = bind m k' σ.
Proof.
  intros Hm Hσ Hk. eapply bind_ext_hoare; [exact Hm|done|].
  intros a σ' [? ?]. by apply Hk.
Qed.

(** The scan does the same with and without the foreign records. *)
Lemma scan_without_foreign (allComposers : list ComposerMeta.t)
    (rows : list (string * Json BubbleData.t)) (σ : Store.t) :
  forEach rows (processGlobalBubble allComposers) σ
  = forEach (filter (λ r, negb (foreign (Store.workspaceComposerIds σ) r)) rows)
      (processGlobalBubble allComposers) σ.
Proof.
  revert σ. induction rows as [|r rows IH]; intros σ; [done|].
  rewrite filter_cons. destruct (decide _) as [Hk|Hf].
  - cbn [forEach].
    eapply (bind_ext_keeps _ _ _ (membershipIs (Store.workspaceComposerIds σ)));
      [apply processGlobalBubble_membership|done|].
    intros u σ' Hσ' _. rewrite IH. by rewrite Hσ'.
  - cbn [forEach]. unfold bind at 1.
    rewrite processGlobalBubble_skip; [apply IH|].
    intros bubbleData composerId _ Hkey Hin. exfalso. apply Hf.
    unfold foreign. rewrite Hkey. by rewrite bool_decide_eq_true_2.
Qed.

(** *** C1 end to end: the routes do not see the foreign records *)

Lemma processComposerData_without_foreign (w : World.t)
    (value : Json ComposerMetadata.t) (σ : Store.t) :
  membershipIs ∅ σ →
  (∀ composerMetadata, value = JsonValue composerMetadata →
     membershipOf w = membership (ComposerMetadata.allComposers composerMetadata)) →
  processComposerData w value σ = processComposerData (dropForeign w) value σ.
Proof.
  intros Hσ Hm. unfold processComposerData.
  eapply (bind_ext_keeps _ _ _ (membershipIs ∅)); [apply keeps_gets_sp|done|].
  intros globalDb σ1 Hσ1 _. destruct globalDb; [|done].
  eapply (bind_ext_keeps _ _ _ (membershipIs ∅)); [apply keeps_JSON_parse_sp|done|].
  intros meta σ2 Hσ2 Hv. specialize (Hm meta Hv).
  eapply bind_ext_hoare;
    [apply (addComposerIds_membership ∅ _ (λ _, True))|exact Hσ2|].
  intros u σ3 Hσ3. cbn beta in Hσ3.
  eapply (bind_ext_keeps _ _ _
            (membershipIs (membership (ComposerMetadata.allComposers meta) ∪ ∅))
            (λ _, True) σ3); [|exact Hσ3|].
  { change (World.composerBodies (dropForeign w)) with (World.composerBodies w).
    destruct (0 <? length _)%nat; [|by apply keeps_ret].
    repeat keeps_step; try done. apply processComposer_membership. }
  intros u' σ4 Hσ4 _.
  change (World.globalBubbles (dropForeign w))
    with (match World.globalBubbles w with
          | Ok rows => Ok (filter (λ r, negb (foreign (membershipOf w) r)) rows)
          | Throw e => Throw e
          end).
  unfold bind, await. destruct (World.globalBubbles w) as [rows|]; [|done].
  rewrite scan_without_foreign. rewrite Hσ4, Hm.
  by rewrite (right_id_L ∅ (∪)).
Qed.

Lemma tryCatch_ext {A} (body body' handler : M A) (σ : Store.t) :
  body σ = body' σ → tryCatch body handler σ = tryCatch body' handler σ.
Proof. unfold tryCatch. by intros ->. Qed.

Lemma tryFinally_ext {A} (body body' : M A) (cleanup : M unit) (σ : Store.t) :
  body σ = body' σ → tryFinally body cleanup σ = tryFinally body' cleanup σ.
Proof. unfold tryFinally. by intros ->. Qed.

Lemma bind_ext_l {A B} (m m' : M A) (k : A → M B) (σ : Store.t) :
  m σ = m' σ → bind m k σ = bind m' k σ.
Proof. unfold bind. by intros ->. Qed.

(** The composer pass of both routes. *)
Lemma composer_pass_without_foreign (w : World.t) (viaExists : bool)
    (composerMetadataResult : option (Json ComposerMetadata.t)) (σ : Store.t) :
  World.composerRow w = Ok composerMetadataResult →
  membershipIs ∅ σ →
  match composerMetadataResult with
  | Some JsonFalsy | None => ret tt
  | Some value =>
      bind (if viaExists then openGlobalDb w else ret tt)
           (λ _, processComposerData w value)
  end σ
  = match composerMetadataResult with
    | Some JsonFalsy | None => ret tt
    | Some value =>
        bind (if viaExists then openGlobalDb (dropForeign w) else ret tt)
             (λ _, processComposerData (dropForeign w) value)
    end σ.
Proof.
  intros Hrow Hσ.
  assert (Hm : ∀ value meta, composerMetadataResult = Some value → value = JsonValue meta →
                 membershipOf w = membership (ComposerMetadata.allComposers meta)).
  { intros value meta -> ->. unfold membershipOf. by rewrite Hrow. }
  destruct composerMetadataResult as [[| |meta]|]; try done.
  all: eapply (bind_ext_keeps _ _ _ (membershipIs ∅) (λ _, True)); [|done|].
  all: try (destruct viaExists; [apply openGlobalDb_membership|by apply keeps_ret]).
  all: intros u σ1 Hσ1 _; apply processComposerData_without_foreign; [done|].
  all: intros m Hv; by eapply Hm.
Qed.

Lemma fetchConversationsForWorkspace_without_foreign (w : World.t) (σ : Store.t) :
  fetchConversationsForWorkspace w σ = fetchConversationsForWorkspace (dropForeign w) σ.
Proof.
  unfold fetchConversationsForWorkspace.
  change (World.dbExists (dropForeign w)) with (World.dbExists w).
  change (World.dbOpen (dropForeign w)) with (World.dbOpen w).
  change (World.chatRow (dropForeign w)) with (World.chatRow w).
  change (World.composerRow (dropForeign w)) with (World.composerRow w).
  change (World.globalDbExists (dropForeign w)) with (World.globalDbExists w).
  eapply (bind_ext_keeps _ _ _ (λ _, True) (λ _, True)); [by apply keeps_modify|done|].
  intros u0 σ0 _ _.
  apply tryFinally_ext, tryCatch_ext.
  destruct (negb (World.dbExists w)); [done|].
  eapply (bind_ext_keeps _ _ _ (λ _, True) (λ _, True)); [by apply keeps_await|done|].
  intros u1 σ1 _ _.
  eapply (bind_ext_keeps _ _ _ (λ _, True) (λ _, True)); [by apply keeps_modify|done|].
  intros u2 σ2 _ _.
  eapply (bind_ext_keeps _ _ _ (λ _, True) (λ _, True)); [by apply keeps_await|done|].
  intros chatResult σ3 _ _.
  eapply (bind_ext_keeps _ _ _ (λ _, True)); [apply keeps_await_sp|done|].
  intros composerMetadataResult σ4 _ Hrow.
  eapply bind_ext_hoare;
    [apply (hoare_modify _ (λ _, True) (λ _, membershipIs ∅) (λ _, True)); done|done|].
  intros u3 σ5 Hσ5.
  eapply (bind_ext_keeps _ _ _ (membershipIs ∅) (λ _, True));
    [apply processChat_membership|done|].
  intros u4 σ6 Hσ6 _.
  apply bind_ext_l.
  by apply (composer_pass_without_foreign w (World.globalDbExists w)).
Qed.

Lemma GET_without_foreign (w : World.t) (σ : Store.t) :
  GET w σ = GET (dropForeign w) σ.
Proof.
  unfold GET.
  change (World.dbOpen (dropForeign w)) with (World.dbOpen w).
  change (World.chatRow (dropForeign w)) with (World.chatRow w).
  change (World.composerRow (dropForeign w)) with (World.composerRow w).
  eapply (bind_ext_keeps _ _ _ (λ _, True) (λ _, True)); [by apply keeps_modify|done|].
  intros u0 σ0 _ _.
  apply tryFinally_ext, tryCatch_ext.
  eapply (bind_ext_keeps _ _ _ (λ _, True) (λ _, True)); [by apply keeps_await|done|].
  intros u1 σ1 _ _.
  eapply (bind_ext_keeps _ _ _ (λ _, True) (λ _, True)); [by apply keeps_modify|done|].
  intros u2 σ2 _ _.
  eapply (bind_ext_keeps _ _ _ (λ _, True) (λ _, True)); [by apply keeps_await|done|].
  intros chatResult σ3 _ _.
  eapply (bind_ext_keeps _ _ _ (λ _, True)); [apply keeps_await_sp|done|].
  intros composerMetadataResult σ4 _ Hrow.
  eapply bind_ext_hoare;
    [apply (hoare_modify _ (λ _, True) (λ _, membershipIs ∅) (λ _, True)); done|done|].
  intros u3 σ5 Hσ5.
  eapply (bind_ext_keeps _ _ _ (membershipIs ∅) (λ _, True));
    [apply processChat_membership|done|].
  intros u4 σ6 Hσ6 _.
  apply bind_ext_l.
  by apply (composer_pass_without_foreign w true).
Qed.

(** C1.  A record of the global bubble store whose key names a composer that
    is not in the membership set leaves the state of the scan as it is, and
    neither route can tell a global store from the same store without the
    records foreign to the workspace: what it returns, what it throws and
    the state it ends in are the same. *)
Theorem workspace_isolation :
  (∀ allComposers key value composerId σ,
     keyComposerId key = Some composerId →
     composerId ∉ Store.workspaceComposerIds σ →
     processGlobalBubble allComposers (key, value) σ = (Ok tt, σ))
  ∧ (∀ w σ, fetchConversationsForWorkspace w σ
            = fetchConversationsForWorkspace (dropForeign w) σ)
  ∧ (∀ w σ, GET w σ = GET (dropForeign w) σ).
Proof.
  split; [|split].
  - intros allComposers key value composerId σ Hk Hout.
    apply processGlobalBubble_skip. intros bd cid _ Hk' Hin.
    change (keyComposerId key = Some cid) in Hk'.
    rewrite Hk in Hk'. injection Hk' as <-. contradiction.
  - apply fetchConversationsForWorkspace_without_foreign.
  - apply GET_without_foreign.
Qed.

(** ** C6: merge precedence *)

Lemma OrderedMap_get_set_eq {V} (k : string) (v : V) (m : list (string * V)) :
  OrderedMap.get k (OrderedMap.set k v m) = Some v.
Proof.
  induction m as [|[k' v'] m IH]; cbn.
  - by rewrite String.eqb_refl.
  - destruct (String.eqb k' k) eqn:E; cbn; [by rewrite String.eqb_refl|by rewrite E].
Qed.

Lemma OrderedMap_get_set_ne {V} (k j : string) (v : V) (m : list (string * V)) :
  j ≠ k → OrderedMap.get j (OrderedMap.set k v m) = OrderedMap.get j m.
Proof.
  intros Hne. induction m as [|[k' v'] m IH]; cbn.
  - destruct (String.eqb k j) eqn:E; [|done]. apply String.eqb_eq in E. congruence.
  - destruct (String.eqb k' k) eqn:E; cbn.
    + apply String.eqb_eq in E as ->.
      destruct (String.eqb k j) eqn:E'; [|done]. apply String.eqb_eq in E'. congruence.
    + by rewrite IH.
Qed.


Lemma safeParseTimestamp_normalizeAt (ts : Timestamp) (σ : Store.t) :
  clockValid →
  safeParseTimestamp ts σ
  = (Ok (normalizeAt (Store.ticks σ) ts), Nat.iter (readings ts) Store.tick σ).
Proof.
  intros V. unfold normalizeAt, readings. destruct (timeValueOf ts) as [t|] eqn:E.
  - by apply safeParseTimestamp_denoted.
  - by apply safeParseTimestamp_fallback.
Qed.






(** A conversation made from a chat tab carries timestamps as the normalizer
    writes them, so that the merge above applies to it. *)
Lemma processTab_isoStamped (tab : RawTab.t) (σ σ' : Store.t) :
  processTab tab σ = (Ok tt, σ') →
  ∃ c, OrderedMap.get (RawTab.tabId tab) (Store.allConversationsMap σ') = Some c
       ∧ isoStamped c.
Proof.
  assert (H : hoare (λ _, True) (processTab tab)
                (λ _ σ', ∃ c, OrderedMap.get (RawTab.tabId tab)
                                (Store.allConversationsMap σ') = Some c ∧ isoStamped c)
                (λ _, True)).
  { unfold processTab.
    eapply (hoare_bind _ _ _ (λ _ _, True)); [by apply hoare_modify|]. intros ?.
    eapply hoare_bind;
      [apply (keeps_safeParseTimestamp_iso _ (λ _, True)); by intros ?|].
    intros lu.
    eapply (hoare_bind _ _ _ (λ cr _, (∃ t, validTime t = true ∧ lu = isoFormat t)
                                      ∧ ∃ t, validTime t = true ∧ cr = isoFormat t)).
    - intros σ1 [_ Hlu].
      pose proof (keeps_safeParseTimestamp_iso (RawTab.lastSendTime tab) (λ _, True)
                    (λ _ _, I) σ1 I) as K.
      destruct (safeParseTimestamp (RawTab.lastSendTime tab) σ1) as [[cr|] σ2]; [|done].
      split; [done|]. by destruct K.
    - intros cr. apply hoare_modify. intros σ2 [Hlu Hcr].
      eexists. split; [apply OrderedMap_get_set_eq|]. by split. }
  intros Hrun. specialize (H σ I). by rewrite Hrun in H.
Qed.

(** ** C3: failures of the export route *)

Lemma hoare_any {A} (m : M A) (P : Store.t → Prop) :
  hoare P m (λ _ _, True) (λ _, True).
Proof. intros σ _. by destruct (m σ) as [[a|] σ']. Qed.

Lemma hoare_false {A} (m : M A) (Q : A → Store.t → Prop) (E : Store.t → Prop) :
  hoare (λ _, False) m Q E.
Proof. by intros σ []. Qed.

Lemma hoare_pure {A} (φ : Prop) (m : M A) (Q : A → Store.t → Prop) (E : Store.t → Prop) :
  (φ → hoare (λ _, True) m Q E) → hoare (λ _, φ) m Q E.
Proof. intros H σ Hφ. by apply H. Qed.

(** An awaited call that throws ends the computation around it. *)
Lemma hoare_await_throws {A B} (e : Thrown) (k : A → M B) (P : Store.t → Prop)
    (Q : B → Store.t → Prop) :
  hoare P (bind (await (Throw e : Exc A)) k) Q (λ _, True).
Proof. by intros σ _. Qed.

(** The export route returns the empty list when its body can only throw or
    return the empty list and the databases can be closed. *)
Ltac fetch_enter Hc :=
  unfold fetchConversationsForWorkspace;
  eapply hoare_bind; [apply (hoare_modify _ _ (λ _ _, True)); done|]; intros ?;
  apply (hoare_finally_closes _ _ _ (λ l, l = []) Hc);
  eapply (hoare_tryCatch _ _ _ _ (λ _, True)); [|by apply hoare_ret].

Ltac hoare_skip :=
  eapply (hoare_bind _ _ _ (λ _ _, True)); [apply hoare_any|intros ?].

Lemma hoare_empty (w : World.t) (σ : Store.t) :
  hoare (λ _, True) (fetchConversationsForWorkspace w) (λ l _, l = []) (λ _, False) →
  fst (fetchConversationsForWorkspace w σ) = Ok [].
Proof.
  intros H. specialize (H σ I).
  by destruct (fetchConversationsForWorkspace w σ) as [[l|] σ']; [subst|].
Qed.

(** Where no database has been opened there is none to close. *)
Lemma fetch_no_database (w : World.t) (σ : Store.t) :
  World.dbExists w = false → fst (fetchConversationsForWorkspace w σ) = Ok [].
Proof.
  intros H. unfold fetchConversationsForWorkspace, bind, modify, tryFinally, tryCatch.
  rewrite H. cbn [negb ret]. by rewrite closeHandles_null.
Qed.

Lemma fetch_open_throws (w : World.t) (σ : Store.t) (e : Thrown) :
  World.dbOpen w = Throw e → fst (fetchConversationsForWorkspace w σ) = Ok [].
Proof.
  intros H. unfold fetchConversationsForWorkspace, bind, modify, tryFinally, tryCatch, await.
  rewrite H. destruct (negb (World.dbExists w)); cbn [ret]; by rewrite closeHandles_null.
Qed.

Lemma fetch_chat_query_throws (w : World.t) (σ : Store.t) (e : Thrown) :
  closes w → World.chatRow w = Throw e → fst (fetchConversationsForWorkspace w σ) = Ok [].
Proof.
  intros Hc H. apply hoare_empty. fetch_enter Hc.
  destruct (negb (World.dbExists w)); [by apply hoare_ret|].
  do 2 hoare_skip. rewrite H. apply hoare_await_throws.
Qed.

Lemma fetch_composer_query_throws (w : World.t) (σ : Store.t) (e : Thrown) :
  closes w → World.composerRow w = Throw e →
  fst (fetchConversationsForWorkspace w σ) = Ok [].
Proof.
  intros Hc H. apply hoare_empty. fetch_enter Hc.
  destruct (negb (World.dbExists w)); [by apply hoare_ret|].
  do 3 hoare_skip. rewrite H. apply hoare_await_throws.
Qed.

Lemma fetch_chat_malformed (w : World.t) (σ : Store.t) (message : string) :
  closes w → World.chatRow w = Ok (Some (JsonMalformed message)) →
  fst (fetchConversationsForWorkspace w σ) = Ok [].
Proof.
  intros Hc H. apply hoare_empty. fetch_enter Hc.
  destruct (negb (World.dbExists w)); [by apply hoare_ret|].
  do 2 hoare_skip. rewrite H.
  eapply (hoare_bind _ _ _ (λ r _, r = Some (JsonMalformed message))).
  { apply hoare_await; [by intros ? ? _ [= <-]|done]. }
  intros chatResult. apply hoare_pure. intros ->.
  do 2 hoare_skip.
  eapply (hoare_bind _ _ _ (λ _ _, False)); [|intros ?; apply hoare_false].
  by intros σ1 _.
Qed.

(** With the global store open, the composer pass can only throw when the
    metadata blob is not JSON, when the query for the composer bodies throws,
    or when the scan query throws. *)
Lemma processComposerData_throws (w : World.t) (value : Json ComposerMetadata.t) :
  (∃ message, value = JsonMalformed message)
  ∨ (∃ e, World.globalBubbles w = Throw e)
  ∨ (∃ meta e, value = JsonValue meta
               ∧ ComposerMetadata.allComposers meta ≠ []
               ∧ World.composerBodies w
                   (map (λ it, "composerData:" +:+ ComposerMeta.composerId it)
                        (ComposerMetadata.allComposers meta)) = Throw e) →
  hoare (λ σ, Store.globalDb σ = true) (processComposerData w value)
    (λ _ _, False) (λ _, True).
Proof.
  intros H. unfold processComposerData.
  eapply (hoare_bind _ _ _ (λ g _, g = true)); [by apply hoare_gets|].
  intros g. apply hoare_pure. intros ->.
  destruct H as [[message ->] | [[e H] | (meta & e & -> & Hne & H)]].
  - by intros σ _.
  - hoare_skip. hoare_skip. hoare_skip. rewrite H. apply hoare_await_throws.
  - eapply (hoare_bind _ _ _ (λ a _, a = meta)).
    { by apply hoare_JSON_parse; [intros ? ? _ [= <-]|]. }
    intros a. apply hoare_pure. intros ->. hoare_skip.
    eapply (hoare_bind _ _ _ (λ _ _, False)); [|intros ?; apply hoare_false].
    destruct (ComposerMetadata.allComposers meta) as [|it l]; [done|].
    rewrite H. cbn [map length Nat.ltb Nat.leb]. apply hoare_await_throws.
Qed.

Lemma fetch_global_failure (w : World.t) (value : Json ComposerMetadata.t) (σ : Store.t) :
  closes w →
  World.composerRow w = Ok (Some value) →
  value ≠ JsonFalsy →
  World.globalDbExists w = true →
  World.globalDbOpen w = Ok tt →
  (∃ message, value = JsonMalformed message)
  ∨ (∃ e, World.globalBubbles w = Throw e)
  ∨ (∃ meta e, value = JsonValue meta
               ∧ ComposerMetadata.allComposers meta ≠ []
               ∧ World.composerBodies w
                   (map (λ it, "composerData:" +:+ ComposerMeta.composerId it)
                        (ComposerMetadata.allComposers meta)) = Throw e) →
  fst (fetchConversationsForWorkspace w σ) = Ok [].
Proof.
  intros Hc Hrow Hv Hex Hop Hfail. apply hoare_empty. fetch_enter Hc.
  destruct (negb (World.dbExists w)); [by apply hoare_ret|].
  do 3 hoare_skip. rewrite Hrow.
  eapply (hoare_bind _ _ _ (λ r _, r = Some value)).
  { apply hoare_await; [by intros ? ? _ [= <-]|done]. }
  intros r. apply hoare_pure. intros ->.
  do 2 hoare_skip.
  eapply (hoare_bind _ _ _ (λ _ _, False)); [|intros ?; apply hoare_false].
  assert (hoare (λ _, True)
            (bind (if World.globalDbExists w then openGlobalDb w else ret tt)
                  (λ _, processComposerData w value))
            (λ _ _, False) (λ _, True)) as Hpass.
  { eapply (hoare_bind _ _ _ (λ _ σ1, Store.globalDb σ1 = true)).
    - rewrite Hex. unfold openGlobalDb. rewrite Hop. by intros σ1 _.
    - intros ?. by apply processComposerData_throws. }
  by destruct value.
Qed.

(** When the global store is not there or cannot be opened, the failure is
    swallowed and the composer metadata count for nothing. *)
Lemma globalDb_null_chat (r : option (Json ChatData.t)) :
  keeps (λ σ, Store.globalDb σ = false) (processChat r) (λ _, True).
Proof.
  unfold processChat, processTab. repeat keeps_step; try done. all: by intros ?.
Qed.

Lemma bind_await_ok {A B} (a : A) (k : A → M B) (σ : Store.t) :
  bind (await (Ok a)) k σ = k a σ.
Proof. reflexivity. Qed.

Lemma composer_pass_without_global (w : World.t) (value : Json ComposerMetadata.t)
    (σ : Store.t) :
  World.globalDbExists w = false ∨ (∃ e, World.globalDbOpen w = Throw e) →
  Store.globalDb σ = false →
  bind (if World.globalDbExists w then openGlobalDb w else ret tt)
       (λ _, processComposerData w value) σ = (Ok tt, σ).
Proof.
  intros Hno Hσ.
  assert ((if World.globalDbExists w then openGlobalDb w else ret tt) σ = (Ok tt, σ)) as H.
  { destruct Hno as [-> | [e Hop]]; [done|].
    destruct (World.globalDbExists w); [|done].
    unfold openGlobalDb. by rewrite Hop. }
  unfold bind at 1. rewrite H.
  unfold processComposerData, bind, gets. by rewrite Hσ.
Qed.

Lemma fetch_without_global (w : World.t)
    (composerMetadataResult : option (Json ComposerMetadata.t)) (σ : Store.t) :
  World.composerRow w = Ok composerMetadataResult →
  World.globalDbExists w = false ∨ (∃ e, World.globalDbOpen w = Throw e) →
  fetchConversationsForWorkspace w σ
  = fetchConversationsForWorkspace (withoutComposerRow w) σ.
Proof.
  intros Hrow Hno. unfold fetchConversationsForWorkspace.
  change (World.dbExists (withoutComposerRow w)) with (World.dbExists w).
  change (World.dbOpen (withoutComposerRow w)) with (World.dbOpen w).
  change (World.chatRow (withoutComposerRow w)) with (World.chatRow w).
  change (World.composerRow (withoutComposerRow w))
    with (Ok (A:=option (Json ComposerMetadata.t)) None).
  change (closeHandles (withoutComposerRow w)) with (closeHandles w).
  eapply bind_ext_hoare;
    [apply (hoare_modify _ (λ _, True) (λ _ σ1, Store.globalDb σ1 = false) (λ _, True)); done
    |done|].
  intros u0 σ0 H0.
  apply tryFinally_ext, tryCatch_ext.
  destruct (negb (World.dbExists w)); [done|].
  eapply (bind_ext_keeps _ _ _ (λ σ1, Store.globalDb σ1 = false) (λ _, True));
    [by apply keeps_await|done|].
  intros u1 σ1 H1 _.
  eapply (bind_ext_keeps _ _ _ (λ σ1, Store.globalDb σ1 = false) (λ _, True));
    [by apply keeps_modify|done|].
  intros u2 σ2 H2 _.
  eapply (bind_ext_keeps _ _ _ (λ σ1, Store.globalDb σ1 = false) (λ _, True));
    [by apply keeps_await|done|].
  intros chatResult σ3 H3 _.
  rewrite Hrow, !bind_await_ok.
  eapply (bind_ext_keeps _ _ _ (λ σ1, Store.globalDb σ1 = false) (λ _, True));
    [by apply keeps_modify|done|].
  intros u4 σ4 H4 _.
  eapply (bind_ext_keeps _ _ _ (λ σ1, Store.globalDb σ1 = false) (λ _, True));
    [apply globalDb_null_chat|done|].
  intros u5 σ5 H5 _.
  apply bind_ext_l.
  destruct composerMetadataResult as [[| |meta]|]; try done.
  all: by apply (composer_pass_without_global w).
Qed.

(** *** A database that cannot be closed *)

(** The passes leave the handle of the workspace database alone. *)
Section HandleHeld.
Let J := λ σ, Store.db σ = true.

Lemma processChat_held (r : option (Json ChatData.t)) :
  keeps J (processChat r) (λ _, True).
Proof.
  unfold processChat, processTab. repeat keeps_step; try done. all: by intros ?.
Qed.

Lemma processComposer_held (c : ComposerInstance.t) :
  keeps J (processComposer c) (λ _, True).
Proof.
  unfold processComposer. repeat keeps_step; try done. all: by intros ?.
Qed.

Lemma processGlobalBubble_held (l : list ComposerMeta.t)
    (r : string * Json BubbleData.t) :
  keeps J (processGlobalBubble l r) (λ _, True).
Proof.
  unfold processGlobalBubble. repeat keeps_step; try done. all: by intros ?.
Qed.

Lemma composerPass_held (w : World.t) (viaExists : bool)
    (composerMetadataResult : option (Json ComposerMetadata.t)) :
  keeps J
    match composerMetadataResult with
    | Some JsonFalsy | None => ret tt
    | Some value =>
        bind (if viaExists then openGlobalDb w else ret tt)
             (λ _, processComposerData w value)
    end (λ _, True).
Proof.
  assert (G : ∀ b σ, J σ → J (Store.setGlobalDb b σ)) by (by intros ? ? ?).
  assert (A : ∀ k σ, J σ → J (Store.addComposerId k σ)) by (by intros ? ? ?).
  destruct composerMetadataResult as [[| |meta]|]; try by apply keeps_ret.
  all: eapply (keeps_bind _ _ _ (λ _, True));
    [destruct viaExists; [by apply openGlobalDb_keeps|by apply keeps_ret]|].
  all: intros _ _; apply processComposerData_keeps; auto using
         processComposer_held, processGlobalBubble_held.
Qed.
End HandleHeld.

(** When the workspace database has been opened and cannot be closed, the
    fetch throws what [close] throws, whatever its body did, and it does not
    come to close the global database. *)
Lemma fetch_close_throws (w : World.t) (r : Exc unit) (σ : Store.t) (e : Thrown) :
  World.dbExists w = true → World.dbOpen w = Ok tt → World.dbClose w = Throw e →
  ∃ σ', fetchConversationsForWorkspace w σ = (Throw e, σ')
        ∧ fetchConversationsForWorkspace (withGlobalClose r w) σ = (Throw e, σ')
        ∧ Store.db σ' = true.
Proof.
  intros Hx Ho Hc. unfold fetchConversationsForWorkspace.
  rewrite !bind_modify. unfold tryFinally.
  change (World.dbExists (withGlobalClose r w)) with (World.dbExists w).
  change (World.dbOpen (withGlobalClose r w)) with (World.dbOpen w).
  change (World.chatRow (withGlobalClose r w)) with (World.chatRow w).
  change (World.composerRow (withGlobalClose r w)) with (World.composerRow w).
  change (World.globalDbExists (withGlobalClose r w)) with (World.globalDbExists w).
  change (openGlobalDb (withGlobalClose r w)) with (openGlobalDb w).
  change (processComposerData (withGlobalClose r w)) with (processComposerData w).
  set (body := tryCatch _ _).
  assert (Hb : hoare (λ _, True) body (λ _ σ1, Store.db σ1 = true) (λ _, False)).
  { subst body.
    eapply (hoare_tryCatch _ _ _ _ (λ σ1, Store.db σ1 = true)); [|by apply hoare_ret].
    rewrite Hx, Ho. cbn [negb].
    eapply (hoare_bind _ _ _ (λ _ _, True)); [by apply hoare_await|]. intros ?.
    eapply (hoare_bind _ _ _ (λ _ σ1, Store.db σ1 = true)); [by apply hoare_modify|].
    intros ?. apply keeps_hoare; [|done|done].
    eapply (keeps_bind _ _ _ (λ _, True)); [by apply keeps_await|]. intros chatResult _.
    eapply (keeps_bind _ _ _ (λ _, True)); [by apply keeps_await|].
    intros composerMetadataResult _.
    eapply (keeps_bind _ _ _ (λ _, True)); [by apply keeps_modify|]. intros ? _.
    eapply (keeps_bind _ _ _ (λ _, True)); [apply processChat_held|]. intros ? _.
    eapply (keeps_bind _ _ _ (λ _, True));
      [apply (composerPass_held w (World.globalDbExists w))|]. intros ? _.
    by apply keeps_gets. }
  specialize (Hb (Store.nullHandles σ) I).
  destruct (body (Store.nullHandles σ)) as [[l|e0] σ1]; [|done].
  rewrite (closeHandles_db_throws w σ1 e), (closeHandles_db_throws _ σ1 e) by done.
  eauto.
Qed.

(** C3 (as the code has it).  The per-workspace fetch of the export route
    returns a list or throws what a [close] of its finally clause throws: it
    throws when the workspace database has been opened and cannot be closed.
    It returns the empty list when the workspace database file is absent or
    opening it throws.  When the databases can be closed, it returns the
    empty list when a query of the workspace database throws, when the text
    of the chat row is not JSON, and, with the global database opened, when
    the text of the composer row is not JSON or a query of the global
    database throws.  When the global database file is absent or opening it
    throws, the failure is swallowed: the fetch does what it would do had the
    workspace no composer row, whatever the text of that row, and so returns
    the conversations of its chat tabs. *)
Theorem fetch_failure_semantics (w : World.t) (σ : Store.t) :
  ((∃ l σ', fetchConversationsForWorkspace w σ = (Ok l, σ'))
   ∨ ∃ e σ', fetchConversationsForWorkspace w σ = (Throw e, σ') ∧ closeError w e)
  ∧ (∀ e, World.dbExists w = true → World.dbOpen w = Ok tt → World.dbClose w = Throw e →
       fst (fetchConversationsForWorkspace w σ) = Throw e)
  ∧ (World.dbExists w = false ∨ (∃ e, World.dbOpen w = Throw e) →
     fst (fetchConversationsForWorkspace w σ) = Ok [])
  ∧ (closes w →
     (∃ e, World.chatRow w = Throw e) ∨ (∃ e, World.composerRow w = Throw e)
     ∨ (∃ message, World.chatRow w = Ok (Some (JsonMalformed message))) →
     fst (fetchConversationsForWorkspace w σ) = Ok [])
  ∧ (∀ value,
       closes w →
       World.composerRow w = Ok (Some value) → value ≠ JsonFalsy →
       World.globalDbExists w = true → World.globalDbOpen w = Ok tt →
       (∃ message, value = JsonMalformed message)
       ∨ (∃ e, World.globalBubbles w = Throw e)
       ∨ (∃ meta e, value = JsonValue meta
                    ∧ ComposerMetadata.allComposers meta ≠ []
                    ∧ World.composerBodies w
                        (map (λ it, "composerData:" +:+ ComposerMeta.composerId it)
                             (ComposerMetadata.allComposers meta)) = Throw e) →
       fst (fetchConversationsForWorkspace w σ) = Ok [])
  ∧ (∀ composerMetadataResult,
       World.composerRow w = Ok composerMetadataResult →
       World.globalDbExists w = false ∨ (∃ e, World.globalDbOpen w = Throw e) →
       fetchConversationsForWorkspace w σ
       = fetchConversationsForWorkspace (withoutComposerRow w) σ).
Proof.
  split; [|split; [|split; [|split; [|split]]]].
  - destruct (fetchConversationsForWorkspace w σ) as [[l|e] σ'] eqn:E; [left; eauto|].
    right. exists e, σ'. split; [done|]. by eapply fetch_throws.
  - intros e Hx Ho Hc.
    by destruct (fetch_close_throws w (Ok tt) σ e Hx Ho Hc) as (σ' & -> & _).
  - intros [H|[e H]].
    + by apply fetch_no_database.
    + by eapply fetch_open_throws.
  - intros Hc [[e H]|[[e H]|[message H]]].
    + by eapply fetch_chat_query_throws.
    + by eapply fetch_composer_query_throws.
    + by eapply fetch_chat_malformed.
  - intros value Hc. by apply fetch_global_failure.
  - intros r. apply fetch_without_global.
Qed.

(** ** File names of the archive *)

Lemma replaceFinalDot_cons (c d : ascii) (r : string) :
  replaceFinalDot (String c (String d r)) = String c (replaceFinalDot (String d r)).
Proof. done. Qed.

Lemma replaceUnsafe_safeChars (name : string) : safeChars (replaceUnsafe name).
Proof.
  unfold safeChars. induction name as [|c r IH]; cbn; [constructor|].
  constructor; [|exact IH]. by destruct (isUnsafeChar c) eqn:E.
Qed.

Lemma replaceFinalDot_safeChars (s : string) : safeChars s → safeChars (replaceFinalDot s).
Proof.
  unfold safeChars. induction s as [|c r IH]; [done|].
  intros H. apply Forall_cons in H as [Hc Hr]. destruct r as [|d r].
  - cbn. constructor; [|constructor]. by destruct (Ascii.eqb c ".").
  - rewrite replaceFinalDot_cons. cbn [list_ascii_of_string]. constructor; auto.
Qed.

Lemma replaceFinalDot_length (s : string) :
  String.length (replaceFinalDot s) = String.length s.
Proof.
  induction s as [|c r IH]; [done|]. destruct r as [|d r]; [done|].
  rewrite replaceFinalDot_cons. cbn [String.length]. by rewrite IH.
Qed.

Lemma replaceFinalDot_no_dot (s : string) : ¬ endsWithDot (replaceFinalDot s).
Proof.
  induction s as [|c r IH]; intros [q Hq].
  - by destruct q.
  - destruct r as [|d r].
    + cbn in Hq. destruct q as [|c' q]; cbn in Hq.
      * injection Hq as Hq. destruct (Ascii.eqb c ".") eqn:E; [done|].
        apply Ascii.eqb_neq in E. done.
      * injection Hq as _ Hq. by destruct q.
    + rewrite replaceFinalDot_cons in Hq. destruct q as [|c' q]; cbn in Hq.
      * injection Hq as _ Hq. by destruct r.
      * injection Hq as _ Hq. apply IH. exists q. exact Hq.
Qed.

Lemma replaceUnsafe_id (s : string) : safeChars s → replaceUnsafe s = s.
Proof.
  unfold safeChars. induction s as [|c r IH]; [done|].
  intros H. apply Forall_cons in H as [Hc Hr]. cbn. by rewrite Hc, IH.
Qed.

Lemma replaceFinalDot_id (s : string) : ¬ endsWithDot s → replaceFinalDot s = s.
Proof.
  induction s as [|c r IH]; [done|]. intros H. destruct r as [|d r].
  - cbn. destruct (Ascii.eqb c ".") eqn:E; [|done].
    apply Ascii.eqb_eq in E as ->. exfalso. apply H. by exists "".
  - rewrite replaceFinalDot_cons, IH; [done|].
    intros [q Hq]. apply H. exists (String c q). cbn. by rewrite Hq.
Qed.

Lemma replaceUnsafe_length (s : string) :
  String.length (replaceUnsafe s) = String.length s.
Proof. induction s as [|c r IH]; cbn; [done|]. by rewrite IH. Qed.

(** X1.  Whatever the name, the sanitized name holds no control character
    and none of the characters < > : / \ | ? * and the double quote, and it does not end in a
    dot. *)
Theorem sanitizeFilename_safe (name : string) :
  safeChars (sanitizeFilename name) ∧ ¬ endsWithDot (sanitizeFilename name).
Proof.
  split.
  - apply replaceFinalDot_safeChars, replaceUnsafe_safeChars.
  - apply replaceFinalDot_no_dot.
Qed.

(** X2.  Sanitizing keeps the length of the name, leaves a name alone that is
    safe already, and so changes nothing when it is applied a second time. *)
Theorem sanitizeFilename_idempotent (name : string) :
  String.length (sanitizeFilename name) = String.length name
  ∧ (safeChars name → ¬ endsWithDot name → sanitizeFilename name = name)
  ∧ sanitizeFilename (sanitizeFilename name) = sanitizeFilename name.
Proof.
  assert (F : ∀ s, safeChars s → ¬ endsWithDot s → sanitizeFilename s = s).
  { intros s H1 H2. unfold sanitizeFilename. by rewrite replaceUnsafe_id, replaceFinalDot_id. }
  split; [|split].
  - unfold sanitizeFilename. by rewrite replaceFinalDot_length, replaceUnsafe_length.
  - apply F.
  - apply F.
    + apply replaceFinalDot_safeChars, replaceUnsafe_safeChars.
    + apply replaceFinalDot_no_dot.
Qed.

(** ** What every returned conversation looks like *)

Lemma keeps_conj {A} (I1 I2 : Store.t → Prop) (m : M A) :
  keeps I1 m (λ _, True) → keeps I2 m (λ _, True) →
  keeps (λ σ, I1 σ ∧ I2 σ) m (λ _, True).
Proof.
  intros H1 H2 σ [Hσ1 Hσ2]. specialize (H1 σ Hσ1). specialize (H2 σ Hσ2).
  destruct (m σ) as [[a|] σ']; tauto.
Qed.

(** One step, remembering what a case distinction was made on. *)
Ltac keeps_step_eq :=
  lazymatch goal with
  | |- keeps _ (match ?x with _ => _ end) _ => destruct x eqn:?
  | |- keeps _ (if ?x then _ else _) _ => destruct x eqn:?
  | |- _ => keeps_step
  end.

Lemma orElse_nonempty (a : option string) (d : string) : d ≠ "" → orElse a d ≠ "".
Proof. intros H. unfold orElse. destruct a as [[|c s]|]; cbn; done. Qed.

Lemma chatTitleOf_nonempty (id : string) : chatTitleOf id ≠ "".
Proof. unfold chatTitleOf. by rewrite append_cons. Qed.

Lemma OrderedMap_set_elem {V} (j k : string) (v : V) (m : list (string * V)) :
  j ∈ (OrderedMap.set k v m).*1 ↔ j = k ∨ j ∈ m.*1.
Proof using Type.
  clear clock legacyDateParse.
  induction m as [|[k' v'] m IH]; cbn.
  - rewrite list_elem_of_singleton. split; [by left|]. intros [?|H]; [done|].
    by apply elem_of_nil in H.
  - destruct (String.eqb k' k) eqn:E; cbn.
    + apply String.eqb_eq in E as ->. rewrite !elem_of_cons. tauto.
    + rewrite !elem_of_cons, IH. tauto.
Qed.

Lemma OrderedMap_set_NoDup {V} (k : string) (v : V) (m : list (string * V)) :
  NoDup m.*1 → NoDup (OrderedMap.set k v m).*1.
Proof using Type.
  clear clock legacyDateParse.
  induction m as [|[k' v'] m IH]; cbn; intros H.
  - apply NoDup_singleton.
  - apply NoDup_cons in H as [Hk Hm].
    destruct (String.eqb k' k) eqn:E; cbn.
    + apply String.eqb_eq in E as ->. by apply NoDup_cons.
    + apply NoDup_cons. split; [|by apply IH].
      rewrite OrderedMap_set_elem. intros [->|?]; [|done].
      by rewrite String.eqb_refl in E.
Qed.

Section FiledPasses.
Let I := wellFiled.

Lemma wellFiled_set (k : string) (c : TempConversation.t) (σ : Store.t) :
  TempConversation.id c = k → TempConversation.title c ≠ "" →
  I σ → I (Store.setConversation k c σ).
Proof.
  intros Hid Ht [H1 H2]. split; cbn.
  - by apply OrderedMap_set_Forall.
  - by apply OrderedMap_set_NoDup.
Qed.

Lemma wellFiled_get (k : string) (c : TempConversation.t) (σ : Store.t) :
  I σ → OrderedMap.get k (Store.allConversationsMap σ) = Some c →
  TempConversation.id c = k ∧ TempConversation.title c ≠ "".
Proof. intros [H _] G. by apply (OrderedMap_get_Forall filed k c _ H). Qed.

Ltac filed_finish :=
  try done; try (by intros ? ?);
  try (intros σ Hσ; apply wellFiled_set; cbn;
       auto using orElse_nonempty, chatTitleOf_nonempty).

Lemma processTab_filed (tab : RawTab.t) : keeps I (processTab tab) (λ _, True).
Proof. unfold processTab. repeat keeps_step; filed_finish. Qed.

Lemma processChat_filed (chatResult : option (Json ChatData.t)) :
  keeps I (processChat chatResult) (λ _, True).
Proof. unfold processChat. repeat keeps_step; try done; apply processTab_filed. Qed.

Lemma processComposer_filed (composer : ComposerInstance.t) :
  keeps I (processComposer composer) (λ _, True).
Proof.
  unfold processComposer. repeat keeps_step; filed_finish.
  all: match goal with
       | G : I ?x, L : Some ?c = OrderedMap.get _ _ |- _ =>
           symmetry in L; destruct (wellFiled_get _ _ _ G L)
       end.
  all: auto using orElse_nonempty.
Qed.

Lemma processGlobalBubble_filed (allComposers : list ComposerMeta.t)
    (rawBubble : string * Json BubbleData.t) :
  keeps I (processGlobalBubble allComposers rawBubble) (λ _, True).
Proof.
  unfold processGlobalBubble. repeat keeps_step; filed_finish.
  all: match goal with
       | G : I ?x, L : Some ?c = OrderedMap.get _ _ |- _ =>
           symmetry in L; destruct (wellFiled_get _ _ _ G L)
       end.
  all: auto.
Qed.
End FiledPasses.
Lemma truthy_trim_not_white (s : string) :
  JsString.truthy (JsString.trim s) = true → JsString.allWhite s = false.
Proof. rewrite trim_truthy. by destruct (JsString.allWhite s). Qed.

Lemma legacyBubble_canonical (b : RawBubble.t) (m : ChatBubble.t) :
  legacyBubble b = Some m → canonical m.
Proof.
  unfold legacyBubble. destruct (JsString.truthy _) eqn:E; [|done].
  intros [= <-]. split; cbn; [by apply truthy_trim_not_white|]. set_solver.
Qed.

Lemma composerBubble_canonical (msg : ComposerMessage.t) (m : ChatBubble.t) :
  composerBubble msg = Some m → canonical m.
Proof.
  unfold composerBubble. destruct (JsString.truthy _) eqn:E; [|done].
  intros [= <-]. split; cbn; [by apply truthy_trim_not_white|]. set_solver.
Qed.

Lemma globalBubble_canonical (bubbleData : BubbleData.t) (keyId : option string)
    (m : ChatBubble.t) :
  globalBubble bubbleData keyId = Some m → canonical m.
Proof.
  unfold globalBubble. destruct (JsString.truthy _) eqn:E; [|done].
  intros [= <-]. split; cbn; [by apply truthy_trim_not_white|]. set_solver.
Qed.

Lemma Forall_omap {A B} (f : A → option B) (P : B → Prop) (l : list A) :
  (∀ a b, f a = Some b → P b) → Forall P (omap f l).
Proof.
  intros H. apply Forall_forall. intros b Hb.
  apply list_elem_of_omap in Hb as (a & _ & Ha). eauto.
Qed.

Section StagedPasses.
Let I := allStaged canonical.

Lemma allStaged_set (k : string) (l : list ChatBubble.t) (σ : Store.t) :
  Forall canonical l → I σ → I (Store.setBubbles k l σ).
Proof. intros Hl H. by apply map_Forall_insert_2. Qed.

Lemma allStaged_get (k : string) (σ : Store.t) :
  I σ → Forall canonical (default [] (Store.allBubblesMap σ !! k)).
Proof.
  intros H. destruct (Store.allBubblesMap σ !! k) as [l|] eqn:E; cbn; [|constructor].
  by apply (H k l).
Qed.

Ltac staged_finish :=
  try done; try (by intros ? ?);
  try (intros σ Hσ; apply allStaged_set; [|done]; subst;
       rewrite ?Forall_app;
       eauto using allStaged_get, Forall_omap, legacyBubble_canonical,
         composerBubble_canonical, globalBubble_canonical).

Lemma processTab_staged (tab : RawTab.t) : keeps I (processTab tab) (λ _, True).
Proof. unfold processTab. repeat keeps_step_eq; staged_finish. Qed.

Lemma processChat_staged (chatResult : option (Json ChatData.t)) :
  keeps I (processChat chatResult) (λ _, True).
Proof. unfold processChat. repeat keeps_step; try done; apply processTab_staged. Qed.

Lemma processComposer_staged (composer : ComposerInstance.t) :
  keeps I (processComposer composer) (λ _, True).
Proof. unfold processComposer. repeat keeps_step_eq; staged_finish. Qed.

Lemma processGlobalBubble_staged (allComposers : list ComposerMeta.t)
    (rawBubble : string * Json BubbleData.t) :
  keeps I (processGlobalBubble allComposers rawBubble) (λ _, True).
Proof.
  unfold processGlobalBubble. repeat keeps_step_eq; staged_finish.
Qed.
End StagedPasses.
(** The two routes return the consolidation of a consistent store. *)
Lemma routes_consistent (w : World.t) (σ0 σ' : Store.t) :
  (∀ l, fetchConversationsForWorkspace w σ0 = (Ok l, σ') →
     l = [] ∨ ∃ σ, consistent σ ∧ l = finalConversationsListExport σ)
  ∧ (∀ l status, GET w σ0 = (Ok (NextResponse_json (Conversations l) status), σ') →
     ∃ σ, consistent σ ∧ l = finalConversationsListExport σ).
Proof.
  assert (N : ∀ σ, consistent (Store.newCollections σ)).
  { intros σ. split; [constructor|split; [split; constructor|]].
    intros k l. cbn. by rewrite lookup_empty. }
  assert (C : ∀ r, keeps consistent (processChat r) (λ _, True)).
  { intros r. apply keeps_conj; [apply processChat_wellTimed|].
    apply keeps_conj; [apply processChat_filed|apply processChat_staged]. }
  assert (P : ∀ c, keeps consistent (processComposer c) (λ _, True)).
  { intros c. apply keeps_conj; [apply processComposer_wellTimed|].
    apply keeps_conj; [apply processComposer_filed|apply processComposer_staged]. }
  assert (B : ∀ l r, keeps consistent (processGlobalBubble l r) (λ _, True)).
  { intros l r. apply keeps_conj; [apply processGlobalBubble_wellTimed|].
    apply keeps_conj; [apply processGlobalBubble_filed|apply processGlobalBubble_staged]. }
  split.
  - intros l H.
    pose proof (fetchConversationsForWorkspace_returns consistent N
                  (λ _ _ H, H) (λ _ _ H, H) C P B w σ0 Logic.I) as R.
    by rewrite H in R.
  - intros l status H.
    pose proof (GET_returns consistent N (λ _ _ H, H) (λ _ _ H, H) C P B w σ0 Logic.I) as R.
    rewrite H in R. destruct R as [R|[R|(σ & Hσ & R)]]; try done.
    injection R as -> _. rewrite consolidate_agree. eauto.
Qed.

(** What either route returns has the property that holds of the empty list
    and of the consolidation of every consistent store. *)
Lemma routes_property (Φ : list ResponseConversation.t → Prop) :
  Φ [] → (∀ σ, consistent σ → Φ (finalConversationsListExport σ)) →
  (∀ w σ0 l σ', fetchConversationsForWorkspace w σ0 = (Ok l, σ') → Φ l)
  ∧ (∀ w σ0 l status σ',
       GET w σ0 = (Ok (NextResponse_json (Conversations l) status), σ') → Φ l).
Proof.
  intros H0 H. split.
  - intros w σ0 l σ' R.
    destruct (proj1 (routes_consistent w σ0 σ') l R) as [->|(σ & Hσ & ->)]; auto.
  - intros w σ0 l status σ' R.
    destruct (proj2 (routes_consistent w σ0 σ') l status R) as (σ & Hσ & ->). auto.
Qed.

(** X3.  No two conversations of a returned list have the same id. *)
Theorem conversation_ids_unique :
  (∀ w σ0 l σ', fetchConversationsForWorkspace w σ0 = (Ok l, σ') →
     NoDup (ResponseConversation.id <$> l))
  ∧ (∀ w σ0 l status σ',
       GET w σ0 = (Ok (NextResponse_json (Conversations l) status), σ') →
       NoDup (ResponseConversation.id <$> l)).
Proof.
  apply (routes_property (λ l, NoDup (ResponseConversation.id <$> l))).
  - constructor.
  - intros σ (_ & [Hf Hn] & _). unfold finalConversationsListExport.
    rewrite sort_perm.
    set (f := λ kv : string * TempConversation.t, consolidateExport σ kv.2).
    assert (S : ResponseConversation.id <$> omap f (Store.allConversationsMap σ)
                `sublist_of` (Store.allConversationsMap σ).*1).
    { clear Hn. induction Hf as [|[k c] m [Hid _] _ IH]; cbn; [constructor|].
      unfold f at 1. cbn [snd]. unfold consolidateExport.
      destruct (0 <? length _)%nat; cbn.
      - cbn in Hid. rewrite Hid. by constructor.
      - by constructor. }
    by eapply sublist_NoDup.
Qed.

(** X4.  Every returned conversation has a name that is not empty. *)
Theorem conversation_names_nonempty :
  (∀ w σ0 l σ', fetchConversationsForWorkspace w σ0 = (Ok l, σ') →
     ∀ c, c ∈ l → ResponseConversation.name c ≠ "")
  ∧ (∀ w σ0 l status σ',
       GET w σ0 = (Ok (NextResponse_json (Conversations l) status), σ') →
       ∀ c, c ∈ l → ResponseConversation.name c ≠ "").
Proof.
  apply (routes_property (λ l, ∀ c, c ∈ l → ResponseConversation.name c ≠ "")).
  - intros c Hc. by apply elem_of_nil in Hc.
  - intros σ (_ & [Hf _] & _) c Hc.
    apply finalConversationsListExport_elem in Hc
      as (k & tc & Hin & _ & Hn & _).
    rewrite Forall_forall in Hf. destruct (Hf _ Hin) as [_ Ht]. by rewrite Hn.
Qed.

(** X5.  Every message of every returned conversation has a content that is
    not all white space and carries the tag of one of the three sources. *)
Theorem messages_canonical :
  (∀ w σ0 l σ', fetchConversationsForWorkspace w σ0 = (Ok l, σ') →
     ∀ c, c ∈ l → Forall canonical (ResponseConversation.messages c))
  ∧ (∀ w σ0 l status σ',
       GET w σ0 = (Ok (NextResponse_json (Conversations l) status), σ') →
       ∀ c, c ∈ l → Forall canonical (ResponseConversation.messages c)).
Proof.
  apply (routes_property
           (λ l, ∀ c, c ∈ l → Forall canonical (ResponseConversation.messages c))).
  - intros c Hc. by apply elem_of_nil in Hc.
  - intros σ (_ & _ & Hs) c Hc.
    apply finalConversationsListExport_elem in Hc
      as (k & tc & _ & _ & _ & _ & _ & _ & -> & _).
    apply Forall_forall. intros m Hm.
    rewrite (finalBubbles_perm σ _) in Hm.
    apply firstOccurrences_elem in Hm as (_ & before & after & E & _).
    pose proof (allStaged_get (TempConversation.id tc) σ Hs) as F.
    fold (staged σ (TempConversation.id tc)) in F. rewrite E in F.
    rewrite Forall_app, Forall_cons in F. tauto.
Qed.
(** *** The order of the returned list *)

Section SortOn.
Context {A : Type} (cmp : A → A → Z) (D : A → Prop).
Hypothesis cmp_total : ∀ a b, D a → D b → 0 < cmp a b → cmp b a <= 0.
Hypothesis cmp_trans :
  ∀ a b c, D a → D b → D c → cmp a b <= 0 → cmp b c <= 0 → cmp a c <= 0.

Lemma insertSorted_sorted_on (x : A) (l : list A) :
  D x → Forall D l → StronglySorted (notAfter cmp) l →
  StronglySorted (notAfter cmp) (JsArray.insertSorted cmp x l).
Proof.
  intros Hx. induction l as [|y l IH]; intros HD Hl; cbn.
  - repeat constructor.
  - apply Forall_cons in HD as [Dy Dl]. apply StronglySorted_cons in Hl as [Hy Hl].
    destruct (0 <? cmp x y) eqn:E.
    + apply Z.ltb_lt in E. apply StronglySorted_cons. split; [|by apply IH].
      rewrite (insertSorted_perm cmp x l). constructor; [|done].
      by apply cmp_total.
    + apply Z.ltb_ge in E. apply StronglySorted_cons. split.
      * constructor; [done|]. rewrite Forall_forall in Hy, Dl.
        apply Forall_forall. intros z Hz.
        apply (cmp_trans x y z); [done|done|by apply Dl|done|by apply Hy].
      * by apply StronglySorted_cons.
Qed.

Lemma sort_sorted_on (l : list A) :
  Forall D l → StronglySorted (notAfter cmp) (JsArray.sort cmp l).
Proof.
  induction l as [|x l IH]; intros H; cbn; [constructor|].
  apply Forall_cons in H as [Hx Hl]. apply insertSorted_sorted_on; [done| |by apply IH].
  change (Forall D (JsArray.sort cmp l)). by rewrite sort_perm.
Qed.
End SortOn.

Lemma StronglySorted_pair {A} (R : A → A → Prop) (before mid after : list A) (a b : A) :
  StronglySorted R (before ++ a :: mid ++ b :: after) → R a b.
Proof.
  induction before as [|x before IH]; cbn; intros H.
  - apply StronglySorted_cons in H as [H _]. rewrite Forall_forall in H.
    apply H. rewrite elem_of_app, elem_of_cons. tauto.
  - apply StronglySorted_cons in H as [_ H]. auto.
Qed.

Lemma dateOfString_instant (s : string) :
  JsDate.isInstant s = true → ∃ t, dateOfString s = Some t.
Proof.
  unfold JsDate.isInstant, dateOfString. destruct (parseISO s) as [t|]; [|done].
  intros V. exists t. by apply clipZ_valid.
Qed.

(** X6.  A returned list is ordered by [lastUpdatedAt], newest first: of two
    conversations the later one in the list is not the more recently
    updated. *)
Theorem conversations_newest_first :
  (∀ w σ0 l σ', fetchConversationsForWorkspace w σ0 = (Ok l, σ') →
     ∀ before a mid b after, l = before ++ a :: mid ++ b :: after →
       ∃ ta tb, updatedTime a = Some ta ∧ updatedTime b = Some tb ∧ tb <= ta)
  ∧ (∀ w σ0 l status σ',
       GET w σ0 = (Ok (NextResponse_json (Conversations l) status), σ') →
       ∀ before a mid b after, l = before ++ a :: mid ++ b :: after →
         ∃ ta tb, updatedTime a = Some ta ∧ updatedTime b = Some tb ∧ tb <= ta).
Proof.
  apply (routes_property
    (λ l, ∀ before a mid b after, l = before ++ a :: mid ++ b :: after →
       ∃ ta tb, updatedTime a = Some ta ∧ updatedTime b = Some tb ∧ tb <= ta)).
  - intros before a mid b after H. by destruct before.
  - intros σ (Ht & _ & _) before a mid b after E.
    pose proof (wellTimed_final σ Ht) as W.
    set (D := λ c, ∃ t, updatedTime c = Some t).
    assert (HD : Forall D (finalConversationsListExport σ)).
    { eapply Forall_impl; [exact W|]. intros c [Hc _]. by apply dateOfString_instant. }
    set (cmp := λ a b : ResponseConversation.t,
           compareTimes (ResponseConversation.lastUpdatedAt a)
                        (ResponseConversation.lastUpdatedAt b)).
    assert (Hcmp : ∀ x y tx ty, updatedTime x = Some tx → updatedTime y = Some ty →
                     cmp x y = ty - tx).
    { intros x y tx ty Hx Hy. unfold cmp, compareTimes.
      unfold updatedTime in Hx, Hy. by rewrite Hx, Hy. }
    assert (S : StronglySorted (notAfter cmp) (finalConversationsListExport σ)).
    { unfold finalConversationsListExport. apply (sort_sorted_on cmp D).
      - intros x y [tx Hx] [ty Hy]. rewrite (Hcmp x y tx ty), (Hcmp y x ty tx) by done. lia.
      - intros x y z [tx Hx] [ty Hy] [tz Hz].
        rewrite (Hcmp x y tx ty), (Hcmp y z ty tz), (Hcmp x z tx tz) by done. lia.
      - unfold finalConversationsListExport in HD. by rewrite sort_perm in HD. }
    rewrite E in S, HD. apply StronglySorted_pair in S.
    rewrite Forall_app, Forall_cons, Forall_app, Forall_cons in HD.
    destruct HD as (_ & [ta Ha] & _ & [tb Hb] & _).
    exists ta, tb. split; [done|]. split; [done|].
    unfold notAfter in S. rewrite (Hcmp a b ta tb) in S by done. lia.
Qed.
(** *** The order of the messages *)

Lemma firstOccurrences_sublist (seen : list (Role * string)) (l : list ChatBubble.t) :
  firstOccurrences seen l `sublist_of` l.
Proof.
  revert seen. induction l as [|b l IH]; intros seen; cbn; [constructor|].
  case_bool_decide; by constructor.
Qed.

(** The staged messages up to a message that is kept: those that are kept
    before it, and those whose pair has been seen. *)
Lemma firstOccurrences_split (seen : list (Role * string)) (l before rest : list ChatBubble.t)
    (a : ChatBubble.t) :
  firstOccurrences seen l = before ++ a :: rest →
  ∃ s1 s2, l = s1 ++ a :: s2
           ∧ firstOccurrences seen s1 = before
           ∧ (bubbleKey a ∉ seen ++ (bubbleKey <$> before))
           ∧ rest = firstOccurrences (seen ++ (bubbleKey <$> before) ++ [bubbleKey a]) s2.
Proof using Type.
  clear clock legacyDateParse.
  revert seen before. induction l as [|x l IH]; intros seen before H; cbn in H.
  { by destruct before. }
  destruct (bool_decide (bubbleKey x ∈ seen)) eqn:Ex.
  - destruct (IH seen before H) as (s1 & s2 & -> & H1 & H2 & H3).
    exists (x :: s1), s2. split; [done|]. cbn. by rewrite Ex.
  - apply bool_decide_eq_false in Ex. destruct before as [|y before]; cbn in H.
    + injection H as -> <-. exists [], l. split; [done|]. split; [done|].
      split; [by rewrite app_nil_r|done].
    + injection H as -> H.
      destruct (IH _ before H) as (s1 & s2 & -> & H1 & H2 & H3).
      exists (y :: s1), s2. split; [done|]. cbn.
      rewrite (bool_decide_eq_false_2 _ Ex), H1. split; [done|].
      rewrite <- !(assoc_L (++)) in H2, H3. cbn in H2, H3. done.
Qed.

(** A staged message has been seen or is kept. *)
Lemma firstOccurrences_covers (seen : list (Role * string)) (l : list ChatBubble.t)
    (x : ChatBubble.t) :
  x ∈ l → bubbleKey x ∈ seen ++ (bubbleKey <$> firstOccurrences seen l).
Proof using Type.
  clear clock legacyDateParse.
  revert seen. induction l as [|y l IH]; intros seen H; [by apply elem_of_nil in H|].
  cbn. destruct (bool_decide (bubbleKey y ∈ seen)) eqn:Ey.
  - apply bool_decide_eq_true in Ey.
    apply elem_of_cons in H as [->|H]; [|by apply IH].
    apply elem_of_app. by left.
  - apply elem_of_cons in H as [->|H].
    + cbn. apply elem_of_app. right. left.
    + specialize (IH (seen ++ [bubbleKey y]) H).
      rewrite <- (assoc_L (++)) in IH. exact IH.
Qed.

(** X7.  Without an order map, or with an empty one, the final messages of a
    conversation stand in staging order: they are a subsequence of the
    staged messages, and when [a] stands before [b] among them, the first
    staged message with the role and content of [a] is [a] and stands before
    the first one with the role and content of [b], which is [b]. *)
Theorem ordering_without_hints (σ : Store.t) (id : string) :
  (∀ headerMap, Store.headerOrderMap σ !! id = Some headerMap → size headerMap = 0%nat) →
  finalBubbles σ id `sublist_of` staged σ id
  ∧ ∀ before a mid b after,
      finalBubbles σ id = before ++ a :: mid ++ b :: after →
      ∃ s1 s2 s3, staged σ id = s1 ++ a :: s2 ++ b :: s3
                  ∧ (bubbleKey a ∉ bubbleKey <$> s1)
                  ∧ (bubbleKey b ∉ bubbleKey <$> (s1 ++ a :: s2)).
Proof.
  intros H.
  assert (E : finalBubbles σ id = firstOccurrences [] (staged σ id)).
  { rewrite <- uniqueBubbles_firstOccurrences. unfold finalBubbles, orderBubbles, staged.
    destruct (Store.headerOrderMap σ !! id) as [headerMap|]; [|done].
    by rewrite (H headerMap eq_refl). }
  split; [rewrite E; apply firstOccurrences_sublist|].
  intros before a mid b after F. rewrite E in F.
  apply firstOccurrences_split in F as (s1 & r & Hs & H1 & H2 & H3).
  symmetry in H3. apply firstOccurrences_split in H3 as (s2 & s3 & -> & H4 & H5 & _).
  exists s1, s2, s3. split; [done|].
  assert (C1 : ∀ x, x ∈ s1 → bubbleKey x ∈ bubbleKey <$> before).
  { intros x Hx. pose proof (firstOccurrences_covers [] s1 x Hx) as C.
    by rewrite H1 in C. }
  assert (C2 : ∀ x, x ∈ s2 →
                 bubbleKey x ∈ (bubbleKey <$> before) ++ [bubbleKey a] ++ (bubbleKey <$> mid)).
  { intros x Hx.
    pose proof (firstOccurrences_covers
                  ([] ++ (bubbleKey <$> before) ++ [bubbleKey a]) s2 x Hx) as C.
    rewrite H4 in C.
    by rewrite <- !(assoc_L (++)) in C. }
  cbn in H2, H5. split.
  - intros Ha. apply H2. apply list_elem_of_fmap in Ha as (x & -> & Hx). by apply C1.
  - intros Hb. apply H5. rewrite <- !(assoc_L (++)). cbn.
    apply list_elem_of_fmap in Hb as (x & Ex & Hx). rewrite Ex.
    apply elem_of_app in Hx as [Hx|Hx].
    + apply elem_of_app. left. by apply C1.
    + apply elem_of_cons in Hx as [->|Hx].
      * apply elem_of_app. right. left.
      * by apply C2.
Qed.

Lemma orderMapFrom_lookup (headers : list Header.t) (n : nat) (acc : gmap string nat)
    (k : string) (i : nat) :
  orderMapFrom headers n acc !! k = Some i ↔
  (∃ j, (Header.bubbleId <$> headers) !! j = Some k ∧ i = (n + j)%nat
        ∧ ∀ j', (j < j')%nat → (Header.bubbleId <$> headers) !! j' ≠ Some k)
  ∨ (k ∉ Header.bubbleId <$> headers) ∧ acc !! k = Some i.
Proof using Type.
  clear clock legacyDateParse.
  revert n acc. induction headers as [|h r IH]; intros n acc; cbn [orderMapFrom].
  - cbn. split.
    + intros H. right. split; [apply not_elem_of_nil|done].
    + intros [(j & Hj & _)|[_ H]]; [done|done].
  - rewrite IH. cbn [fmap list_fmap]. split.
    + intros [(j & Hj & -> & Hlast)|[Hout Hacc]].
      * left. exists (S j). split; [done|]. split; [lia|].
        intros [|j'] Hlt; [lia|]. cbn. apply Hlast. lia.
      * destruct (decide (Header.bubbleId h = k)) as [Hk|Hk].
        -- rewrite Hk, lookup_insert_eq in Hacc. injection Hacc as <-.
           left. exists 0%nat. split; [cbn; by rewrite Hk|]. split; [lia|].
           intros [|j'] Hlt; [lia|]. cbn. intros Hj'. apply Hout.
           by eapply list_elem_of_lookup_2.
        -- rewrite lookup_insert_ne in Hacc by done. right. split; [|done].
           rewrite elem_of_cons. intros [?|?]; [congruence|done].
    + intros [(j & Hj & -> & Hlast)|[Hout Hacc]].
      * destruct j as [|j].
        -- cbn in Hj. injection Hj as Hk. right. split.
           ++ intros Hin. apply list_elem_of_lookup_1 in Hin as [j' Hj'].
              apply (Hlast (S j')); [lia|done].
           ++ rewrite Hk, lookup_insert_eq. f_equal. lia.
        -- left. exists j. split; [done|]. split; [lia|].
           intros j' Hlt. apply (Hlast (S j')). lia.
      * rewrite elem_of_cons in Hout. right. split; [tauto|].
        rewrite lookup_insert_ne; [done|]. intros E. apply Hout. by left.
Qed.

Lemma orderMapFrom_is_Some (headers : list Header.t) (n : nat) (acc : gmap string nat)
    (k : string) :
  k ∈ Header.bubbleId <$> headers → is_Some (orderMapFrom headers n acc !! k).
Proof using Type.
  clear clock legacyDateParse.
  revert n acc. induction headers as [|h r IH]; intros n acc Hin;
    [by apply elem_of_nil in Hin|].
  cbn [orderMapFrom].
  destruct (decide (k ∈ Header.bubbleId <$> r)) as [Hr|Hr]; [by apply IH|].
  cbn in Hin. apply elem_of_cons in Hin as [->|Hin]; [|done].
  exists n. apply orderMapFrom_lookup. right. split; [done|]. apply lookup_insert_eq.
Qed.

(** X8.  The order map of a header list gives a bubble id the position of
    its last header: a later header of the same id overwrites the earlier
    one.  Every id of the list has a position, so the map of a list that is
    not empty is not empty. *)
Theorem orderMapFrom_last_wins (headers : list Header.t) :
  (∀ k i, orderMapFrom headers 0 ∅ !! k = Some i ↔
          (Header.bubbleId <$> headers) !! i = Some k
          ∧ ∀ j, (i < j)%nat → (Header.bubbleId <$> headers) !! j ≠ Some k)
  ∧ (∀ k, is_Some (orderMapFrom headers 0 ∅ !! k) ↔ k ∈ Header.bubbleId <$> headers)
  ∧ (headers ≠ [] → (0 < size (orderMapFrom headers 0 ∅))%nat).
Proof using Type.
  clear clock legacyDateParse.
  assert (L : ∀ k i, orderMapFrom headers 0 ∅ !! k = Some i ↔
          (Header.bubbleId <$> headers) !! i = Some k
          ∧ ∀ j, (i < j)%nat → (Header.bubbleId <$> headers) !! j ≠ Some k).
  { intros k i. rewrite orderMapFrom_lookup. split.
    - intros [(j & Hj & -> & Hlast)|[_ H]]; [done|]. by rewrite lookup_empty in H.
    - intros [Hi Hlast]. left. by exists i. }
  assert (S : ∀ k, is_Some (orderMapFrom headers 0 ∅ !! k)
                   ↔ k ∈ Header.bubbleId <$> headers).
  { intros k. split.
    - intros [i Hi]. apply L in Hi as [Hi _]. by eapply list_elem_of_lookup_2.
    - apply orderMapFrom_is_Some. }
  split; [exact L|]. split; [exact S|].
  intros Hne. destruct headers as [|h r]; [done|].
  destruct (S (Header.bubbleId h)) as [_ [i Hi]]; [left|].
  destruct (decide (size (orderMapFrom (h :: r) 0 ∅) = 0%nat)) as [E|E]; [|lia].
  apply map_size_empty_inv in E. rewrite E in Hi. by rewrite lookup_empty in Hi.
Qed.
(** ** The answers of the tabs route *)

(** The answers of the tabs route, and when it answers 404. *)
Lemma GET_answers (w : World.t) (σ : Store.t) :
  (∃ r σ', GET w σ = (Ok r, σ')
     ∧ (r = serverError ∨ r = notFound ∨ ∃ l, r = NextResponse_json (Conversations l) 200)
     ∧ (r = notFound ↔
        World.dbOpen w = Ok tt ∧ World.chatRow w = Ok None ∧ World.composerRow w = Ok None))
  ∨ ∃ e σ', GET w σ = (Throw e, σ') ∧ closeError w e.
Proof.
  pose proof (GET_returns (λ _, True) (λ _, I) (λ _ _ _, I) (λ _ _ _, I)) as R.
  assert (T : ∀ A (m : M A), keeps (λ _, True) m (λ _, True)).
  { intros A m σ1 _. by destruct (m σ1) as [[a|] σ2]. }
  specialize (R (λ _, T _ _) (λ _, T _ _) (λ _ _, T _ _) w σ I).
  assert (N : hoare (λ _, True) (GET w)
                (λ r _, r = notFound →
                   World.dbOpen w = Ok tt ∧ World.chatRow w = Ok None
                   ∧ World.composerRow w = Ok None)
                (λ _, ¬ closes w)).
  { unfold GET.
    eapply hoare_bind; [apply (hoare_modify _ _ (λ _ _, True)); done|]. intros ?.
    apply (hoare_finally_close w _ _
             (λ r, r = notFound →
                   World.dbOpen w = Ok tt ∧ World.chatRow w = Ok None
                   ∧ World.composerRow w = Ok None)).
    eapply (hoare_tryCatch _ _ _ _ (λ _, True)); [|by apply hoare_ret].
    eapply (hoare_bind _ _ _ (λ a _, World.dbOpen w = Ok a)).
    { apply hoare_await; [by intros|done]. }
    intros []. apply hoare_pure. intros H1. hoare_skip.
    eapply (hoare_bind _ _ _ (λ a _, World.chatRow w = Ok a)).
    { apply hoare_await; [by intros|done]. }
    intros chatResult. apply hoare_pure. intros H2.
    eapply (hoare_bind _ _ _ (λ a _, World.composerRow w = Ok a)).
    { apply hoare_await; [by intros|done]. }
    intros composerMetadataResult. apply hoare_pure. intros H3.
    do 4 hoare_skip.
    destruct chatResult, composerMetadataResult; cbn [isRow negb andb];
      rewrite ?andb_false_r; try destruct (_ =? _)%nat; cbn [andb];
      apply hoare_ret; intros; done. }
  specialize (N σ I).
  destruct (GET w σ) as [[r|e] σ'] eqn:E.
  2: { right. exists e, σ'. split; [done|]. by eapply GET_throws. }
  left. exists r, σ'. split; [done|]. split.
  { destruct R as [R|[R|(σ1 & _ & R)]]; eauto. }
  split; [exact N|]. intros (H1 & H2 & H3).
  revert E. unfold GET, bind, modify, tryFinally, tryCatch, await.
  rewrite H1, H2, H3. cbn -[closeHandles].
  destruct (closeHandles w _) as [[u|e] σ1]; by intros [= <- _].
Qed.

(** When the workspace database cannot be closed, the tabs route throws what
    [close] throws, whatever its body did, and it does not come to close the
    global database. *)
Lemma GET_close_throws (w : World.t) (r : Exc unit) (σ : Store.t) (e : Thrown) :
  World.dbOpen w = Ok tt → World.dbClose w = Throw e →
  ∃ σ', GET w σ = (Throw e, σ') ∧ GET (withGlobalClose r w) σ = (Throw e, σ')
        ∧ Store.db σ' = true.
Proof.
  intros Ho Hc. unfold GET. rewrite !bind_modify. unfold tryFinally.
  change (World.dbOpen (withGlobalClose r w)) with (World.dbOpen w).
  change (World.chatRow (withGlobalClose r w)) with (World.chatRow w).
  change (World.composerRow (withGlobalClose r w)) with (World.composerRow w).
  change (openGlobalDb (withGlobalClose r w)) with (openGlobalDb w).
  change (processComposerData (withGlobalClose r w)) with (processComposerData w).
  set (body := tryCatch _ _).
  assert (Hb : hoare (λ _, True) body (λ _ σ1, Store.db σ1 = true) (λ _, False)).
  { subst body.
    eapply (hoare_tryCatch _ _ _ _ (λ σ1, Store.db σ1 = true)); [|by apply hoare_ret].
    rewrite Ho.
    eapply (hoare_bind _ _ _ (λ _ _, True)); [by apply hoare_await|]. intros ?.
    eapply (hoare_bind _ _ _ (λ _ σ1, Store.db σ1 = true)); [by apply hoare_modify|].
    intros ?. apply keeps_hoare; [|done|done].
    eapply (keeps_bind _ _ _ (λ _, True)); [by apply keeps_await|]. intros chatResult _.
    eapply (keeps_bind _ _ _ (λ _, True)); [by apply keeps_await|].
    intros composerMetadataResult _.
    eapply (keeps_bind _ _ _ (λ _, True)); [by apply keeps_modify|]. intros ? _.
    eapply (keeps_bind _ _ _ (λ _, True)); [apply processChat_held|]. intros ? _.
    eapply (keeps_bind _ _ _ (λ _, True)); [apply (composerPass_held w true)|]. intros ? _.
    eapply (keeps_bind _ _ _ (λ _, True)); [by apply keeps_gets|]. intros l _.
    destruct (_ && _); by apply keeps_ret. }
  specialize (Hb (Store.nullHandles σ) I).
  destruct (body (Store.nullHandles σ)) as [[l|e0] σ1]; [|done].
  rewrite (closeHandles_db_throws w σ1 e), (closeHandles_db_throws _ σ1 e) by done.
  eauto.
Qed.

(** X9.  The tabs route answers 200 with a list of conversations, 404 or 500,
    or it throws what a [close] of its finally clause throws, which it does
    when the workspace database has been opened and cannot be closed; when
    both databases can be closed it does not throw.  It answers 404 exactly
    when the workspace database opens and neither the chat row nor the
    composer row is there; a row that is there and yields no conversation
    gives 200 with an empty list. *)
Theorem GET_status (w : World.t) (σ : Store.t) :
  ((∃ r σ', GET w σ = (Ok r, σ')
      ∧ (r = serverError ∨ r = notFound
         ∨ ∃ l, r = NextResponse_json (Conversations l) 200)
      ∧ (r = notFound ↔
         World.dbOpen w = Ok tt ∧ World.chatRow w = Ok None
         ∧ World.composerRow w = Ok None))
   ∨ ∃ e σ', GET w σ = (Throw e, σ') ∧ closeError w e)
  ∧ (closes w → ∃ r σ', GET w σ = (Ok r, σ'))
  ∧ (∀ e, World.dbOpen w = Ok tt → World.dbClose w = Throw e → fst (GET w σ) = Throw e).
Proof.
  split; [apply GET_answers|]. split.
  - intros [H1 H2].
    destruct (GET_answers w σ) as [(r & σ' & E & _)|(e & σ' & _ & [E|E])]; [eauto| |];
      congruence.
  - intros e Ho Hc. by destruct (GET_close_throws w (Ok tt) σ e Ho Hc) as (σ' & -> & _).
Qed.

(** *** The two routes side by side *)

Lemma bind_sameBody {A} (m : M A) (k : A → M (list ResponseConversation.t))
    (k' : A → M Response) (σ : Store.t) :
  (∀ a σ', sameBody (k a σ') (k' a σ')) → sameBody (bind m k σ) (bind m k' σ).
Proof. intros H. unfold bind. destruct (m σ) as [[a|] σ']; [apply H|done]. Qed.

(** X10.  For a workspace whose two database files exist, the tabs route and
    the fetch of the export route end in the same state and tell the same:
    the tabs route answers 200 with the very list the fetch returns, or it
    answers 404 or 500 and the fetch returns the empty list; or a [close]
    throws, and both throw what it throws. *)
Theorem routes_agree (w : World.t) (σ : Store.t) :
  World.dbExists w = true → World.globalDbExists w = true →
  (∃ l r σ', fetchConversationsForWorkspace w σ = (Ok l, σ')
             ∧ GET w σ = (Ok r, σ') ∧ sameAnswer l r)
  ∨ ∃ e σ', fetchConversationsForWorkspace w σ = (Throw e, σ')
            ∧ GET w σ = (Throw e, σ') ∧ closeError w e.
Proof.
  intros H1 H2.
  assert (S : sameBody (fetchConversationsForWorkspace w σ) (GET w σ)).
  { unfold fetchConversationsForWorkspace, GET. rewrite H1, H2. cbn [negb].
    apply bind_sameBody. intros _ σ0.
    assert (B : ∀ (f : M (list ResponseConversation.t)) (g : M Response) σ1,
               sameBody (f σ1) (g σ1) →
               sameBody (tryFinally (tryCatch f (ret [])) (closeHandles w) σ1)
                        (tryFinally (tryCatch g (ret serverError)) (closeHandles w) σ1)).
    { intros f g σ1. unfold sameBody, tryFinally, tryCatch, ret.
      destruct (f σ1) as [[l|e1] σf], (g σ1) as [[r|e2] σg]; cbn [fst snd];
        intros [-> H]; try done.
      all: destruct (closeHandles w σg) as [[u|e] σ2]; cbn [fst snd]; split; try done.
      right. split; [done|by right]. }
    apply B. clear B.
    do 6 (apply bind_sameBody; intros ? ?).
    apply bind_sameBody. intros _ σ1.
    unfold bind, gets, ret. split; [by destruct (_ && _)|].
    destruct (_ && _) eqn:E; cbn.
    - right. split; [|by left].
      apply andb_prop in E as [E _]. apply andb_prop in E as [E _].
      apply Nat.eqb_eq in E. rewrite <- consolidate_agree.
      by destruct (finalConversationsListTabs σ1).
    - left. by rewrite consolidate_agree. }
  destruct S as [S1 S2].
  destruct (fetchConversationsForWorkspace w σ) as [[l|e] σ'] eqn:F,
           (GET w σ) as [[r|e'] σ''] eqn:G; cbn in S1, S2; try done; subst σ''.
  - left. by exists l, r, σ'.
  - right. subst e'. exists e, σ'. split; [done|]. split; [done|]. by eapply fetch_throws.
Qed.

(** ** The scan of the global store, record by record *)

Lemma bind_ext {A B} (m : M A) (k k' : A → M B) (σ : Store.t) :
  (∀ a σ', k a σ' = k' a σ') → bind m k σ = bind m k' σ.
Proof. intros H. unfold bind. by destruct (m σ) as [[a|] σ']. Qed.

Lemma processGlobalBubble_inert (allComposers : list ComposerMeta.t)
    (rawBubble : string * Json BubbleData.t) (σ : Store.t) :
  inert rawBubble = true → processGlobalBubble allComposers rawBubble σ = (Ok tt, σ).
Proof.
  intros H. apply processGlobalBubble_skip. intros bubbleData composerId Hv Hk _.
  unfold inert in H. rewrite Hv in H.
  change (keyComposerId rawBubble.1 = Some composerId) in Hk. rewrite Hk in H.
  cbn in H. by rewrite orb_false_r in H.
Qed.

Lemma scan_without_inert (allComposers : list ComposerMeta.t)
    (rows : list (string * Json BubbleData.t)) (σ : Store.t) :
  forEach rows (processGlobalBubble allComposers) σ
  = forEach (filter (λ r, negb (inert r)) rows) (processGlobalBubble allComposers) σ.
Proof.
  revert σ. induction rows as [|row rows IH]; intros σ; [done|].
  rewrite filter_cons. destruct (inert row) eqn:E; cbn [negb].
  - rewrite decide_False by (intros []). cbn [forEach]. unfold bind at 1.
    rewrite processGlobalBubble_inert by done. apply IH.
  - rewrite decide_True by done. cbn [forEach]. apply bind_ext. intros _ σ'. apply IH.
Qed.

Lemma processComposerData_without_inert (w : World.t)
    (value : Json ComposerMetadata.t) (σ : Store.t) :
  processComposerData w value σ = processComposerData (dropInert w) value σ.
Proof.
  unfold processComposerData.
  apply bind_ext. intros globalDb σ1. destruct globalDb; [|done].
  apply bind_ext. intros meta σ2. apply bind_ext. intros _ σ3.
  change (World.composerBodies (dropInert w)) with (World.composerBodies w).
  apply bind_ext. intros _ σ4.
  change (World.globalBubbles (dropInert w))
    with (match World.globalBubbles w with
          | Ok rows => Ok (filter (λ r, negb (inert r)) rows)
          | Throw e => Throw e
          end).
  unfold bind, await. destruct (World.globalBubbles w) as [rows|]; [|done].
  apply scan_without_inert.
Qed.

(** X11.  A record of the global store that cannot be parsed, whose key has
    no composer part or whose text is blank is skipped without a trace, and
    the scan goes on: neither route can tell the global store from the same
    store without such records. *)
Theorem scan_skips_inert_records :
  (∀ allComposers rawBubble σ,
     inert rawBubble = true → processGlobalBubble allComposers rawBubble σ = (Ok tt, σ))
  ∧ (∀ w σ, fetchConversationsForWorkspace w σ
            = fetchConversationsForWorkspace (dropInert w) σ)
  ∧ (∀ w σ, GET w σ = GET (dropInert w) σ).
Proof.
  split; [apply processGlobalBubble_inert|]. split.
  - intros w σ. unfold fetchConversationsForWorkspace.
    change (World.dbExists (dropInert w)) with (World.dbExists w).
    change (World.dbOpen (dropInert w)) with (World.dbOpen w).
    change (World.chatRow (dropInert w)) with (World.chatRow w).
    change (World.composerRow (dropInert w)) with (World.composerRow w).
    change (World.globalDbExists (dropInert w)) with (World.globalDbExists w).
    apply bind_ext. intros _ σ0. apply tryFinally_ext, tryCatch_ext.
    destruct (negb (World.dbExists w)); [done|].
    do 6 (apply bind_ext; intros ? ?). apply bind_ext_l.
    destruct a2 as [[| |meta]|]; try done.
    all: apply bind_ext; intros _ σ1; apply processComposerData_without_inert.
  - intros w σ. unfold GET.
    change (World.dbOpen (dropInert w)) with (World.dbOpen w).
    change (World.chatRow (dropInert w)) with (World.chatRow w).
    change (World.composerRow (dropInert w)) with (World.composerRow w).
    apply bind_ext. intros _ σ0. apply tryFinally_ext, tryCatch_ext.
    do 6 (apply bind_ext; intros ? ?). apply bind_ext_l.
    destruct a2 as [[| |meta]|]; try done.
    all: apply bind_ext; intros _ σ1; apply processComposerData_without_inert.
Qed.
(** ** How the three passes stage messages *)

Lemma hoare_pure_l {A} (φ : Prop) (m : M A) (P : Store.t → Prop)
    (Q : A → Store.t → Prop) (E : Store.t → Prop) :
  (φ → hoare P m Q E) → hoare (λ σ, φ ∧ P σ) m Q E.
Proof. intros H σ [Hφ Hσ]. by apply H. Qed.

Lemma invariant_hoare {A} (I : Store.t → Prop) (m : M A) :
  keeps I m (λ _, True) → hoare I m (λ _, I) I.
Proof.
  intros H σ Hσ. specialize (H σ Hσ). destruct (m σ) as [[a|] σ']; tauto.
Qed.

Lemma staged_setBubbles (k j : string) (l : list ChatBubble.t) (σ : Store.t) :
  staged (Store.setBubbles k l σ) j = if decide (j = k) then l else staged σ j.
Proof.
  unfold staged. cbn. destruct (decide (j = k)) as [->|H].
  - by rewrite lookup_insert_eq.
  - by rewrite lookup_insert_ne.
Qed.

(** X12.  The chat-tab pass files the messages of a tab under the tab id in
    place of whatever was staged there; the composer pass appends the
    messages of a composer body to what is staged under the composer id.
    Neither touches the staging of another id, also when it throws. *)
Theorem staging_discipline :
  (∀ tab σ,
     let '(_, σ') := processTab tab σ in
     staged σ' (RawTab.tabId tab) = omap legacyBubble (default [] (RawTab.bubbles tab))
     ∧ stagedElsewhere (RawTab.tabId tab) σ σ')
  ∧ (∀ composer σ,
       let '(_, σ') := processComposer composer σ in
       staged σ' (ComposerInstance.composerId composer)
       = staged σ (ComposerInstance.composerId composer)
         ++ omap composerBubble (messagesOf composer)
       ∧ stagedElsewhere (ComposerInstance.composerId composer) σ σ').
Proof.
  split.
  - intros tab σ.
    set (Post := λ σ', staged σ' (RawTab.tabId tab)
                       = omap legacyBubble (default [] (RawTab.bubbles tab))
                       ∧ stagedElsewhere (RawTab.tabId tab) σ σ').
    assert (H : hoare (λ s, s = σ) (processTab tab) (λ _, Post) Post).
    { unfold processTab. eapply (hoare_bind _ _ _ (λ _, Post)).
      - apply hoare_modify. intros s ->. split.
        + rewrite staged_setBubbles. by rewrite decide_True.
        + intros j Hj. rewrite staged_setBubbles. by rewrite decide_False.
      - intros _. apply invariant_hoare. repeat keeps_step; try done; by intros ? ?. }
    specialize (H σ eq_refl). by destruct (processTab tab σ) as [[[]|] σ'].
  - intros composer σ.
    set (cid := ComposerInstance.composerId composer).
    set (Post := λ σ', staged σ' cid = staged σ cid ++ omap composerBubble (messagesOf composer)
                       ∧ stagedElsewhere cid σ σ').
    assert (H : hoare (λ s, s = σ) (processComposer composer) (λ _, Post) Post).
    { unfold processComposer. fold cid.
      eapply (hoare_bind _ _ _ (λ a s, a = staged σ cid ∧ s = σ)).
      { apply hoare_gets. by intros s ->. }
      intros existingBubbles. apply hoare_pure_l. intros ->.
      eapply (hoare_bind _ _ _ (λ _ s, Store.allBubblesMap s = Store.allBubblesMap σ)).
      { destruct (ComposerInstance.fullConversationHeadersOnly composer) as [[|? ?]|].
        - apply hoare_ret. by intros s ->.
        - apply hoare_modify. by intros s ->.
        - apply hoare_ret. by intros s ->. }
      intros _. eapply (hoare_bind _ _ _ (λ _, Post)).
      - apply hoare_modify. intros s Hs. split.
        + rewrite staged_setBubbles. by rewrite decide_True.
        + intros j Hj. rewrite staged_setBubbles. rewrite decide_False by done.
          unfold staged. by rewrite Hs.
      - intros _. apply invariant_hoare. repeat keeps_step; try done; by intros ? ?. }
    specialize (H σ eq_refl). by destruct (processComposer composer σ) as [[[]|] σ'].
Qed.

(** X13.  A record of the global store of a composer of the workspace, with
    a text that is not blank, adds exactly one message, at the end of what is staged for its
    composer; the scan of the record does not throw and leaves alone the
    staging and the conversation of every other id, the order maps and the
    membership set. *)
Theorem global_bubble_staged (allComposers : list ComposerMeta.t) (key : string)
    (bubbleData : BubbleData.t) (composerId : string) (bubble : ChatBubble.t)
    (σ : Store.t) :
  keyComposerId key = Some composerId →
  composerId ∈ Store.workspaceComposerIds σ →
  globalBubble bubbleData (JsString.split ":" key !! 2%nat) = Some bubble →
  ∃ σ', processGlobalBubble allComposers (key, JsonValue bubbleData) σ = (Ok tt, σ')
        ∧ staged σ' composerId = staged σ composerId ++ [bubble]
        ∧ stagedElsewhere composerId σ σ'
        ∧ (∀ j, j ≠ composerId →
             OrderedMap.get j (Store.allConversationsMap σ')
             = OrderedMap.get j (Store.allConversationsMap σ))
        ∧ Store.headerOrderMap σ' = Store.headerOrderMap σ
        ∧ Store.workspaceComposerIds σ' = Store.workspaceComposerIds σ.
Proof.
  intros Hk Hin Hg.
  set (Post := λ σ', staged σ' composerId = staged σ composerId ++ [bubble]
        ∧ stagedElsewhere composerId σ σ'
        ∧ (∀ j, j ≠ composerId →
             OrderedMap.get j (Store.allConversationsMap σ')
             = OrderedMap.get j (Store.allConversationsMap σ))
        ∧ Store.headerOrderMap σ' = Store.headerOrderMap σ
        ∧ Store.workspaceComposerIds σ' = Store.workspaceComposerIds σ).
  assert (Pset : ∀ c s, Post s → Post (Store.setConversation composerId c s)).
  { intros c s (H1 & H2 & H3 & H4 & H5). repeat split; try done.
    intros j Hj. cbn. rewrite OrderedMap_get_set_ne by done. by apply H3. }
  assert (H : hoare (λ s, s = σ)
                (processGlobalBubble allComposers (key, JsonValue bubbleData))
                (λ _, Post) (λ _, False)).
  { unfold processGlobalBubble. eapply (hoare_tryCatch _ _ _ _ Post).
    2: { by apply hoare_ret. }
    cbn [fst snd].
    eapply (hoare_bind _ _ _ (λ a s, a = bubbleData ∧ s = σ)); [by apply hoare_ret|].
    intros a. apply hoare_pure_l. intros ->.
    change (JsString.split ":" key !! 1%nat) with (keyComposerId key). rewrite Hk.
    eapply (hoare_bind _ _ _ (λ known s, known = true ∧ s = σ)).
    { apply hoare_gets. intros s ->. split; [by apply bool_decide_eq_true_2|done]. }
    intros known. apply hoare_pure_l. intros ->. cbn [negb]. rewrite Hg.
    eapply (hoare_bind _ _ _ (λ a s, a = staged σ composerId ∧ s = σ)).
    { apply hoare_gets. by intros s ->. }
    intros existingBubbles. apply hoare_pure_l. intros ->.
    eapply (hoare_bind _ _ _ (λ _, Post)).
    - apply hoare_modify. intros s ->. repeat split; try done.
      + rewrite staged_setBubbles. by rewrite decide_True.
      + intros j Hj. rewrite staged_setBubbles. by rewrite decide_False.
    - intros _. apply invariant_hoare.
      repeat keeps_step; try done; try (by intros ? ?); auto. }
  specialize (H σ eq_refl).
  destruct (processGlobalBubble allComposers (key, JsonValue bubbleData) σ)
    as [[[]|] σ']; [|done].
  by exists σ'.
Qed.

(** ** The export route: the Markdown of a conversation *)

Lemma append_assoc (a b c : string) : (a +:+ b) +:+ c = a +:+ b +:+ c.
Proof using Type.
  clear clock legacyDateParse.
  induction a as [|x a IH]; [done|]. by rewrite !append_cons, IH.
Qed.

Lemma append_nil_r (a : string) : a +:+ "" = a.
Proof using Type.
  clear clock legacyDateParse.
  induction a as [|x a IH]; [done|]. by rewrite append_cons, IH.
Qed.

Lemma bubbleMarkdown_content (markdown : string) (bubble : ChatBubble.t) :
  ChatBubble.content bubble ≠ "" →
  bubbleMarkdown markdown bubble = markdown +:+ messageSection bubble.
Proof.
  intros H. unfold bubbleMarkdown, messageSection.
  destruct (ChatBubble.content bubble) as [|c r] eqn:E; [done|].
  cbn [JsString.truthy]. by rewrite !append_assoc.
Qed.

Lemma fold_bubbleMarkdown (l : list ChatBubble.t) (markdown : string) :
  Forall (λ b, ChatBubble.content b ≠ "") l →
  fold_left bubbleMarkdown l markdown
  = markdown +:+ String.concat "" (messageSection <$> l).
Proof.
  intros H. revert markdown. induction H as [|b l Hb Hl IH]; intros markdown; cbn.
  - by rewrite append_nil_r.
  - rewrite IH, bubbleMarkdown_content by done. rewrite append_assoc. f_equal.
    destruct l as [|b' l']; cbn; [by rewrite append_nil_r|done].
Qed.

Lemma canonical_content (b : ChatBubble.t) : canonical b → ChatBubble.content b ≠ "".
Proof. intros [H _] E. by rewrite E in H. Qed.

(** X14.  The Markdown of a conversation the fetch returns is its head, in
    which both dates are valid, followed by one section per message, each
    with the content of the message: the placeholder for a message without
    text is never written. *)
Theorem markdown_of_fetched (locale : Locale.t) (w : World.t) (σ0 σ' : Store.t)
    (l : list ResponseConversation.t) (c : ResponseConversation.t) :
  fetchConversationsForWorkspace w σ0 = (Ok l, σ') → c ∈ l →
  ∃ created updated,
    dateOfString (ResponseConversation.createdAt c) = Some created
    ∧ dateOfString (ResponseConversation.lastUpdatedAt c) = Some updated
    ∧ convertConversationToMarkdown locale c
      = documentHead locale c created updated
          +:+ String.concat "" (messageSection <$> ResponseConversation.messages c).
Proof.
  intros R Hc.
  destruct (proj1 (routes_consistent w σ0 σ') l R) as [->|(σ & (Ht & _ & Hs) & ->)];
    [by apply elem_of_nil in Hc|].
  pose proof (wellTimed_final σ Ht) as W. rewrite Forall_forall in W.
  destruct (W c Hc) as [Hu Hcr].
  apply dateOfString_instant in Hu as [updated Hu].
  apply dateOfString_instant in Hcr as [created Hcr].
  exists created, updated. split; [done|]. split; [done|].
  assert (M : Forall (λ b, ChatBubble.content b ≠ "") (ResponseConversation.messages c)).
  { apply finalConversationsListExport_elem in Hc
      as (k & tc & _ & _ & _ & _ & _ & _ & -> & _).
    apply Forall_forall. intros m Hm. apply canonical_content.
    rewrite (finalBubbles_perm σ _) in Hm.
    apply firstOccurrences_elem in Hm as (_ & before & after & E & _).
    pose proof (allStaged_get (TempConversation.id tc) σ Hs) as F.
    fold (staged σ (TempConversation.id tc)) in F. rewrite E in F.
    rewrite Forall_app, Forall_cons in F. tauto. }
  unfold convertConversationToMarkdown, documentHead.
  rewrite Hu, Hcr, fold_bubbleMarkdown by done.
  destruct (ResponseConversation.summary c) as [s|]; [destruct (JsString.truthy s)|].
  all: by rewrite ?append_assoc, ?append_nil_r.
Qed.
(** ** The export route: the timestamp of the archive name *)

Lemma year_text_range :
  checkRange (λ y, String.eqb (numberToString (Some y)) (padDigits 4 y)) 1000 9000 = true.
Proof using Type. vm_cast_no_check (eq_refl true). Qed.

Lemma field_text_range :
  checkRange (λ n, String.eqb (padStart 2 (numberToString (Some n))) (padDigits 2 n)) 0 100
  = true.
Proof using Type. vm_cast_no_check (eq_refl true). Qed.

Lemma year_text (y : Z) : 1000 <= y <= 9999 → numberToString (Some y) = padDigits 4 y.
Proof using Type.
  clear clock legacyDateParse.
  intros H. apply String.eqb_eq.
  apply (checkRange_spec _ _ _ y year_text_range). lia.
Qed.

Lemma field_text (n : Z) :
  0 <= n <= 99 → padStart 2 (numberToString (Some n)) = padDigits 2 n.
Proof using Type.
  clear clock legacyDateParse.
  intros H. apply String.eqb_eq.
  apply (checkRange_spec _ _ _ n field_text_range). lia.
Qed.

Lemma padDigits_length (w : nat) (n : Z) : String.length (padDigits w n) = w.
Proof using Type.
  clear clock legacyDateParse.
  induction w as [|w IH]; cbn; [done|]. by rewrite IH.
Qed.

Lemma append_length (a b : string) :
  String.length (a +:+ b) = (String.length a + String.length b)%nat.
Proof using Type.
  clear clock legacyDateParse.
  induction a as [|x a IH]; [done|]. rewrite append_cons. cbn. by rewrite IH.
Qed.

Lemma local_fields (t : Z) :
  1 <= MonthFromTime t <= 12 ∧ 1 <= DateFromTime t <= 31
  ∧ 0 <= HourFromTime t <= 23 ∧ 0 <= MinFromTime t <= 59 ∧ 0 <= SecFromTime t <= 59.
Proof using Type.
  clear clock legacyDateParse.
  unfold MonthFromTime, DateFromTime, HourFromTime, MinFromTime, SecFromTime, TimeWithinDay.
  pose proof (civilFromDays_spec (Day t)) as C.
  destruct (civilFromDays (Day t)) as [[y m] d]. cbn [fst snd].
  destruct C as (Hm & Hd & _ & _).
  assert (Hdm : daysInMonth y m <= 31).
  { unfold daysInMonth. repeat case_match; lia. }
  pose proof (Z.mod_pos_bound t msPerDay eq_refl) as Htod.
  set (tod := t mod msPerDay) in *. unfold msPerDay in Htod.
  assert (Hh : 0 <= tod / 3600000 <= 23).
  { split; [apply Z.div_pos; lia |].
    assert (tod / 3600000 < 24) by (apply Z.div_lt_upper_bound; lia). lia. }
  pose proof (Z.mod_pos_bound (tod / 60000) 60 eq_refl) as Hmi.
  pose proof (Z.mod_pos_bound (tod / 1000) 60 eq_refl) as Hs.
  lia.
Qed.

(** X15.  [getTimestampString] reads the clock once and does not throw.  On
    a valid date whose local year has four digits it gives the fourteen
    digits YYYYMMDDHHMMSS of local time, the month counted from 1; on an
    invalid date every field is the text NaN. *)
Theorem getTimestampString_digits (locale : Locale.t) (σ : Store.t) :
  let now := clock (Store.ticks σ) in
  let t := LocalTime locale now in
  (JsDate.validTime now = true → 1000 <= YearFromTime t <= 9999 →
   ∃ s, getTimestampString locale σ = (Ok s, Store.tick σ)
        ∧ s = padDigits 4 (YearFromTime t) +:+ padDigits 2 (MonthFromTime t)
                +:+ padDigits 2 (DateFromTime t) +:+ padDigits 2 (HourFromTime t)
                +:+ padDigits 2 (MinFromTime t) +:+ padDigits 2 (SecFromTime t)
        ∧ String.length s = 14%nat)
  ∧ (JsDate.validTime now = false →
     getTimestampString locale σ = (Ok "NaNNaNNaNNaNNaNNaN", Store.tick σ)).
Proof.
  intros now t. split.
  - intros V Hy. eexists. split; [|split; [reflexivity|]].
    + unfold getTimestampString, bind, newDate. fold now. rewrite (clipZ_valid now V).
      unfold getFullYear, getMonth, getDate, getHours, getMinutes, getSeconds.
      cbn [fmap option_fmap option_map]. fold t.
      destruct (local_fields t) as (Hm & Hd & Hh & Hmi & Hs).
      replace (MonthFromTime t - 1 + 1) with (MonthFromTime t) by lia.
      by rewrite year_text, !field_text by lia.
    + by rewrite !append_length, !padDigits_length.
  - intros V. unfold getTimestampString, bind, newDate. fold now.
    unfold clipZ. by rewrite V.
Qed.

(** ** The export route *)

Lemma zipAnswer_cases (rq : ExportRequest.t) (zip : JSZip.t) (zipFileName : string) :
  (∃ e, ExportRequest.generateAsync rq = Some e ∧ zipAnswer rq zip zipFileName = Raised e)
  ∨ (ExportRequest.generateAsync rq = None
     ∧ zipAnswer rq zip zipFileName
       = Returned (ZipAnswer zip 200 "application/zip"
                     ("attachment; filename="
                        +:+ String "034" (zipFileName +:+ String "034" "")))).
Proof. unfold zipAnswer. destruct (ExportRequest.generateAsync rq); eauto. Qed.

(** One step of a proof about the body of the export route: the value of a
    computation that is run for its effect on the state only. *)
Ltac post_step Q :=
  lazymatch goal with
  | |- hoare _ (bind _ _) _ _ => hoare_skip
  | |- hoare _ (ret (zipAnswer ?rq ?zip ?name)) _ _ =>
      apply hoare_ret; intros ? _;
      destruct (zipAnswer_cases rq zip name) as [(? & _ & ->)|[_ ->]]
  | |- hoare _ (ret _) _ _ => apply hoare_ret; intros ? _
  | |- hoare _ (match ?x with _ => _ end) _ _ => destruct x
  | |- hoare _ (if ?x then _ else _) _ _ => destruct x
  end.

(** X16.  The export route never throws: it answers 200 with the archive as
    [application/zip], or 404 or 500 with an error.  Without a
    [WORKSPACE_PATH] it answers 500 before it reads anything; when the body
    of the request cannot be read, the 500 carries the message of the
    error. *)
Theorem POST_answers (rq : ExportRequest.t) (σ : Store.t) :
  ∃ r σ', POST rq σ = (Ok r, σ')
    ∧ match r with
      | JsonAnswer _ _ status => status = 404 ∨ status = 500
      | ZipAnswer _ status contentType _ => status = 200 ∧ contentType = "application/zip"
      end
    ∧ (orElse (ExportRequest.WORKSPACE_PATH rq) "" = "" →
       r = JsonAnswer "WORKSPACE_PATH environment variable is not set." None 500 ∧ σ' = σ)
    ∧ (∀ error, orElse (ExportRequest.WORKSPACE_PATH rq) "" ≠ "" →
         ExportRequest.json rq = Raised error →
         r = JsonAnswer "Failed to generate zip file" (Some (errorMessage error)) 500
         ∧ σ' = σ).
Proof.
  set (Q := λ r : ExportResponse,
         match r with
         | JsonAnswer _ _ status => status = 404 ∨ status = 500
         | ZipAnswer _ status contentType _ => status = 200 ∧ contentType = "application/zip"
         end).
  assert (H : hoare (λ _, True) (POST rq) (λ r _, Q r) (λ _, False)).
  { unfold POST. destruct (negb _).
    { apply hoare_ret. intros. by right. }
    eapply (hoare_bind _ _ _
              (λ o _, match o with Returned r => Q r | Raised _ => True end)).
    2: { intros [r|e]; apply hoare_ret; intros; [done|by right]. }
    eapply (hoare_catchValue _ _ _ _ (λ _, True)); [|intros e; by apply hoare_ret].
    repeat post_step Q; cbn; auto. }
  specialize (H σ I).
  destruct (POST rq σ) as [[r|] σ'] eqn:E; [|done].
  exists r, σ'. split; [done|]. split; [exact H|]. split.
  - intros Hp. revert E. unfold POST. rewrite Hp. cbn. by intros [= <- <-].
  - intros error Hp He. revert E. unfold POST. rewrite He.
    destruct (orElse (ExportRequest.WORKSPACE_PATH rq) "") as [|c s]; [done|].
    cbn. by intros [= <- <-].
Qed.
(** What the fetch throws is the error of a [close]. *)
Lemma hoareThrown_ret {A} (a : A) (P : Store.t → Prop) (Q : A → Store.t → Prop)
    (E : Thrown → Prop) :
  (∀ σ, P σ → Q a σ) → hoareThrown P (ret a) Q E.
Proof. intros H σ Hσ. by apply H. Qed.

Lemma hoareThrown_bind {A B} (m : M A) (k : A → M B) (P : Store.t → Prop)
    (Q1 : A → Store.t → Prop) (Q2 : B → Store.t → Prop) (E : Thrown → Prop) :
  hoareThrown P m Q1 E → (∀ a, hoareThrown (Q1 a) (k a) Q2 E) →
  hoareThrown P (bind m k) Q2 E.
Proof.
  intros Hm Hk σ H. unfold bind. specialize (Hm σ H).
  destruct (m σ) as [[a|e] σ']; [|done]. by apply Hk.
Qed.

Lemma hoareThrown_weaken {A} (m : M A) (P : Store.t → Prop) (Q : A → Store.t → Prop)
    (E E' : Thrown → Prop) :
  hoareThrown P m Q E' → (∀ e, E' e → E e) → hoareThrown P m Q E.
Proof.
  intros Hm HE σ H. specialize (Hm σ H). destruct (m σ) as [[a|e] σ']; auto.
Qed.

Lemma hoareThrown_catchValue {A} (body : M A) (handler : Thrown → M A)
    (P : Store.t → Prop) (Q : A → Store.t → Prop) (E1 : Thrown → Prop)
    (E : Store.t → Prop) :
  hoareThrown P body Q E1 → (∀ e, E1 e → hoare (λ _, True) (handler e) Q E) →
  hoare P (catchValue body handler) Q E.
Proof.
  intros Hb Hh σ H. unfold catchValue. specialize (Hb σ H).
  destruct (body σ) as [[a|e] σ']; [done|]. by apply Hh.
Qed.

Lemma fetch_thrown (w : World.t) :
  hoareThrown (λ _, True) (fetchConversationsForWorkspace w) (λ _ _, True) (closeError w).
Proof.
  intros σ _. destruct (fetchConversationsForWorkspace w σ) as [[l|e] σ'] eqn:E; [done|].
  by eapply fetch_throws.
Qed.

Lemma getTimestampString_thrown (locale : Locale.t) (E : Thrown → Prop) :
  hoareThrown (λ _, True) (getTimestampString locale) (λ _ _, True) E.
Proof. by intros σ _. Qed.

Lemma getTimestampString_no_throw (locale : Locale.t) :
  hoare (λ _, True) (getTimestampString locale) (λ _ _, True) (λ _, False).
Proof. by intros σ _. Qed.

Lemma exportSelected_thrown (rq : ExportRequest.t) (ids : list string) :
  ∀ found zip,
    hoareThrown (λ _, True) (exportSelected rq ids found zip) (λ _ _, True)
      (λ e, ∃ id, id ∈ ids ∧ closeError (ExportRequest.workspace rq id) e).
Proof.
  induction ids as [|id ids IH]; intros found zip; cbn [exportSelected].
  - by apply hoareThrown_ret.
  - eapply (hoareThrown_bind _ _ _ (λ _ _, True)).
    + eapply hoareThrown_weaken; [apply fetch_thrown|].
      intros e He. exists id. split; [left|done].
    + intros conversations.
      eapply hoareThrown_weaken.
      * destruct (0 <? _)%nat; [destruct (negb _)|]; apply IH.
      * intros e (j & Hj & He). exists j. split; [by right|done].
Qed.

Lemma exportAll_failure (rq : ExportRequest.t) (entries : list Dirent.t) :
  (∀ e, e ∈ entries → Dirent.isDirectory e = true → Dirent.name e ∈ requestedIds rq) →
  ∀ found zip,
    hoareThrown (λ _, True) (exportAll rq entries found zip)
      (λ o _, match o with Raised error => failureOf rq error | Returned _ => True end)
      (failureOf rq).
Proof.
  induction entries as [|entry entries IH]; intros Hin found zip; cbn [exportAll].
  - by apply hoareThrown_ret.
  - assert (Hrest : ∀ e, e ∈ entries → Dirent.isDirectory e = true →
                         Dirent.name e ∈ requestedIds rq).
    { intros e He. apply Hin. by right. }
    destruct (Dirent.isDirectory entry) eqn:Ed; [|by apply IH].
    eapply (hoareThrown_bind _ _ _ (λ _ _, True)).
    { eapply hoareThrown_weaken; [apply fetch_thrown|].
      intros e He. do 4 right. exists (Dirent.name entry). split; [|done].
      apply Hin; [left|done]. }
    intros conversations. destruct (0 <? _)%nat; [|by apply IH].
    destruct (negb _) eqn:Ef; [|by apply IH].
    apply hoareThrown_ret. intros _ _. right; right; right; left.
    exists (Dirent.name entry). split; [apply Hin; [left|done]|].
    split; [by destruct (ExportRequest.folderCreated rq _)|done].
Qed.

Lemma requestedIds_all (rq : ExportRequest.t) (body : DownloadRequestBody.t)
    (entries : list Dirent.t) :
  ExportRequest.json rq = Returned body →
  (DownloadRequestBody.workspaceIds body = None
   ∨ DownloadRequestBody.workspaceIds body = Some []) →
  (DownloadRequestBody.workspaceId body = None
   ∨ DownloadRequestBody.workspaceId body = Some "") →
  ExportRequest.readdir rq = Returned entries →
  requestedIds rq = Dirent.name <$> filter (λ e, Dirent.isDirectory e = true) entries.
Proof.
  intros Hj Hs Hi Hr. unfold requestedIds. rewrite Hj, Hr.
  by destruct Hs as [-> | ->], Hi as [-> | ->].
Qed.

(** X17.  When the export route answers with the error of its catch clause,
    the status is 500 and one of these failed: the body of the request or
    the workspace directory could not be read, a folder for a requested
    workspace could not be made in the archive, the archive could not be
    generated, or a database of a requested workspace could not be closed;
    the details of the answer are the message of that error.  A fetch is
    the cause only through the [close] of its finally clause. *)
Theorem POST_failure_causes (rq : ExportRequest.t) (σ σ' : Store.t)
    (details : option string) (status : Z) :
  POST rq σ = (Ok (JsonAnswer "Failed to generate zip file" details status), σ') →
  status = 500 ∧ ∃ error, failureOf rq error ∧ details = Some (errorMessage error).
Proof.
  set (Q := λ r : ExportResponse,
         ∀ details status, r = JsonAnswer "Failed to generate zip file" details status →
           status = 500 ∧ ∃ error, failureOf rq error ∧ details = Some (errorMessage error)).
  set (R := λ (o : Outcome ExportResponse) (_ : Store.t),
         match o with
         | Returned r => ∀ details status,
             r ≠ JsonAnswer "Failed to generate zip file" details status
         | Raised error => failureOf rq error
         end).
  assert (H : hoare (λ _, True) (POST rq) (λ r _, Q r) (λ _, False)).
  { unfold POST. destruct (negb _).
    { apply hoare_ret. by intros. }
    eapply (hoare_bind _ _ _ R).
    2: { intros [r|e]; apply hoare_ret; intros ? Hr d s.
         - intros ->. by destruct (Hr d s).
         - intros [= <- <-]. eauto. }
    eapply (hoareThrown_catchValue _ _ _ _ (failureOf rq));
      [|intros e He; by apply hoare_ret].
    destruct (ExportRequest.json rq) as [body|error] eqn:Ej.
    2: { apply hoareThrown_ret. intros ? _. by left. }
    eapply (hoareThrown_bind _ _ _ (λ _ _, True)); [apply getTimestampString_thrown|].
    intros timestamp.
    assert (HZ : ∀ zip name σ0, R (zipAnswer rq zip name) σ0).
    { intros zip name σ0. destruct (zipAnswer_cases rq zip name) as [(e & He & ->)|[_ ->]];
        [by right; right; left|done]. }
    assert (All : hoareThrown (λ _, True)
              match ExportRequest.readdir rq with
              | Raised error => ret (Raised error)
              | Returned entries =>
                  let* walked := exportAll rq entries false [] in
                  match walked with
                  | Raised error => ret (Raised error)
                  | Returned (foundAnyConversations, zip) =>
                      if negb foundAnyConversations
                      then ret (Returned
                                  (JsonAnswer "No conversations found in any workspace."
                                     None 404))
                      else ret (zipAnswer rq zip
                                  ("cursor_chat_history_" +:+ timestamp +:+ ".zip"))
                  end
              end R (failureOf rq) ∨ requestedIds rq ≠
                 match ExportRequest.readdir rq with
                 | Returned entries =>
                     Dirent.name <$> filter (λ e, Dirent.isDirectory e = true) entries
                 | Raised _ => []
                 end).
    { destruct (ExportRequest.readdir rq) as [entries|error] eqn:Er.
      2: { left. apply hoareThrown_ret. intros ? _. right. by left. }
      destruct (decide (requestedIds rq
                        = Dirent.name <$> filter (λ e, Dirent.isDirectory e = true) entries))
        as [Hreq|Hreq]; [left|by right].
      eapply hoareThrown_bind.
      - apply exportAll_failure. intros e He Hd. rewrite Hreq.
        apply list_elem_of_fmap. exists e. split; [done|].
        by apply list_elem_of_filter.
      - intros [[found zip]|error]; [|by apply hoareThrown_ret].
        destruct (negb found); apply hoareThrown_ret; intros ? _; [done|apply HZ]. }
    destruct (DownloadRequestBody.workspaceIds body) as [[|id ids]|] eqn:Es,
             (DownloadRequestBody.workspaceId body) as [[|c r]|] eqn:Ei.
    all: try (destruct All as [All|Hne];
              [exact All
              |exfalso; apply Hne; destruct (ExportRequest.readdir rq) eqn:Er;
               unfold requestedIds; by rewrite Ej, Es, Ei, Er]).
    all: clear All.
    all: first
      [ (* the selected workspaces *)
        eapply (hoareThrown_bind _ _ _ (λ _ _, True));
        [eapply hoareThrown_weaken; [apply exportSelected_thrown|];
         intros e (j & Hj & He); do 4 right; exists j; split; [|done];
         unfold requestedIds; by rewrite Ej, Es|];
        intros [found zip]; cbn [fst snd];
        destruct (negb found); apply hoareThrown_ret; intros ? _; [done|apply HZ]
      | (* a single workspace *)
        assert (Hid : String c r ∈ requestedIds rq)
          by (unfold requestedIds; rewrite Ej, Es, Ei; left);
        eapply (hoareThrown_bind _ _ _ (λ _ _, True));
        [eapply hoareThrown_weaken; [apply fetch_thrown|];
         intros e He; do 4 right; by exists (String c r)|];
        intros conversations; destruct (_ =? _)%nat; [by apply hoareThrown_ret|];
        destruct (negb _) eqn:Ef; apply hoareThrown_ret; intros ? _; [|apply HZ];
        right; right; right; left; exists (String c r); split; [done|];
        split; [by destruct (ExportRequest.folderCreated rq _)|done] ]. }
  intros E. specialize (H σ I). rewrite E in H. by apply H.
Qed.
(** *** What the archive holds *)

Lemma OrderedMap_set_Forall_keys {V} (P : string → Prop) (k : string) (v : V)
    (m : list (string * V)) :
  Forall P m.*1 → P k → Forall P (OrderedMap.set k v m).*1.
Proof using Type.
  clear clock legacyDateParse.
  intros Hm Hk. apply Forall_forall. intros j Hj.
  apply OrderedMap_set_elem in Hj as [->|Hj]; [done|].
  rewrite Forall_forall in Hm. by apply Hm.
Qed.

(** Only the empty name is sanitized to the empty name. *)
Lemma sanitizeFilename_empty (name : string) : sanitizeFilename name = "" → name = "".
Proof.
  intros H. apply (f_equal String.length) in H. unfold sanitizeFilename in H.
  rewrite replaceFinalDot_length, replaceUnsafe_length in H. by destruct name.
Qed.

Lemma root_named (name : string) : name ≠ "" → JSZip.root name = name +:+ "/".
Proof using Type. clear clock legacyDateParse. by destruct name. Qed.

Lemma archiveAt_folder (ids : list string) (id : string) (zip : JSZip.t) :
  id ∈ ids → archiveAt ids zip → archiveAt ids (JSZip.folder (sanitizeFilename id) zip).
Proof.
  intros Hid [H1 H2]. unfold JSZip.folder.
  destruct (sanitizeFilename id) as [|c r] eqn:E; [done|]. rewrite <- E.
  destruct (OrderedMap.has _ zip); [done|].
  split; [|by apply OrderedMap_set_NoDup].
  apply OrderedMap_set_Forall_keys; [done|]. exists id. split; [done|]. left.
  split; [|done]. intros ->. discriminate E.
Qed.

Lemma archiveAt_addConversations (locale : Locale.t) (ids : list string) (id : string)
    (conversations : list ResponseConversation.t) (zip : JSZip.t) :
  id ∈ ids → archiveAt ids zip →
  archiveAt ids (addConversations locale (sanitizeFilename id) conversations zip).
Proof.
  intros Hid. revert zip. unfold addConversations.
  induction conversations as [|conv l IH]; intros zip H; [done|].
  cbn [fold_left]. apply IH. destruct H as [H1 H2].
  unfold addConversation, JSZip.file. split; [|by apply OrderedMap_set_NoDup].
  apply OrderedMap_set_Forall_keys; [done|]. exists id. split; [done|]. right. eauto.
Qed.

(** With no empty id, every workspace has its folder. *)
Lemma archiveAt_archiveOf (ids : list string) (zip : JSZip.t) :
  (∀ id, id ∈ ids → id ≠ "") → archiveAt ids zip → archiveOf ids zip.
Proof.
  intros Hne [H1 H2]. split; [|done].
  eapply Forall_impl; [exact H1|]. intros path (id & Hid & H).
  exists id. split; [done|]. destruct H as [[_ ->]|[name ->]]; [by left|].
  right. exists name. rewrite root_named; [by rewrite append_assoc|].
  intros E. apply sanitizeFilename_empty in E. by apply (Hne id).
Qed.

Lemma exportSelected_archive (rq : ExportRequest.t) (all ids : list string) :
  (∀ id, id ∈ ids → id ∈ all) →
  ∀ found zip, archiveAt all zip →
    hoare (λ _, True) (exportSelected rq ids found zip)
      (λ r _, archiveAt all (snd r)) (λ _, True).
Proof.
  induction ids as [|id ids IH]; intros Hin found zip Hz; cbn [exportSelected].
  - by apply hoare_ret.
  - assert (Hrest : ∀ j, j ∈ ids → j ∈ all) by (intros j Hj; apply Hin; by right).
    assert (Hid : id ∈ all) by (apply Hin; left).
    hoare_skip. destruct (0 <? _)%nat; [destruct (negb _)|]; apply IH; try done.
    by apply archiveAt_addConversations, archiveAt_folder.
Qed.

Lemma exportAll_archive (rq : ExportRequest.t) (all : list string)
    (entries : list Dirent.t) :
  (∀ e, e ∈ entries → Dirent.isDirectory e = true → Dirent.name e ∈ all) →
  ∀ found zip, archiveAt all zip →
    hoare (λ _, True) (exportAll rq entries found zip)
      (λ o _, match o with
              | Returned r => archiveAt all (snd r)
              | Raised _ => True
              end) (λ _, True).
Proof.
  induction entries as [|entry entries IH]; intros Hin found zip Hz; cbn [exportAll].
  - by apply hoare_ret.
  - assert (Hrest : ∀ e, e ∈ entries → Dirent.isDirectory e = true → Dirent.name e ∈ all).
    { intros e He. apply Hin. by right. }
    destruct (Dirent.isDirectory entry) eqn:Ed; [|by apply IH].
    hoare_skip. destruct (0 <? _)%nat; [|by apply IH].
    destruct (negb _); [by apply hoare_ret|]. apply IH; [done|].
    assert (Hn : Dirent.name entry ∈ all) by (apply Hin; [left|done]).
    by apply archiveAt_addConversations, archiveAt_folder.
Qed.

(** The archive of an answer holds the requested workspaces only. *)
Lemma POST_archive (rq : ExportRequest.t) (σ σ' : Store.t) (zip : JSZip.t)
    (status : Z) (contentType contentDisposition : string) :
  POST rq σ = (Ok (ZipAnswer zip status contentType contentDisposition), σ') →
  archiveAt (requestedIds rq) zip.
Proof.
  set (Q := λ r : ExportResponse,
         match r with
         | ZipAnswer zip _ _ _ => archiveAt (requestedIds rq) zip
         | JsonAnswer _ _ _ => True
         end).
  assert (H : hoare (λ _, True) (POST rq) (λ r _, Q r) (λ _, True)).
  { unfold POST. destruct (negb _); [by apply hoare_ret|].
    eapply (hoare_bind _ _ _
              (λ o _, match o with Returned r => Q r | Raised _ => True end)).
    2: { intros [r|e]; by apply hoare_ret. }
    eapply (hoare_catchValue _ _ _ _ (λ _, True)); [|intros e; by apply hoare_ret].
    destruct (ExportRequest.json rq) as [body|error] eqn:Ej; [|by apply hoare_ret].
    hoare_skip.
    assert (HZ : ∀ zip name, archiveAt (requestedIds rq) zip →
               match zipAnswer rq zip name with Returned r => Q r | Raised _ => True end).
    { intros zip0 name Hz.
      by destruct (zipAnswer_cases rq zip0 name) as [(e & He & ->)|[_ ->]]. }
    assert (E0 : archiveAt (requestedIds rq) []) by (split; constructor).
    destruct (DownloadRequestBody.workspaceIds body) as [[|id ids]|] eqn:Es,
             (DownloadRequestBody.workspaceId body) as [[|c r]|] eqn:Ei.
    all: first
      [ (* the selected workspaces *)
        eapply hoare_bind;
        [apply (exportSelected_archive rq (requestedIds rq) (id :: ids)); [|exact E0];
         intros j Hj; unfold requestedIds; by rewrite Ej, Es|];
        intros [found zip0]; cbn [fst snd];
        destruct (negb found); apply hoare_ret; intros ? Hz; [done|by apply HZ]
      | (* a single workspace *)
        assert (Hid : String c r ∈ requestedIds rq)
          by (unfold requestedIds; rewrite Ej, Es, Ei; left);
        hoare_skip; destruct (_ =? _)%nat; [by apply hoare_ret|];
        destruct (negb _); apply hoare_ret; intros _ _; [done|];
        by apply HZ, archiveAt_addConversations, archiveAt_folder
      | (* all the workspaces *)
        destruct (ExportRequest.readdir rq) as [entries|error] eqn:Er;
        [|by apply hoare_ret];
        assert (Hreq : requestedIds rq
                       = Dirent.name <$> filter (λ e, Dirent.isDirectory e = true) entries)
          by (unfold requestedIds; by rewrite Ej, Es, Ei, Er);
        eapply hoare_bind;
        [apply (exportAll_archive rq (requestedIds rq)); [|exact E0];
         intros e He Hd; rewrite Hreq; apply list_elem_of_fmap; exists e;
         split; [done|]; by apply list_elem_of_filter
        |];
        intros [[found zip0]|error]; [|by apply hoare_ret];
        destruct (negb found); apply hoare_ret; intros ? Hz; [done|by apply HZ] ]. }
  intros E. specialize (H σ I). by rewrite E in H.
Qed.

(** X18.  The archive of a 200 answer holds nothing but the workspaces the
    request asks for, and no path twice.  Every path is the folder of a
    requested workspace, named by its sanitized id, or a Markdown file with
    a sanitized name under the root of such a workspace; for a workspace
    with the empty id that root is the root of the archive, and no folder is
    made.  When no requested id is empty, every file is right inside the
    folder of a requested workspace. *)
Theorem POST_archive_paths (rq : ExportRequest.t) (σ σ' : Store.t) (zip : JSZip.t)
    (status : Z) (contentType contentDisposition : string) :
  POST rq σ = (Ok (ZipAnswer zip status contentType contentDisposition), σ') →
  archiveAt (requestedIds rq) zip
  ∧ ((∀ id, id ∈ requestedIds rq → id ≠ "") → archiveOf (requestedIds rq) zip).
Proof.
  intros H. apply POST_archive in H. split; [done|].
  intros Hne. by apply archiveAt_archiveOf.
Qed.

(** *** Nothing to export *)

Lemma fetch_empty_hoare (w : World.t) :
  (∀ σ, fst (fetchConversationsForWorkspace w σ) = Ok []) →
  hoare (λ _, True) (fetchConversationsForWorkspace w) (λ l _, l = []) (λ _, False).
Proof.
  intros H σ _. specialize (H σ).
  destruct (fetchConversationsForWorkspace w σ) as [[l|] σ']; cbn in H; congruence.
Qed.

Lemma exportSelected_none (rq : ExportRequest.t) (ids : list string) :
  (∀ id, id ∈ ids →
     ∀ σ, fst (fetchConversationsForWorkspace (ExportRequest.workspace rq id) σ) = Ok []) →
  ∀ zip, hoare (λ _, True) (exportSelected rq ids false zip)
           (λ r _, fst r = false) (λ _, False).
Proof.
  induction ids as [|id ids IH]; intros Hin zip; cbn [exportSelected].
  - by apply hoare_ret.
  - eapply hoare_bind; [apply fetch_empty_hoare, Hin; left|].
    intros l. apply (hoare_pure (l = [])). intros ->. cbn. apply IH.
    intros j Hj. apply Hin. by right.
Qed.

Lemma exportAll_none (rq : ExportRequest.t) (entries : list Dirent.t) :
  (∀ e, e ∈ entries → Dirent.isDirectory e = true →
     ∀ σ, fst (fetchConversationsForWorkspace
                 (ExportRequest.workspace rq (Dirent.name e)) σ) = Ok []) →
  ∀ zip, hoare (λ _, True) (exportAll rq entries false zip)
           (λ o _, ∃ zip', o = Returned (false, zip')) (λ _, False).
Proof.
  induction entries as [|entry entries IH]; intros Hin zip; cbn [exportAll].
  - apply hoare_ret. eauto.
  - assert (Hrest : ∀ e, e ∈ entries → Dirent.isDirectory e = true →
       ∀ σ, fst (fetchConversationsForWorkspace
                   (ExportRequest.workspace rq (Dirent.name e)) σ) = Ok []).
    { intros e He. apply Hin. by right. }
    destruct (Dirent.isDirectory entry) eqn:Ed; [|by apply IH].
    eapply hoare_bind; [apply fetch_empty_hoare, Hin; [left|done]|].
    intros l. apply (hoare_pure (l = [])). intros ->. cbn. by apply IH.
Qed.

(** X19.  When the request and the workspace directory can be read and the
    fetch of every requested workspace returns nothing (as it does for a
    workspace without a database file), the export route answers 404
    without details, whatever the mode of the request. *)
Theorem POST_nothing_found (rq : ExportRequest.t) (body : DownloadRequestBody.t)
    (entries : list Dirent.t) (σ : Store.t) :
  orElse (ExportRequest.WORKSPACE_PATH rq) "" ≠ "" →
  ExportRequest.json rq = Returned body →
  ExportRequest.readdir rq = Returned entries →
  (∀ id, id ∈ requestedIds rq →
     ∀ σ, fst (fetchConversationsForWorkspace (ExportRequest.workspace rq id) σ) = Ok []) →
  ∃ error σ', POST rq σ = (Ok (JsonAnswer error None 404), σ').
Proof.
  intros Hp Ej Er Hempty.
  set (Q := λ r : ExportResponse, ∃ error, r = JsonAnswer error None 404).
  assert (H : hoare (λ _, True) (POST rq) (λ r _, Q r) (λ _, False)).
  { unfold POST.
    destruct (orElse (ExportRequest.WORKSPACE_PATH rq) "") as [|c0 s0]; [done|].
    cbn [JsString.truthy negb].
    eapply (hoare_bind _ _ _ (λ o _, ∃ r, o = Returned r ∧ Q r)).
    2: { intros o σ0 (r & -> & Hr). exact Hr. }
    eapply (hoare_catchValue _ _ _ _ (λ _, False)); [|intros e; apply hoare_false].
    rewrite Ej.
    eapply (hoare_bind _ _ _ (λ _ _, True)); [apply getTimestampString_no_throw|].
    intros timestamp. unfold requestedIds in Hempty. rewrite Ej, Er in Hempty.
    rewrite Er.
    destruct (DownloadRequestBody.workspaceIds body) as [[|id ids]|] eqn:Es,
             (DownloadRequestBody.workspaceId body) as [[|c r]|] eqn:Ei.
    all: first
      [ (* the selected workspaces *)
        eapply hoare_bind; [by apply exportSelected_none|];
        intros [found zip]; apply (hoare_pure (found = false)); intros ->;
        apply hoare_ret; intros _ _; eexists; split; [done|]; by eexists
      | (* a single workspace *)
        eapply hoare_bind; [apply fetch_empty_hoare, Hempty; left|];
        intros l; apply (hoare_pure (l = [])); intros ->;
        apply hoare_ret; intros _ _; eexists; split; [done|]; by eexists
      | (* all the workspaces *)
        eapply hoare_bind;
        [apply exportAll_none; intros e He Hd; apply Hempty;
         apply list_elem_of_fmap; exists e; split; [done|];
         by apply list_elem_of_filter|];
        intros o; apply (hoare_pure (∃ zip', o = Returned (false, zip'))); intros [zip ->];
        apply hoare_ret; intros _ _; eexists; split; [done|]; by eexists ]. }
  specialize (H σ I). destruct (POST rq σ) as [[r|] σ']; [|done].
  destruct H as [error ->]. eauto.
Qed.

(** *** One workspace *)

Lemma append_inv_head (a b c : string) : a +:+ b = a +:+ c → b = c.
Proof using Type.
  clear clock legacyDateParse.
  induction a as [|x a IH]; [done|]. rewrite !append_cons. intros [= H]. auto.
Qed.

Lemma addConversations_other (locale : Locale.t) (name path : string)
    (l : list ResponseConversation.t) (zip : JSZip.t) :
  (∀ x, x ∈ l → JSZip.root name +:+ filenameOf x ≠ path) →
  OrderedMap.get path (addConversations locale name l zip) = OrderedMap.get path zip.
Proof.
  unfold addConversations. revert zip.
  induction l as [|x l IH]; intros zip H; [done|]. cbn [fold_left].
  rewrite IH by (intros y Hy; apply H; by right).
  unfold addConversation, JSZip.file. apply OrderedMap_get_set_ne.
  intros ->. by apply (H x); [left|].
Qed.

Lemma addConversations_last (locale : Locale.t) (name : string)
    (before after : list ResponseConversation.t) (conv : ResponseConversation.t)
    (zip : JSZip.t) :
  (∀ x, x ∈ after → filenameOf x ≠ filenameOf conv) →
  OrderedMap.get (JSZip.root name +:+ filenameOf conv)
    (addConversations locale name (before ++ conv :: after) zip)
  = Some (ZipFile (convertConversationToMarkdown locale conv)).
Proof.
  intros H.
  assert (E : addConversations locale name (before ++ conv :: after) zip
              = addConversations locale name after
                  (addConversation locale name
                     (addConversations locale name before zip) conv)).
  { unfold addConversations. by rewrite fold_left_app. }
  rewrite E, addConversations_other.
  - unfold addConversation at 1, JSZip.file. apply OrderedMap_get_set_eq.
  - intros x Hx Ex. apply (H x Hx). by apply append_inv_head in Ex.
Qed.

(** X20.  The export of one workspace: the export route reads the clock for
    the timestamp, fetches the workspace, and answers 404 when the fetch
    returns nothing.  Otherwise the archive has the folder of the sanitized
    workspace id, named again in the file name of the archive, and under
    the file name of a conversation it holds the Markdown of the last
    conversation of the list that has this file name: of two conversations
    with the same file name the earlier one is replaced. *)
Theorem POST_single_workspace (rq : ExportRequest.t) (body : DownloadRequestBody.t)
    (workspaceId timestamp : string) (conversations : list ResponseConversation.t)
    (σ σ1 σ2 : Store.t) :
  orElse (ExportRequest.WORKSPACE_PATH rq) "" ≠ "" →
  ExportRequest.json rq = Returned body →
  (DownloadRequestBody.workspaceIds body = None
   ∨ DownloadRequestBody.workspaceIds body = Some []) →
  DownloadRequestBody.workspaceId body = Some workspaceId → workspaceId ≠ "" →
  ExportRequest.folderCreated rq (sanitizeFilename workspaceId) = true →
  ExportRequest.generateAsync rq = None →
  getTimestampString (ExportRequest.locale rq) σ = (Ok timestamp, σ1) →
  fetchConversationsForWorkspace (ExportRequest.workspace rq workspaceId) σ1
  = (Ok conversations, σ2) →
  let name := sanitizeFilename workspaceId in
  (conversations = [] →
   POST rq σ
   = (Ok (JsonAnswer ("No conversations found for workspace " +:+ workspaceId +:+ " - "
                        +:+ orElse (DownloadRequestBody.workspaceName body) "")
            None 404), σ2))
  ∧ (conversations ≠ [] →
     ∃ zip,
       POST rq σ
       = (Ok (ZipAnswer zip 200 "application/zip"
                ("attachment; filename="
                   +:+ String "034"
                         (("cursor_chat_history_" +:+ timestamp +:+ "_" +:+ name +:+ ".zip")
                            +:+ String "034" ""))), σ2)
       ∧ OrderedMap.get (name +:+ "/") zip = Some ZipFolder
       ∧ ∀ before conv after,
           conversations = before ++ conv :: after →
           (∀ x, x ∈ after → filenameOf x ≠ filenameOf conv) →
           OrderedMap.get (name +:+ "/" +:+ filenameOf conv) zip
           = Some (ZipFile (convertConversationToMarkdown (ExportRequest.locale rq) conv))).
Proof.
  intros Hp Ej Hs Ei Hne Hf Hg Ht Hc name. subst name.
  set (name := sanitizeFilename workspaceId) in *.
  assert (E : POST rq σ
              = (let* outcome :=
                   catchValue
                     (let* timestamp := getTimestampString (ExportRequest.locale rq) in
                      let* conversations :=
                        fetchConversationsForWorkspace
                          (ExportRequest.workspace rq workspaceId) in
                      if (length conversations =? 0)%nat
                      then ret (Returned
                                  (JsonAnswer
                                     ("No conversations found for workspace "
                                        +:+ workspaceId +:+ " - "
                                        +:+ orElse (DownloadRequestBody.workspaceName body) "")
                                     None 404))
                      else ret (zipAnswer rq
                                  (addConversations (ExportRequest.locale rq) name conversations
                                     (JSZip.folder name []))
                                  ("cursor_chat_history_" +:+ timestamp +:+ "_" +:+ name
                                     +:+ ".zip")))
                     (λ error, ret (Raised error)) in
                 match outcome with
                 | Returned response => ret response
                 | Raised error =>
                     ret (JsonAnswer "Failed to generate zip file"
                            (Some (errorMessage error)) 500)
                 end) σ).
  { unfold POST.
    destruct (orElse (ExportRequest.WORKSPACE_PATH rq) "") as [|c0 s0]; [done|].
    cbn [JsString.truthy negb]. rewrite Ej, Ei. subst name.
    destruct workspaceId as [|c r]; [done|].
    destruct Hs as [-> | ->]; by rewrite Hf. }
  assert (Hn : name ≠ "").
  { intros En. by apply Hne, sanitizeFilename_empty. }
  assert (Hr : JSZip.root name = name +:+ "/") by (by apply root_named).
  rewrite E. unfold bind, catchValue. rewrite Ht, Hc. split.
  - intros ->. reflexivity.
  - intros Hl. destruct conversations as [|c0 l0] eqn:El; [done|]. rewrite <- El in *.
    assert ((length conversations =? 0)%nat = false) as -> by (by rewrite El).
    unfold ret, zipAnswer. rewrite Hg. eexists. split; [reflexivity|]. split.
    + rewrite addConversations_other.
      * unfold JSZip.folder. destruct name as [|c1 r1]; [done|].
        cbn. by rewrite String.eqb_refl.
      * intros x _ Ex. rewrite Hr in Ex.
        assert (Hx : (name +:+ "/") +:+ filenameOf x = (name +:+ "/") +:+ "").
        { by rewrite append_nil_r. }
        apply append_inv_head in Hx. unfold filenameOf in Hx.
        apply (f_equal String.length) in Hx. rewrite append_length in Hx.
        cbn in Hx. lia.
    + intros before conv after -> Hlast.
      rewrite <- append_assoc, <- Hr. by apply addConversations_last.
Qed.

(** ** The client *)


(** X22.  The workspace list, with the tabs requests answered by the tabs
    route: it shows the workspaces for which the route answers with at least
    one conversation, in the order of the workspaces, each with the number
    of its conversations; a workspace for which the route answers 404 or 500
    or with an empty list is left out, and does not fail the list. *)
Theorem listed_workspaces (worlds : string → World.t) (start : string → Store.t)
    (statusText : string) (data : list Workspace.t) :
  fetchWorkspacesWithCounts
    (Returned (FetchResponse.mk 200 statusText (Returned data)))
    (λ id, served (fst (GET (worlds id) (start id))))
  = Returned (omap (λ workspace,
                      listed workspace
                        (fst (GET (worlds (Workspace.id workspace))
                                (start (Workspace.id workspace)))))
                data).
Proof.
  unfold fetchWorkspacesWithCounts, FetchResponse.ok.
  cbn [FetchResponse.status FetchResponse.json].
  change (negb ((200 <=? 200) && (200 <=? 299))) with false. cbv iota. f_equal.
  induction data as [|workspace data IH]; [done|].
  cbn [map omap list_omap]. rewrite filter_cons, IH. clear IH. cbn beta.
  set (w := worlds (Workspace.id workspace)). set (σ := start (Workspace.id workspace)).
  destruct (GET_answers w σ) as [(r & σ' & E & [->|[->|[l ->]]] & _)|(e & σ' & E & _)];
    rewrite E; cbn.
  - by rewrite decide_False.
  - by rewrite decide_False.
  - destruct l as [|conv l]; cbn.
    + by rewrite decide_False.
    + by rewrite decide_True.
  - by rewrite decide_False.
Qed.

(** ** One fetch after another *)

(** X23.  A workspace database that has been opened and cannot be closed:
    the route throws what [close] throws, in place of whatever its body
    returned or caught, and never comes to close the global database, so
    that it does the same whatever that second [close] would do. *)
Theorem close_failure_surfaces (w : World.t) (σ : Store.t) (e : Thrown) :
  World.dbOpen w = Ok tt → World.dbClose w = Throw e →
  (World.dbExists w = true →
   fst (fetchConversationsForWorkspace w σ) = Throw e
   ∧ ∀ r, fetchConversationsForWorkspace (withGlobalClose r w) σ
          = fetchConversationsForWorkspace w σ)
  ∧ fst (GET w σ) = Throw e
  ∧ (∀ r, GET (withGlobalClose r w) σ = GET w σ).
Proof.
  intros Ho Hc. split; [|split].
  - intros Hx. split.
    + by destruct (fetch_close_throws w (Ok tt) σ e Hx Ho Hc) as (σ' & -> & _).
    + intros r. destruct (fetch_close_throws w r σ e Hx Ho Hc) as (σ' & -> & -> & _). done.
  - by destruct (GET_close_throws w (Ok tt) σ e Ho Hc) as (σ' & -> & _).
  - intros r. by destruct (GET_close_throws w r σ e Ho Hc) as (σ' & -> & -> & _).
Qed.
(** ** The composer pass on an id that is new *)



(** ** The conversation a first message brings *)

Lemma iter_tick (n : nat) (σ : Store.t) :
  Store.allConversationsMap (Nat.iter n Store.tick σ) = Store.allConversationsMap σ
  ∧ Store.ticks (Nat.iter n Store.tick σ) = (Store.ticks σ + n)%nat.
Proof using Type.
  clear clock legacyDateParse.
  induction n as [|n IH]; [cbn; split; [done|lia]|].
  rewrite Nat.iter_succ. cbn [Store.tick Store.allConversationsMap Store.ticks].
  destruct IH as [-> ->]. split; [done|lia].
Qed.

(** X25.  The chat-tab pass files the conversation of a tab under the tab
    id, in place of a conversation that is there already and without
    touching another one.  The title is the first line of the tab's title,
    or [Chat] and the first eight characters of the id; there is no summary;
    both timestamps are the normalized [lastSendTime], the same text when it
    denotes an instant, two successive readings of the clock when it does
    not. *)
Theorem chat_tab_conversation :
  clockValid →
  ∀ tab σ,
    let id := RawTab.tabId tab in
    let sent := RawTab.lastSendTime tab in
    ∃ conv σ',
      processTab tab σ = (Ok tt, σ')
      ∧ OrderedMap.get id (Store.allConversationsMap σ') = Some conv
      ∧ (∀ j, j ≠ id → OrderedMap.get j (Store.allConversationsMap σ')
                       = OrderedMap.get j (Store.allConversationsMap σ))
      ∧ conv = TempConversation.mk id
                 (orElse ((λ s, hd "" (JsString.split "010" s)) <$> RawTab.chatTitle tab)
                         (chatTitleOf id))
                 None
                 (normalizeAt (Store.ticks σ) sent)
                 (normalizeAt (Store.ticks σ + readings sent) sent) []
      ∧ (∀ t, timeValueOf sent = Some t →
              TempConversation.lastUpdatedAt conv = JsDate.isoFormat t
              ∧ TempConversation.createdAt conv = JsDate.isoFormat t)
      ∧ (timeValueOf sent = None →
         TempConversation.lastUpdatedAt conv = JsDate.isoFormat (clock (Store.ticks σ))
         ∧ TempConversation.createdAt conv = JsDate.isoFormat (clock (S (Store.ticks σ)))).
Proof.
  intros V tab σ id sent.
  unfold processTab, bind, modify. fold id sent.
  rewrite (safeParseTimestamp_normalizeAt sent) by done.
  rewrite (safeParseTimestamp_normalizeAt sent) by done.
  eexists. eexists. split; [reflexivity|].
  cbn [Store.setConversation Store.allConversationsMap].
  rewrite !(proj1 (iter_tick _ _)), !(proj2 (iter_tick _ _)).
  cbn [Store.allConversationsMap Store.ticks Store.setBubbles].
  split; [apply OrderedMap_get_set_eq|].
  split; [intros j Hj; by apply OrderedMap_get_set_ne|].
  split; [reflexivity|].
  cbn [TempConversation.lastUpdatedAt TempConversation.createdAt].
  unfold normalizeAt, readings. split.
  - intros t Ht. by rewrite Ht.
  - intros Ht. rewrite Ht. split; [done|]. do 2 f_equal. lia.
Qed.

(** ** Deduplication once is enough *)

Lemma firstOccurrences_fixed (seen : list (Role * string)) (l : list ChatBubble.t) :
  NoDup (bubbleKey <$> l) → (∀ b, b ∈ l → bubbleKey b ∉ seen) →
  firstOccurrences seen l = l.
Proof.
  revert seen. induction l as [|b l IH]; intros seen Hn Hs; [done|].
  cbn in Hn. apply NoDup_cons in Hn as [Hb Hn]. cbn [firstOccurrences].
  rewrite bool_decide_eq_false_2 by (apply Hs; left).
  f_equal. apply IH; [done|]. intros b' Hb'.
  rewrite elem_of_app, list_elem_of_singleton. intros [H|H].
  - by apply (Hs b'); [right|].
  - apply Hb. rewrite <- H. apply list_elem_of_fmap. eauto.
Qed.

(** X27.  Deduplication leaves alone a list in which no (role, content) pair
    repeats, so that deduplicating a second time changes nothing; what it
    returns is a subsequence of its argument. *)
Theorem uniqueBubbles_idempotent (l : list ChatBubble.t) :
  (NoDup (bubbleKey <$> l) → uniqueBubbles l = l)
  ∧ uniqueBubbles (uniqueBubbles l) = uniqueBubbles l
  ∧ uniqueBubbles l `sublist_of` l.
Proof.
  assert (F : ∀ k, NoDup (bubbleKey <$> k) → uniqueBubbles k = k).
  { intros k Hk. rewrite uniqueBubbles_firstOccurrences.
    apply firstOccurrences_fixed; [done|]. intros b _. apply not_elem_of_nil. }
  split; [apply F|]. split.
  - apply F. rewrite uniqueBubbles_firstOccurrences. apply firstOccurrences_NoDup.
  - rewrite uniqueBubbles_firstOccurrences. apply firstOccurrences_sublist.
Qed.

End Routes.


Example iso_epoch : JsDate.isoFormat 0 = "1970-01-01T00:00:00.000Z".
Proof. reflexivity. Qed.

Example iso_1e14 : JsDate.isoFormat 100000000000000 = "5138-11-16T09:46:40.000Z".
Proof. reflexivity. Qed.

Example iso_1e11 : JsDate.isoFormat 100000000001 = "1973-03-03T09:46:40.001Z".
Proof. reflexivity. Qed.

Example iso_before_epoch : JsDate.isoFormat (-1) = "1969-12-31T23:59:59.999Z".
Proof. reflexivity. Qed.

Example iso_max : JsDate.isoFormat JsDate.maxTime = "+275760-09-13T00:00:00.000Z".
Proof. reflexivity. Qed.

Example iso_min : JsDate.isoFormat (- JsDate.maxTime) = "-271821-04-20T00:00:00.000Z".
Proof. reflexivity. Qed.

Example parse_1e14 :
  JsDate.parseISO "5138-11-16T09:46:40.000Z" = Some 100000000000000.
Proof. reflexivity. Qed.

Example parse_min :
  JsDate.parseISO "-271821-04-20T00:00:00.000Z" = Some (- JsDate.maxTime).
Proof. reflexivity. Qed.

(** * Concrete runs *)

(** C2, the claim as stated, fails: 100,000,000,000 is not read as
    milliseconds (that would be an instant of 1973); it is multiplied by 1000
    like 99,999,999,999, and both instants fall in the year 5138. *)
Lemma timestamp_boundary_counterexample :
  fst (safeParseTimestamp Sample.secondsClock Sample.isoOnly (TsNumber 100000000000) Store.init)
    = Ok "5138-11-16T09:46:40.000Z"
  ∧ fst (safeParseTimestamp Sample.secondsClock Sample.isoOnly (TsNumber 99999999999) Store.init)
    = Ok "5138-11-16T09:46:39.000Z"
  ∧ JsDate.isoFormat 100000000000 = "1973-03-03T09:46:40.000Z"
  ∧ fst (safeParseTimestamp Sample.secondsClock Sample.isoOnly (TsNumber 100000000000) Store.init)
    ≠ Ok (JsDate.isoFormat 100000000000).
Proof. repeat split; try reflexivity. vm_compute. discriminate. Qed.

(** C8 at a number too large for a Date: the normalizer still returns a
    well-formed instant; and at scenario 2, whose databases can be closed:
    the export route returns, and what it returns is well timed. *)
Lemma timestamps_always_well_formed_witness :
  clockValid Sample.frozenClock
  ∧ (∃ s σ', safeParseTimestamp Sample.frozenClock Sample.isoOnly (TsNumber infinity) Store.init
             = (Ok s, σ')
             ∧ JsDate.isInstant s = true)
  ∧ ∃ l σ', fetchConversationsForWorkspace Sample.frozenClock Sample.isoOnly
              Sample.sharedStore Store.init = (Ok l, σ')
            ∧ Forall wellTimedResponse l.
Proof.
  assert (V : clockValid Sample.frozenClock) by (intros k; reflexivity).
  destruct (timestamps_always_well_formed Sample.frozenClock Sample.isoOnly V)
    as (H1 & H2 & _).
  split; [exact V|]. split; [apply H1|].
  destruct (H2 Sample.sharedStore Store.init) as [H|(e & σ' & _ & [H|H])].
  - exact H.
  - discriminate H.
  - discriminate H.
Defined.

(** C9, the claim as stated, fails on an absent value: the second application
    reads the clock again and returns a later instant. *)
Lemma normalization_twice_counterexample :
  fst (safeParseTimestamp Sample.secondsClock Sample.isoOnly TsUndefined Store.init)
    = Ok "2023-11-14T22:13:20.000Z"
  ∧ fst (safeParseTimestamp Sample.secondsClock Sample.isoOnly TsUndefined
           (snd (safeParseTimestamp Sample.secondsClock Sample.isoOnly TsUndefined Store.init)))
    = Ok "2023-11-14T22:13:21.000Z".
Proof. split; reflexivity. Qed.

(** C9 as amended, at a number of seconds and at the output it produces. *)
Lemma normalization_repeatable_witness :
  timeValueOf Sample.isoOnly (TsNumber 1700000000) = Some 1700000000000
  ∧ safeParseTimestamp Sample.secondsClock Sample.isoOnly (TsNumber 1700000000) Store.init
    = (Ok (JsDate.isoFormat 1700000000000), Store.init)
  ∧ safeParseTimestamp Sample.secondsClock Sample.isoOnly (TsString "2023-11-14T22:13:20.000Z")
      (Store.tick Store.init)
    = (Ok "2023-11-14T22:13:20.000Z", Store.tick Store.init).
Proof.
  destruct (normalization_repeatable Sample.secondsClock Sample.isoOnly) as [H1 H2].
  split; [reflexivity|]. split.
  - apply (H1 (TsNumber 1700000000) 1700000000000 Store.init Store.init). reflexivity.
  - apply (H2 TsUndefined Store.init "2023-11-14T22:13:20.000Z" (Store.tick Store.init)).
    reflexivity.
Defined.

(** ** The end-to-end scenarios *)

Import Sample.

(** Scenario 1: one chat tab, no composer metadata. *)
Example scenario_chat_tab :
  run (fetchConversationsForWorkspace frozenClock isoOnly tabOnly)
  = Ok [ResponseConversation.mk "t1" "Hello" None
          [createBubble user "Hi" None None (Some "chatResult")]
          "2023-11-14T22:13:20.000Z" "2023-11-14T22:13:20.000Z"].
Proof. vm_compute. reflexivity. Qed.

(** Scenario 2: the bubbles of c1 are kept, the one of c2 never appears. *)
Example scenario_shared_store :
  run (fetchConversationsForWorkspace frozenClock isoOnly sharedStore)
  = Ok [answerC1].
Proof. vm_compute. reflexivity. Qed.

(** Scenario 3: the composer title wins over the title of the chat tab. *)
Example scenario_both_sources :
  run (fetchConversationsForWorkspace frozenClock isoOnly bothSources)
  = Ok [ResponseConversation.mk "t1" "Composer title" None
          [createBubble user "Hi" None None (Some "chatResult")]
          "2023-11-14T22:13:20.000Z" "2027-01-15T08:00:00.000Z"].
Proof. vm_compute. reflexivity. Qed.

(** Staged [A; B; C] with hints none, 0, 1: the route returns [B; C; A]. *)
Example scenario_hints :
  run (fetchConversationsForWorkspace frozenClock isoOnly hinted)
  = Ok [ResponseConversation.mk "c1" "Hinted" (Some "Hinted") [bubbleB; bubbleC; bubbleA]
          "2023-11-14T22:13:20.000Z" "2023-11-14T22:13:20.000Z"].
Proof. vm_compute. reflexivity. Qed.

(** The tabs route answers 500 where the export route returns the empty list. *)
Example scenario_scan_throws :
  run (GET frozenClock isoOnly scanThrows)
  = Ok (NextResponse_json (ErrorBody "Failed to get workspace data") 500).
Proof. vm_compute. reflexivity. Qed.

(** The conversations of [afterTabT1] are what the chat pass makes of the tab
    of scenario 3. *)
Example afterTabT1_reached :
  Store.allConversationsMap
    (snd (processChat frozenClock isoOnly (Some (JsonValue (ChatData.mk (Some [tabT1]))))
            Store.init))
  = Store.allConversationsMap afterTabT1.
Proof. vm_compute. reflexivity. Qed.

(** The store [afterRepeats] is the one the export route leaves of the
    workspace [unhinted], of which it returns the messages A, B, C. *)
Example afterRepeats_reached :
  fetchConversationsForWorkspace frozenClock isoOnly unhinted Store.init
  = (Ok [ResponseConversation.mk "c1" "Plain" (Some "Plain") [bubbleA; bubbleB; bubbleC]
           "2023-11-14T22:13:20.000Z" "2023-11-14T22:13:20.000Z"],
     afterRepeats).
Proof. vm_compute. reflexivity. Qed.

(** A composer row that is not JSON is not read when there is no global
    database: the chat tab is returned. *)
Example scenario_garbled_composer_row :
  run (fetchConversationsForWorkspace frozenClock isoOnly garbledNoGlobal) = Ok [answerHello].
Proof. vm_compute. reflexivity. Qed.

(** A workspace database that cannot be closed: both routes throw, and the
    export route answers 500 with the message of the error. *)
Example scenario_close_fails :
  run (fetchConversationsForWorkspace frozenClock isoOnly closeFails)
  = Throw (ErrorObject "SQLITE_BUSY: unable to close due to unfinalized statements")
  ∧ run (GET frozenClock isoOnly closeFails)
    = Throw (ErrorObject "SQLITE_BUSY: unable to close due to unfinalized statements")
  ∧ run (POST frozenClock isoOnly exportCloseFails)
    = Ok (JsonAnswer "Failed to generate zip file"
            (Some "SQLITE_BUSY: unable to close due to unfinalized statements") 500).
Proof. repeat split; vm_compute; reflexivity. Qed.

(** The files of a workspace with the empty id land at the root of the
    archive, next to the folder of the workspace ws1. *)
Example scenario_root_files :
  ∃ zip disposition,
    run (POST frozenClock isoOnly exportRoot)
    = Ok (ZipAnswer zip 200 "application/zip" disposition)
    ∧ zip.*1 = ["ws1/"; "ws1/Chat t2.md"; "ws1/Hello.md"; "Hello.md"].
Proof. do 2 eexists. split; vm_compute; reflexivity. Qed.

(** ** The claims at concrete inputs *)

Lemma frozenClock_valid : clockValid frozenClock.
Proof. intros k. reflexivity. Qed.

(** C1 at scenario 2. *)
Lemma workspace_isolation_witness :
  keyComposerId "bubbleId:c2:x1" = Some "c2"
  ∧ ("c2" ∉ Store.workspaceComposerIds afterTabT1)
  ∧ processGlobalBubble frozenClock isoOnly [metaC1]
      (bubbleRow "bubbleId:c2:x1" 1 "foreign") afterTabT1 = (Ok tt, afterTabT1)
  ∧ fetchConversationsForWorkspace frozenClock isoOnly sharedStore Store.init
    = fetchConversationsForWorkspace frozenClock isoOnly (dropForeign sharedStore) Store.init.
Proof.
  destruct (workspace_isolation frozenClock isoOnly) as (H1 & H2 & H3).
  assert (Hk : keyComposerId "bubbleId:c2:x1" = Some "c2") by reflexivity.
  assert (Hout : "c2" ∉ Store.workspaceComposerIds afterTabT1)
    by (apply (bool_decide_unpack _); vm_compute; exact I).
  split; [exact Hk|]. split; [exact Hout|]. split.
  - exact (H1 [metaC1] "bubbleId:c2:x1" _ "c2" afterTabT1 Hk Hout).
  - exact (H2 sharedStore Store.init).
Defined.

(** C3, the claim as stated, fails when opening the global database throws:
    the chat tab of the workspace is still returned. *)
Lemma fetch_failure_counterexample :
  World.globalDbOpen globalOpenFails
  = Throw (ErrorObject "SQLITE_CANTOPEN: unable to open database file")
  ∧ run (fetchConversationsForWorkspace frozenClock isoOnly globalOpenFails)
    = Ok [ResponseConversation.mk "t1" "Hello" None
            [createBubble user "Hi" None None (Some "chatResult")]
            "2023-11-14T22:13:20.000Z" "2023-11-14T22:13:20.000Z"]
  ∧ run (fetchConversationsForWorkspace frozenClock isoOnly globalOpenFails) ≠ Ok [].
Proof. split; [reflexivity|]. split; [vm_compute; reflexivity|]. vm_compute. discriminate. Qed.

(** C3 as amended: a scan query that throws gives the empty list; a global
    database that cannot be opened or is not there leaves the chat tab, also
    when the composer row is not JSON; a workspace database that cannot be
    closed makes the fetch throw. *)
Lemma fetch_failure_semantics_witness :
  fst (fetchConversationsForWorkspace frozenClock isoOnly scanThrows Store.init) = Ok []
  ∧ fetchConversationsForWorkspace frozenClock isoOnly globalOpenFails Store.init
    = fetchConversationsForWorkspace frozenClock isoOnly
        (withoutComposerRow globalOpenFails) Store.init
  ∧ fetchConversationsForWorkspace frozenClock isoOnly garbledNoGlobal Store.init
    = fetchConversationsForWorkspace frozenClock isoOnly
        (withoutComposerRow garbledNoGlobal) Store.init
  ∧ fst (fetchConversationsForWorkspace frozenClock isoOnly closeFails Store.init)
    = Throw (ErrorObject "SQLITE_BUSY: unable to close due to unfinalized statements").
Proof.
  destruct (fetch_failure_semantics frozenClock isoOnly scanThrows Store.init)
    as (_ & _ & _ & _ & H5 & _).
  destruct (fetch_failure_semantics frozenClock isoOnly globalOpenFails Store.init)
    as (_ & _ & _ & _ & _ & H6).
  destruct (fetch_failure_semantics frozenClock isoOnly garbledNoGlobal Store.init)
    as (_ & _ & _ & _ & _ & H6').
  destruct (fetch_failure_semantics frozenClock isoOnly closeFails Store.init)
    as (_ & H2 & _).
  split; [|split; [|split]].
  - apply (H5 (JsonValue (ComposerMetadata.mk [metaC1]))); try reflexivity.
    + split; reflexivity.
    + discriminate.
    + right. left. eexists. reflexivity.
  - apply (H6 (Some (JsonValue (ComposerMetadata.mk [metaC1])))); [reflexivity|].
    right. eexists. reflexivity.
  - apply (H6' (Some (JsonMalformed "Unexpected token o in JSON at position 1")));
      [reflexivity|].
    left. reflexivity.
  - apply H2; reflexivity.
Defined.

(** C4 at the store of the messages A, B, C. *)
Lemma ordering_with_hints_witness :
  Store.headerOrderMap storeABC !! "c1" = Some {["b" := 0%nat; "c" := 1%nat]}
  ∧ staged storeABC "c1" = [bubbleA; bubbleB; bubbleC]
  ∧ finalBubbles storeABC "c1" = [bubbleB; bubbleC; bubbleA].
Proof.
  destruct (ordering_with_hints frozenClock isoOnly) as (_ & H2 & _).
  assert (Hh : Store.headerOrderMap storeABC !! "c1" = Some {["b" := 0%nat; "c" := 1%nat]})
    by (vm_compute; reflexivity).
  assert (Hs : staged storeABC "c1" = [bubbleA; bubbleB; bubbleC])
    by (vm_compute; reflexivity).
  split; [exact Hh|]. split; [exact Hs|].
  apply (H2 storeABC "c1" {["b" := 0%nat; "c" := 1%nat]} bubbleA bubbleB bubbleC Hh Hs).
  - apply (bool_decide_unpack _). vm_compute. exact I.
  - vm_compute. reflexivity.
  - vm_compute. reflexivity.
  - vm_compute. reflexivity.
Defined.

(** C5 at scenario 2: the messages the export route returns are the final
    bubbles of the conversation in some store. *)
Lemma dedup_invariant_witness :
  fetchConversationsForWorkspace frozenClock isoOnly sharedStore Store.init
  = (Ok [answerC1],
     snd (fetchConversationsForWorkspace frozenClock isoOnly sharedStore Store.init))
  ∧ ∃ σ, ResponseConversation.messages answerC1
         = finalBubbles σ (ResponseConversation.id answerC1).
Proof.
  destruct (dedup_invariant frozenClock isoOnly) as (_ & _ & H3 & _).
  assert (Hrun : fetchConversationsForWorkspace frozenClock isoOnly sharedStore Store.init
                 = (Ok [answerC1],
                    snd (fetchConversationsForWorkspace frozenClock isoOnly sharedStore
                           Store.init)))
    by (vm_compute; reflexivity).
  split; [exact Hrun|].
  apply (H3 sharedStore Store.init [answerC1] _ Hrun answerC1). left.
Defined.


(** C7 at a white bubble of a chat tab, and at scenario 2, whose white bubble
    of c1 leaves the two others. *)
Lemma empty_content_dropped_witness :
  JsString.allWhite (legacyContent (rawBubble "user" "   ")) = true
  ∧ legacyBubble (rawBubble "user" "   ") = None
  ∧ fetchConversationsForWorkspace frozenClock isoOnly sharedStore Store.init
    = (Ok [answerC1],
       snd (fetchConversationsForWorkspace frozenClock isoOnly sharedStore Store.init))
  ∧ ResponseConversation.messages answerC1 ≠ [].
Proof.
  destruct (empty_content_dropped frozenClock isoOnly) as (H1 & _ & _ & H4 & _).
  assert (Hrun : fetchConversationsForWorkspace frozenClock isoOnly sharedStore Store.init
                 = (Ok [answerC1],
                    snd (fetchConversationsForWorkspace frozenClock isoOnly sharedStore
                           Store.init)))
    by (vm_compute; reflexivity).
  split; [reflexivity|]. split; [apply H1; reflexivity|]. split; [exact Hrun|].
  apply (H4 sharedStore Store.init [answerC1] _ Hrun answerC1). left.
Defined.

(** C10 at a white bubble of the composer t1 of scenario 3. *)
Lemma global_scan_frame_witness :
  keyComposerId "bubbleId:t1:b3" = Some "t1"
  ∧ ("t1" ∈ Store.workspaceComposerIds afterTabT1)
  ∧ JsString.allWhite
      (globalContent (BubbleData.mk (Some (TypeNum 0)) (Some "   ") None None)) = true
  ∧ processGlobalBubble frozenClock isoOnly [metaC1]
      (bubbleRow "bubbleId:t1:b3" 0 "   ") afterTabT1 = (Ok tt, afterTabT1).
Proof.
  destruct (global_scan_frame frozenClock isoOnly) as (H1 & _).
  assert (Hk : keyComposerId "bubbleId:t1:b3" = Some "t1") by reflexivity.
  assert (Hin : "t1" ∈ Store.workspaceComposerIds afterTabT1)
    by (apply (bool_decide_unpack _); vm_compute; exact I).
  assert (Hw : JsString.allWhite
                 (globalContent (BubbleData.mk (Some (TypeNum 0)) (Some "   ") None None))
               = true) by reflexivity.
  split; [exact Hk|]. split; [exact Hin|]. split; [exact Hw|].
  exact (H1 [metaC1] "bubbleId:t1:b3" _ "t1" afterTabT1 Hk Hin Hw).
Defined.

(** ** File names *)

Lemma sanitizeFilename_idempotent_witness :
  sanitizeFilename "notes-v2" = "notes-v2"
  ∧ sanitizeFilename "a/b: c?." = "a_b_ c__".
Proof.
  split; [|reflexivity].
  refine (proj1 (proj2 (sanitizeFilename_idempotent "notes-v2")) _ _).
  - unfold safeChars. repeat constructor.
  - intros [r H]. revert H.
    repeat (destruct r as [|? r]; [discriminate|]; intros [= ? H]; revert H).
Defined.

(** ** The returned lists *)

Lemma twoTabs_fetch :
  fetchConversationsForWorkspace frozenClock isoOnly twoTabs Store.init
  = (Ok [answerLater; answerHello],
     snd (fetchConversationsForWorkspace frozenClock isoOnly twoTabs Store.init)).
Proof. vm_compute. reflexivity. Defined.

Lemma conversation_ids_unique_witness :
  NoDup (ResponseConversation.id <$> [answerLater; answerHello]).
Proof.
  exact (proj1 (conversation_ids_unique frozenClock isoOnly)
           twoTabs Store.init _ _ twoTabs_fetch).
Defined.

Lemma conversation_names_nonempty_witness :
  ResponseConversation.name answerLater ≠ "".
Proof.
  refine (proj1 (conversation_names_nonempty frozenClock isoOnly)
            twoTabs Store.init _ _ twoTabs_fetch answerLater _).
  left.
Defined.

Lemma messages_canonical_witness :
  Forall canonical (ResponseConversation.messages answerLater).
Proof.
  refine (proj1 (messages_canonical frozenClock isoOnly)
            twoTabs Store.init _ _ twoTabs_fetch answerLater _).
  left.
Defined.

Lemma conversations_newest_first_witness :
  ∃ ta tb, updatedTime isoOnly answerLater = Some ta
           ∧ updatedTime isoOnly answerHello = Some tb ∧ tb <= ta.
Proof.
  exact (proj1 (conversations_newest_first frozenClock isoOnly)
           twoTabs Store.init _ _ twoTabs_fetch [] answerLater [] answerHello [] eq_refl).
Defined.

(** X7 at the composer whose third message repeats the first: B and C keep
    their staging order around the repeated A, which is dropped. *)
Lemma ordering_without_hints_witness :
  Store.headerOrderMap afterRepeats !! "c1" = None
  ∧ staged afterRepeats "c1" = [bubbleA; bubbleB; bubbleA2; bubbleC]
  ∧ finalBubbles afterRepeats "c1" = [bubbleA; bubbleB; bubbleC]
  ∧ finalBubbles afterRepeats "c1" `sublist_of` staged afterRepeats "c1"
  ∧ ∃ s1 s2 s3, staged afterRepeats "c1" = s1 ++ bubbleB :: s2 ++ bubbleC :: s3
                ∧ (bubbleKey bubbleB ∉ bubbleKey <$> s1)
                ∧ (bubbleKey bubbleC ∉ bubbleKey <$> (s1 ++ bubbleB :: s2)).
Proof.
  assert (Hh : Store.headerOrderMap afterRepeats !! "c1" = None) by (vm_compute; reflexivity).
  assert (Hf : finalBubbles afterRepeats "c1" = [bubbleA; bubbleB; bubbleC])
    by (vm_compute; reflexivity).
  destruct (ordering_without_hints afterRepeats "c1") as [H1 H2].
  { intros headerMap H. rewrite Hh in H. discriminate H. }
  split; [exact Hh|]. split; [vm_compute; reflexivity|]. split; [exact Hf|].
  split; [exact H1|].
  apply (H2 [bubbleA] bubbleB [] bubbleC []). exact Hf.
Defined.

Lemma orderMapFrom_last_wins_witness :
  (0 < size (orderMapFrom [Header.mk "b" 2 None; Header.mk "c" 2 None; Header.mk "b" 1 None]
                0 ∅))%nat
  ∧ orderMapFrom [Header.mk "b" 2 None; Header.mk "c" 2 None; Header.mk "b" 1 None] 0 ∅
      !! "b" = Some 2%nat.
Proof.
  split.
  - apply (proj2 (proj2 (orderMapFrom_last_wins _))). discriminate.
  - reflexivity.
Defined.

Lemma routes_agree_witness :
  closes sharedStore
  ∧ ∃ l r σ', fetchConversationsForWorkspace frozenClock isoOnly sharedStore Store.init
              = (Ok l, σ')
              ∧ GET frozenClock isoOnly sharedStore Store.init = (Ok r, σ')
              ∧ sameAnswer l r.
Proof.
  split; [split; reflexivity|].
  destruct (routes_agree frozenClock isoOnly sharedStore Store.init eq_refl eq_refl)
    as [H|(e & σ' & _ & _ & [H|H])].
  - exact H.
  - discriminate H.
  - discriminate H.
Defined.

(** ** The scan, record by record *)

Lemma scan_skips_inert_records_witness :
  processGlobalBubble frozenClock isoOnly [metaC1]
    ("bubbleId:c1:b9", JsonMalformed "Unexpected end of JSON input") afterTabT1
  = (Ok tt, afterTabT1).
Proof.
  apply (proj1 (scan_skips_inert_records frozenClock isoOnly)). reflexivity.
Defined.

Lemma global_bubble_staged_witness :
  ∃ σ', processGlobalBubble frozenClock isoOnly []
          ("bubbleId:t1:b2", JsonValue (BubbleData.mk (Some (TypeNum 2)) (Some "Hello") None None))
          afterTabT1 = (Ok tt, σ')
        ∧ staged σ' "t1"
          = staged afterTabT1 "t1"
            ++ [createBubble assistant "Hello" (Some "b2") (Some (TypeNum 2))
                  (Some "globalBubble")]
        ∧ stagedElsewhere "t1" afterTabT1 σ'
        ∧ (∀ j, j ≠ "t1" →
             OrderedMap.get j (Store.allConversationsMap σ')
             = OrderedMap.get j (Store.allConversationsMap afterTabT1))
        ∧ Store.headerOrderMap σ' = Store.headerOrderMap afterTabT1
        ∧ Store.workspaceComposerIds σ' = Store.workspaceComposerIds afterTabT1.
Proof.
  apply (global_bubble_staged frozenClock isoOnly [] "bubbleId:t1:b2" _ "t1").
  - reflexivity.
  - vm_compute. set_solver.
  - reflexivity.
Defined.

(** ** A database that cannot be closed, and a composer that is new *)

Lemma close_failure_surfaces_witness :
  fst (fetchConversationsForWorkspace frozenClock isoOnly closeFails Store.init)
  = Throw (ErrorObject "SQLITE_BUSY: unable to close due to unfinalized statements")
  ∧ fst (GET frozenClock isoOnly closeFails Store.init)
    = Throw (ErrorObject "SQLITE_BUSY: unable to close due to unfinalized statements")
  ∧ GET frozenClock isoOnly (withGlobalClose (Throw OtherValue) closeFails) Store.init
    = GET frozenClock isoOnly closeFails Store.init.
Proof.
  destruct (close_failure_surfaces frozenClock isoOnly closeFails Store.init
              (ErrorObject "SQLITE_BUSY: unable to close due to unfinalized statements")
              eq_refl eq_refl) as (H1 & H2 & H3).
  split; [exact (proj1 (H1 eq_refl))|]. split; [exact H2|]. exact (H3 (Throw OtherValue)).
Defined.


(** ** The export route at work *)

Lemma markdown_of_fetched_witness :
  ∃ created updated,
    dateOfString isoOnly (ResponseConversation.createdAt answerLater) = Some created
    ∧ dateOfString isoOnly (ResponseConversation.lastUpdatedAt answerLater) = Some updated
    ∧ convertConversationToMarkdown isoOnly isoLocale answerLater
      = documentHead isoLocale answerLater created updated
          +:+ String.concat "" (messageSection <$> ResponseConversation.messages answerLater).
Proof.
  apply (markdown_of_fetched frozenClock isoOnly isoLocale twoTabs Store.init _ _ _
           twoTabs_fetch).
  left.
Defined.

Lemma getTimestampString_digits_witness :
  ∃ s, getTimestampString frozenClock isoLocale Store.init = (Ok s, Store.tick Store.init)
       ∧ s = "20231114221320" ∧ String.length s = 14%nat.
Proof.
  apply (proj1 (getTimestampString_digits frozenClock isoLocale Store.init)).
  - reflexivity.
  - vm_compute. split; discriminate.
Defined.

Lemma POST_answers_witness :
  ∃ σ', POST frozenClock isoOnly unconfigured Store.init
        = (Ok (JsonAnswer "WORKSPACE_PATH environment variable is not set." None 500), σ').
Proof.
  destruct (POST_answers frozenClock isoOnly unconfigured Store.init)
    as (r & σ' & E & _ & H & _).
  exists σ'. rewrite E. destruct H as [-> _]; reflexivity.
Defined.

Lemma POST_failure_causes_witness :
  (500 = 500
   ∧ ∃ error, failureOf exportNoFolder error
              ∧ Some "Could not create folder 'ws1' in zip" = Some (errorMessage error))
  ∧ 500 = 500
  ∧ ∃ error, failureOf exportCloseFails error
             ∧ Some "SQLITE_BUSY: unable to close due to unfinalized statements"
               = Some (errorMessage error).
Proof.
  split.
  - apply (POST_failure_causes frozenClock isoOnly exportNoFolder Store.init
             (snd (POST frozenClock isoOnly exportNoFolder Store.init))).
    vm_compute. reflexivity.
  - apply (POST_failure_causes frozenClock isoOnly exportCloseFails Store.init
             (snd (POST frozenClock isoOnly exportCloseFails Store.init))).
    vm_compute. reflexivity.
Defined.

Lemma POST_archive_paths_witness :
  (∃ zip disposition σ',
     POST frozenClock isoOnly exportRoot Store.init
     = (Ok (ZipAnswer zip 200 "application/zip" disposition), σ')
     ∧ zip.*1 = ["ws1/"; "ws1/Chat t2.md"; "ws1/Hello.md"; "Hello.md"]
     ∧ archiveAt ["ws1"; ""] zip)
  ∧ ∃ zip disposition σ',
      POST frozenClock isoOnly exportOne Store.init
      = (Ok (ZipAnswer zip 200 "application/zip" disposition), σ')
      ∧ archiveOf ["ws1"] zip.
Proof.
  split.
  - do 3 eexists. split; [vm_compute; reflexivity|]. split; [vm_compute; reflexivity|].
    refine (proj1 (POST_archive_paths frozenClock isoOnly exportRoot Store.init _ _ _ _ _ _)).
    vm_compute. reflexivity.
  - do 3 eexists. split; [vm_compute; reflexivity|].
    refine (proj2 (POST_archive_paths frozenClock isoOnly exportOne Store.init _ _ _ _ _ _) _).
    { vm_compute. reflexivity. }
    intros id Hid. apply list_elem_of_singleton in Hid as ->. discriminate.
Defined.

Lemma POST_nothing_found_witness :
  ∃ error σ', POST frozenClock isoOnly exportMissing Store.init
              = (Ok (JsonAnswer error None 404), σ').
Proof.
  apply (POST_nothing_found frozenClock isoOnly exportMissing
           (DownloadRequestBody.mk None None (Some ["a"; "b"])) [] Store.init).
  - discriminate.
  - reflexivity.
  - reflexivity.
  - intros id _ σ. reflexivity.
Defined.

Lemma exportOne_timestamp :
  getTimestampString frozenClock (ExportRequest.locale exportOne) Store.init
  = (Ok "20231114221320", Store.tick Store.init).
Proof. vm_compute. reflexivity. Defined.

Lemma exportOne_fetch :
  fetchConversationsForWorkspace frozenClock isoOnly
    (ExportRequest.workspace exportOne "ws1") (Store.tick Store.init)
  = (Ok [answerLater; answerHello],
     snd (fetchConversationsForWorkspace frozenClock isoOnly twoTabs
            (Store.tick Store.init))).
Proof. vm_compute. reflexivity. Defined.

Lemma POST_single_workspace_witness :
  ∃ zip,
    fst (POST frozenClock isoOnly exportOne Store.init)
    = Ok (ZipAnswer zip 200 "application/zip"
            ("attachment; filename="
               +:+ String "034"
                     ("cursor_chat_history_20231114221320_ws1.zip" +:+ String "034" "")))
    ∧ OrderedMap.get "ws1/" zip = Some ZipFolder
    ∧ OrderedMap.get ("ws1/" +:+ filenameOf answerHello) zip
      = Some (ZipFile (convertConversationToMarkdown isoOnly isoLocale answerHello)).
Proof.
  assert (H1 : orElse (ExportRequest.WORKSPACE_PATH exportOne) "" ≠ "") by discriminate.
  assert (H5 : "ws1" ≠ "") by discriminate.
  assert (H9 : [answerLater; answerHello] ≠ []) by discriminate.
  pose proof (proj2 (POST_single_workspace frozenClock isoOnly exportOne
                       (DownloadRequestBody.mk (Some "ws1") (Some "project") None)
                       "ws1" "20231114221320" [answerLater; answerHello]
                       Store.init (Store.tick Store.init) _
                       H1 eq_refl (or_introl eq_refl) eq_refl H5 eq_refl eq_refl
                       exportOne_timestamp exportOne_fetch) H9) as (zip & E & F & G).
  exists zip. split; [rewrite E; reflexivity|]. split; [exact F|].
  apply (G [answerLater] answerHello []); [reflexivity|].
  intros x Hx. apply elem_of_nil in Hx. destruct Hx.
Defined.

(** ** The client at work *)


(** ** The conversation a first message brings *)

Lemma chat_tab_conversation_witness :
  ∃ conv σ',
    processTab frozenClock isoOnly tabHello Store.init = (Ok tt, σ')
    ∧ OrderedMap.get "t1" (Store.allConversationsMap σ') = Some conv
    ∧ TempConversation.title conv = "Hello"
    ∧ TempConversation.lastUpdatedAt conv = "2023-11-14T22:13:20.000Z".
Proof.
  destruct (chat_tab_conversation frozenClock isoOnly frozenClock_valid tabHello Store.init)
    as (conv & σ' & E & G & _ & Hc & Ht & _).
  exists conv, σ'. split; [exact E|]. split; [exact G|]. split.
  - rewrite Hc. reflexivity.
  - apply (Ht 1700000000000). reflexivity.
Defined.


Lemma uniqueBubbles_idempotent_witness :
  uniqueBubbles [bubbleA; bubbleB; bubbleC] = [bubbleA; bubbleB; bubbleC].
Proof.
  apply (proj1 (uniqueBubbles_idempotent [bubbleA; bubbleB; bubbleC])).
  apply (bool_decide_unpack _). vm_compute. exact I.
Defined.
